(** * LabelLocator: the label placement engine of qdcontour

    A shallow embedding of [source/LabelLocator.cpp].  The class keeps, per
    parameter and per contour value, the candidate pixel coordinates of the
    current timestep and the coordinates chosen at the previous one, and
    [chooseLabels] greedily picks coordinates that respect three minimum
    distances.

    Numbers are modelled as the program has them:
    - [int] is an integer of [[-2^31, 2^31)] held in [Z];
    - [double] is Rocq's primitive binary64 [float], so that [distance] is
      computed with the very roundings of the C++ code; a C++ [float]
      (thresholds, contour values) is a [double] that happens to be
      representable in binary32, the promotion [float -> double] being exact;
    - [std::map] is an association list kept in the order of its keys and
      searched the way a lower bound search does;
    - [std::list] is [list]; an iterator is a position in the list, and a
      reference to a node is the place of the node together with what the
      node holds while it lives.

    [chooseLabels] hands the chosen point to [removeCandidates] by
    reference to a node that [removeCandidates] erases.  What the program
    reads from the destroyed node is not defined by the language: the
    embedding takes it from a parameter, and the theorems say which
    properties hold whatever is read, which hold when the node is read as
    it was, and which fail. *)

From Stdlib Require Import ZArith List Lia Bool Permutation Sorted.
From Stdlib Require Import Floats.
Import ListNotations.
Local Open Scope Z_scope.

(* ================================================================== *)
(** ** Machine integers *)

Module CInt.

(** The value an [int] object holds when the mathematical result is [z]
    (two's complement, 32 bits). *)
Definition wrap (z : Z) : Z := (z + 2 ^ 31) mod 2 ^ 32 - 2 ^ 31.

Definition sub (a b : Z) : Z := wrap (a - b).

Definition abs (a : Z) : Z := wrap (Z.abs a).

(** [std::min<int>(a, b)] is [(b < a) ? b : a]. *)
Definition min (a b : Z) : Z := if b <? a then b else a.

End CInt.

(* ================================================================== *)
(** ** Doubles *)

(** The implicit conversion [int -> double]: the binary64 number nearest to
    the integer (every [int] is representable, so the conversion is exact).
    The argument is read as an [int], that is modulo [2^32]. *)
Definition double_of_int (z : Z) : float :=
  SF2Prim (binary_normalize prec emax (CInt.wrap z) 0 false).

(** [std::min<double>(a, b)] is [(b < a) ? b : a]. *)
Definition std_min (a b : float) : float :=
  if (b <? a)%float then b else a.

(** Distance between two points. *)
Definition distance (theX1 theY1 theX2 theY2 : float) : float :=
  PrimFloat.sqrt ((theX2 - theX1) * (theX2 - theX1) +
                  (theY2 - theY1) * (theY2 - theY1))%float.

(** The body of the loop of [mindistance], [best] being the running
    minimum (negative before the first point). *)
Fixpoint mindistance_from (best : float) (theX theY : float)
  (theCoords : list (Z * Z)) : float :=
  match theCoords with
  | [] => best
  | it :: rest =>
      let dist :=
        distance theX theY (double_of_int (fst it)) (double_of_int (snd it)) in
      let best' := if (best <? 0)%float then dist else std_min best dist in
      mindistance_from best' theX theY rest
  end.

(** Minimum distance of a point from a collection of points; [-1] when the
    collection is empty. *)
Definition mindistance (theX theY : float) (theCoords : list (Z * Z)) : float :=
  mindistance_from (-1)%float theX theY theCoords.

(** A double that is neither an infinity nor a NaN, on the specification
    side. *)
Definition SFfinite (x : spec_float) : bool :=
  match x with
  | S754_zero _ | S754_finite _ _ _ => true
  | _ => false
  end.

(* ================================================================== *)
(** ** Ordered maps *)

Module StdMap.
Section Ordered.
Context {K V : Type}.
Variable less : K -> K -> bool.

(** [std::map::find]: walk to the first entry whose key is not below [k]
    (the lower bound); the key is found there unless [k] is below it. *)
Fixpoint find (k : K) (m : list (K * V)) : option V :=
  match m with
  | [] => None
  | (k', v) :: m' =>
      if less k' k then find k m'
      else if less k k' then None
      else Some v
  end.

(** [m[k]] followed by a change [f] of the mapped value through the
    returned reference.  A key that is not found is inserted at the lower
    bound with the default constructed value [dflt]. *)
Fixpoint update (k : K) (dflt : V) (f : V -> V) (m : list (K * V)) : list (K * V) :=
  match m with
  | [] => [(k, f dflt)]
  | (k', v) :: m' =>
      if less k' k then (k', v) :: update k dflt f m'
      else if less k k' then (k, f dflt) :: (k', v) :: m'
      else (k', f v) :: m'
  end.

End Ordered.
End StdMap.

(* ================================================================== *)
(** ** The class *)

(** Bad parameter value. *)
Definition badparameter : Z := 0.

(** The [runtime_error]s of the class, one constructor per message. *)
Inductive runtime_error : Type :=
| CannotChangeBoundingBox
    (* LabelLocator: Cannot change bounding box once coordinates have been added *)
| EmptyBoundingBox
    (* Empty bounding box not allowed in LabelLocator *)
| CannotChangeMinimumDistances
    (* LabelLocator: Cannot change minimum distances once coordinates have been added *)
| CannotActivateParameter0
    (* Cannot activate parameter number 0, must be nonnegative *)
| CannotAddBeforeParameter
    (* LabelLocator: Cannot add label location before setting the parameter *)
| InternalError.
    (* Internal error in LabelLocator::chooseLabels() *)

(** The three kinds of failure the specification speaks of. *)
Inductive failure : Type :=
| InvalidConfiguration
| InvalidState
| InternalInvariantViolation.

Definition failure_of (e : runtime_error) : failure :=
  match e with
  | CannotChangeBoundingBox | EmptyBoundingBox | CannotChangeMinimumDistances =>
      InvalidConfiguration
  | CannotActivateParameter0 | CannotAddBeforeParameter => InvalidState
  | InternalError => InternalInvariantViolation
  end.

(** What a call does: it returns, it throws, or (for the loop of
    [chooseLabels], which is run with fuel) it is still running when the
    fuel is spent. *)
Inductive outcome (A : Type) : Type :=
| Return (a : A)
| Throw (e : runtime_error)
| OutOfFuel.

Arguments Return {A} a.
Arguments Throw {A} e.
Arguments OutOfFuel {A}.

Module LabelLocator.

(** Modelled from the spec: the typedefs of the class are declared in
    [LabelLocator.h], which is not among the sources.  A candidate is an
    integer pixel coordinate [(x, y)] (the code builds it with
    [Coordinates::value_type(theX, theY)] and reads [it->first] and
    [it->second]). *)
Definition XY : Type := Z * Z.

(** Modelled from the spec: an ordered list of candidates, insertion order
    preserved and duplicates allowed (the code uses [push_back], [erase] and
    forward iteration).  The list is taken as a list of nodes, a
    [std::list]: [erase] destroys the node it is given and leaves the other
    nodes, and the references to them, as they are. *)
Definition Coordinates : Type := list XY.

(** Modelled from the spec: contour value -> coordinates, a [std::map]
    keyed by [float]. *)
Definition ContourCoordinates : Type := list (float * Coordinates).

(** Modelled from the spec: parameter -> contour value -> coordinates, a
    [std::map] keyed by [int]. *)
Definition ParamCoordinates : Type := list (Z * ContourCoordinates).

(** The data members, in the order of the constructor's initialisers.
    Modelled from the spec: their declarations are in [LabelLocator.h]; the
    types are those of the setters' parameters ([int] for the box, [float]
    for the minimum distances and [int] for the parameter). *)
Record state : Type := Build {
  itHasBBox : bool;
  itsBBoxX1 : Z;
  itsBBoxY1 : Z;
  itsBBoxX2 : Z;
  itsBBoxY2 : Z;
  itsMinDistanceToSameValue : float;
  itsMinDistanceToDifferentValue : float;
  itsMinDistanceToDifferentParameter : float;
  itsActiveParameter : Z;
  itsPreviousCoordinates : ParamCoordinates;
  itsCurrentCoordinates : ParamCoordinates
}.

(** Assignment to the two tables. *)
Definition set_coordinates (l : state) (previous current : ParamCoordinates) : state :=
  Build (itHasBBox l) (itsBBoxX1 l) (itsBBoxY1 l) (itsBBoxX2 l) (itsBBoxY2 l)
        (itsMinDistanceToSameValue l) (itsMinDistanceToDifferentValue l)
        (itsMinDistanceToDifferentParameter l)
        (itsActiveParameter l) previous current.

(** Default constructor. *)
Definition LabelLocator : state :=
  Build false 0 0 0 0 100%float 50%float 50%float 0 [] [].

(** Test if the locator contains no coordinates. *)
Definition empty (l : state) : bool :=
  match itsPreviousCoordinates l, itsCurrentCoordinates l with
  | [], [] => true
  | _, _ => false
  end.

(** Clear all earlier label locations. *)
Definition clear (l : state) : state :=
  Build (itHasBBox l) (itsBBoxX1 l) (itsBBoxY1 l) (itsBBoxX2 l) (itsBBoxY2 l)
        (itsMinDistanceToSameValue l) (itsMinDistanceToDifferentValue l)
        (itsMinDistanceToDifferentParameter l)
        badparameter [] [].

(** Set the bounding box to which all label coordinates are clipped. *)
Definition boundingBox (theX1 theY1 theX2 theY2 : Z) (l : state) : outcome state :=
  if negb (empty l) then Throw CannotChangeBoundingBox
  else if (theX2 <=? theX1) || (theY2 <=? theY1) then Throw EmptyBoundingBox
  else Return
         (Build true theX1 theY1 theX2 theY2
                (itsMinDistanceToSameValue l) (itsMinDistanceToDifferentValue l)
                (itsMinDistanceToDifferentParameter l)
                (itsActiveParameter l)
                (itsPreviousCoordinates l) (itsCurrentCoordinates l)).

(** Set the minimum distance to label of same value. *)
Definition minDistanceToSameValue (theDistance : float) (l : state) : outcome state :=
  if negb (empty l) then Throw CannotChangeMinimumDistances
  else Return
         (Build (itHasBBox l) (itsBBoxX1 l) (itsBBoxY1 l) (itsBBoxX2 l) (itsBBoxY2 l)
                theDistance (itsMinDistanceToDifferentValue l)
                (itsMinDistanceToDifferentParameter l)
                (itsActiveParameter l)
                (itsPreviousCoordinates l) (itsCurrentCoordinates l)).

(** Set the minimum distance to label of different value. *)
Definition minDistanceToDifferentValue (theDistance : float) (l : state) : outcome state :=
  if negb (empty l) then Throw CannotChangeMinimumDistances
  else Return
         (Build (itHasBBox l) (itsBBoxX1 l) (itsBBoxY1 l) (itsBBoxX2 l) (itsBBoxY2 l)
                (itsMinDistanceToSameValue l) theDistance
                (itsMinDistanceToDifferentParameter l)
                (itsActiveParameter l)
                (itsPreviousCoordinates l) (itsCurrentCoordinates l)).

(** Set the minimum distance to label of parameter. *)
Definition minDistanceToDifferentParameter (theDistance : float) (l : state) : outcome state :=
  if negb (empty l) then Throw CannotChangeMinimumDistances
  else Return
         (Build (itHasBBox l) (itsBBoxX1 l) (itsBBoxY1 l) (itsBBoxX2 l) (itsBBoxY2 l)
                (itsMinDistanceToSameValue l) (itsMinDistanceToDifferentValue l)
                theDistance
                (itsActiveParameter l)
                (itsPreviousCoordinates l) (itsCurrentCoordinates l)).

(** Set the parameter id of the active parameter. *)
Definition parameter (theParameter : Z) (l : state) : outcome state :=
  if theParameter =? badparameter then Throw CannotActivateParameter0
  else Return
         (Build (itHasBBox l) (itsBBoxX1 l) (itsBBoxY1 l) (itsBBoxX2 l) (itsBBoxY2 l)
                (itsMinDistanceToSameValue l) (itsMinDistanceToDifferentValue l)
                (itsMinDistanceToDifferentParameter l)
                theParameter
                (itsPreviousCoordinates l) (itsCurrentCoordinates l)).

(** Initialize next time step: the previous table is cleared, then swapped
    with the current one. *)
Definition nextTime (l : state) : state :=
  set_coordinates l (itsCurrentCoordinates l) [].

(** Test if the point is within the bounding box. *)
Definition inside (l : state) (theX theY : Z) : bool :=
  if negb (itHasBBox l) then true
  else (theX >=? itsBBoxX1 l) && (theX <? itsBBoxX2 l) &&
       (theY >=? itsBBoxY1 l) && (theY <? itsBBoxY2 l).

(** [m[theParam][theContour].push_back(xy)], default constructed values
    being a desired side effect. *)
Definition push_back (m : ParamCoordinates) (theParam : Z) (theContour : float)
  (xy : XY) : ParamCoordinates :=
  StdMap.update Z.ltb theParam []
    (StdMap.update PrimFloat.ltb theContour [] (fun c : Coordinates => c ++ [xy]))
    m.

(** Add a new coordinate for the active parameter. *)
Definition add (theContour : float) (theX theY : Z) (l : state) : outcome state :=
  if negb (inside l theX theY) then Return l
  else if itsActiveParameter l =? badparameter then Throw CannotAddBeforeParameter
  else Return
         (set_coordinates l (itsPreviousCoordinates l)
            (push_back (itsCurrentCoordinates l) (itsActiveParameter l)
               theContour (theX, theY))).

(** An iterator of a list of candidates is the position of a node in the
    list as the list is when the iterator is made; [None] is [end()].
    [deref c it] is [*it]. *)
Definition deref (c : Coordinates) (it : nat) : XY := nth it c (0, 0).

(** The loop shared by [chooseClosestToPrevious] and
    [chooseClosestToBorder]: [it] is the iterator of the loop, [best] the
    iterator taken so far, [bestdist] its score, and a candidate replaces it
    when nothing was taken yet ([bestdist < 0]) or its score [dist] is
    strictly smaller. *)
Fixpoint closest_from (dist : XY -> float) (bestdist : float) (best : option nat)
  (it : nat) (theCandidates : Coordinates) : option nat :=
  match theCandidates with
  | [] => best
  | xy :: rest =>
      if ((bestdist <? 0) || (dist xy <? bestdist))%float
      then closest_from dist (dist xy) (Some it) (S it) rest
      else closest_from dist bestdist best (S it) rest
  end.

(** Choose a label location from given candidates closest to earlier ones. *)
Definition chooseClosestToPrevious (theCandidates thePreviousChoises : Coordinates)
  : option nat :=
  closest_from
    (fun it => mindistance (double_of_int (fst it)) (double_of_int (snd it))
                 thePreviousChoises)
    (-1)%float None 0 theCandidates.

(** The score of a candidate in [chooseClosestToBorder]: the smallest of
    its distances to the four sides of the box.  The differences, [abs] and
    the inner [min] are computed on [int]s, the outer [min] on [double]s. *)
Definition border_distance (l : state) (it : XY) : float :=
  let xdist := double_of_int
    (CInt.min (CInt.abs (CInt.sub (fst it) (itsBBoxX1 l)))
              (CInt.abs (CInt.sub (fst it) (itsBBoxX2 l)))) in
  let ydist := double_of_int
    (CInt.min (CInt.abs (CInt.sub (snd it) (itsBBoxY1 l)))
              (CInt.abs (CInt.sub (snd it) (itsBBoxY2 l)))) in
  std_min xdist ydist.

(** Choose a label location closest to the bounding box. *)
Definition chooseClosestToBorder (l : state) (theCandidates : Coordinates)
  : option nat :=
  match theCandidates with
  | [] => None
  | _ :: _ =>
      if negb (itHasBBox l) then Some 0%nat
      else closest_from (border_distance l) (-1)%float None 0 theCandidates
  end.

(** Choose a label location from given candidates. *)
Definition chooseOne (l : state) (theCandidates : Coordinates) (theParam : Z)
  (theContour : float) : option nat :=
  match StdMap.find Z.ltb theParam (itsPreviousCoordinates l) with
  | None => chooseClosestToBorder l theCandidates
  | Some contours =>
      match StdMap.find PrimFloat.ltb theContour contours with
      | None => chooseClosestToBorder l theCandidates
      | Some previous => chooseClosestToPrevious theCandidates previous
      end
  end.

(** The test of [removeCandidates] on the candidate [it] stored under
    [param] and [contour], the chosen point being [thePoint] of [theParam]
    and [theContour]. *)
Definition erase (l : state) (thePoint : XY) (theParam : Z) (theContour : float)
  (param : Z) (contour : float) (it : XY) : bool :=
  let dist := distance (double_of_int (fst thePoint)) (double_of_int (snd thePoint))
                       (double_of_int (fst it)) (double_of_int (snd it)) in
  if negb (param =? theParam) then
    (dist <? itsMinDistanceToDifferentParameter l)%float
  else if negb (contour =? theContour)%float then
    (dist <? itsMinDistanceToDifferentValue l)%float
  else
    (dist <? itsMinDistanceToSameValue l)%float.

(** The place of a node of a table: the positions of its parameter in
    the table, of its contour in the map of the parameter and of the node in
    the list of the contour, all as the table is when [removeCandidates] is
    entered. *)
Definition place : Type := (nat * nat * nat)%type.

Definition same_place (a b : place) : bool :=
  ((fst (fst a) =? fst (fst b))%nat && (snd (fst a) =? snd (fst b))%nat
   && (snd a =? snd b)%nat)%bool.

(** [removeCandidates] takes the chosen point as [const XY & thePoint], and
    [chooseLabels] binds it to [*best], a node of the table that
    [removeCandidates] cleans up.  When the test erases that node, the tests
    that follow read a destroyed node, and the language does not say what
    they read.  [reads] says it: [stale q xy] is what reading [thePoint]
    gives while the candidate at the place [q] is tested, the node having
    held [xy]. *)
Definition reads : Type := place -> XY -> XY.

Section RemoveCandidates.
Variable l : state.
Variable stale : reads.
(** [thePoint] refers to the node at the place [node], which holds
    [thePoint] as long as it lives. *)
Variable node : place.
Variable thePoint : XY.
Variable theParam : Z.
Variable theContour : float.

(** The innermost loop, over the list of the contour at the position [c]
    of the parameter at the position [p]; [j] is the position of the
    iterator [it], and [alive] tells whether the node of [thePoint] lives. *)
Fixpoint erase_from_list (param : Z) (contour : float) (p c j : nat) (alive : bool)
  (coords : Coordinates) : Coordinates * bool :=
  match coords with
  | [] => ([], alive)
  | it :: rest =>
      let point := if alive then thePoint else stale (p, c, j) thePoint in
      if erase l point theParam theContour param contour it then
        erase_from_list param contour p c (S j)
          (alive && negb (same_place (p, c, j) node)) rest
      else
        let (rest', alive') := erase_from_list param contour p c (S j) alive rest in
        (it :: rest', alive')
  end.

(** The loop over the contours of the parameter at the position [p]. *)
Fixpoint erase_from_contours (param : Z) (p c : nat) (alive : bool)
  (contours : ContourCoordinates) : ContourCoordinates * bool :=
  match contours with
  | [] => ([], alive)
  | cit :: rest =>
      let (coords', alive') :=
        erase_from_list param (fst cit) p c 0 alive (snd cit) in
      let (rest', alive'') := erase_from_contours param p (S c) alive' rest in
      ((fst cit, coords') :: rest', alive'')
  end.

(** The loop over the parameters. *)
Fixpoint erase_from_parameters (p : nat) (alive : bool)
  (theCandidates : ParamCoordinates) : ParamCoordinates * bool :=
  match theCandidates with
  | [] => ([], alive)
  | pit :: rest =>
      let (contours', alive') :=
        erase_from_contours (fst pit) p 0 alive (snd pit) in
      let (rest', alive'') := erase_from_parameters (S p) alive' rest in
      ((fst pit, contours') :: rest', alive'')
  end.

End RemoveCandidates.

(** Remove candidates too close to the chosen point.  Only coordinates are
    erased: emptied containers stay where they are. *)
Definition removeCandidates (stale : reads) (l : state)
  (theCandidates : ParamCoordinates) (node : place) (thePoint : XY)
  (theParam : Z) (theContour : float) : ParamCoordinates :=
  fst (erase_from_parameters l stale node thePoint theParam theContour 0 true
         theCandidates).

Definition is_empty {A : Type} (c : list A) : bool :=
  match c with [] => true | _ => false end.

(** Remove any empty subcontainers from the candidates. *)
Definition removeEmpties (theCandidates : ParamCoordinates) : ParamCoordinates :=
  filter (fun pit : Z * ContourCoordinates => negb (is_empty (snd pit)))
    (map (fun pit : Z * ContourCoordinates =>
            (fst pit,
             filter (fun cit : float * Coordinates => negb (is_empty (snd cit)))
                    (snd pit)))
         theCandidates).

(** A stored coordinate with the parameter and the contour value it is
    stored under. *)
Definition entry : Type := (Z * float * XY)%type.

Definition contour_entries (param : Z) (contours : ContourCoordinates) : list entry :=
  flat_map (fun cit : float * Coordinates =>
              map (fun xy => (param, fst cit, xy)) (snd cit))
           contours.

(** All coordinates of a table, in the order of iteration. *)
Definition entries (m : ParamCoordinates) : list entry :=
  flat_map (fun pit : Z * ContourCoordinates => contour_entries (fst pit) (snd pit)) m.

(** The number of coordinates of a table. *)
Definition size (m : ParamCoordinates) : nat := length (entries m).

(** The [for] loop of [chooseLabels] over the contours of the first
    parameter of [candidates].  [removeCandidates] keeps every container in
    place, so the iterator [cit] is the position [i] in that parameter's map,
    and [n] bounds the positions still to visit.  [*best] is pushed to the
    choices by value and handed to [removeCandidates] by reference: the node
    at the position [best] of the list at the position [i] of the first
    parameter.  [stale n] gives the reads of the destroyed node in the call
    of [removeCandidates] that follows [n] choices. *)
Fixpoint contour_loop (stale : nat -> reads) (l : state) (n : nat) (i : nat)
  (candidates choices : ParamCoordinates)
  : outcome (ParamCoordinates * ParamCoordinates) :=
  match n with
  | O => Return (candidates, choices)
  | S n' =>
      match candidates with
      | [] => Return (candidates, choices)
      | (param, contours) :: _ =>
          match nth_error contours i with
          | None => Return (candidates, choices)
          | Some (value, coords) =>
              if is_empty coords then
                contour_loop stale l n' (S i) candidates choices
              else
                match chooseOne l coords param value with
                | None => Throw InternalError
                | Some best =>
                    contour_loop stale l n' (S i)
                      (removeCandidates (stale (size choices)) l candidates
                         (O, i, best) (deref coords best) param value)
                      (push_back choices param value (deref coords best))
                end
          end
      end
  end.

(** The [while] loop of [chooseLabels]; [fuel] bounds its iterations. *)
Fixpoint chooseLabels_loop (stale : nat -> reads) (l : state) (fuel : nat)
  (candidates choices : ParamCoordinates) : outcome ParamCoordinates :=
  match candidates with
  | [] => Return choices
  | (param, contours) :: _ =>
      match fuel with
      | O => OutOfFuel
      | S fuel' =>
          match contour_loop stale l (length contours) 0 candidates choices with
          | Return (candidates', choices') =>
              chooseLabels_loop stale l fuel' (removeEmpties candidates') choices'
          | Throw e => Throw e
          | OutOfFuel => OutOfFuel
          end
      end
  end.

(** Choose the final label locations: the table returned (by reference) is
    the new current table. *)
Definition chooseLabels (stale : nat -> reads) (fuel : nat) (l : state)
  : outcome (ParamCoordinates * state) :=
  match chooseLabels_loop stale l fuel (itsCurrentCoordinates l) [] with
  | Return choices =>
      Return (choices, set_coordinates l (itsPreviousCoordinates l) choices)
  | Throw e => Throw e
  | OutOfFuel => OutOfFuel
  end.

End LabelLocator.

Import LabelLocator.

(* ================================================================== *)
(** ** Reads of destroyed nodes *)

(** The reads of a destroyed node that find what the node held, as they
    do while the memory of the node is left alone. *)
Definition intact : nat -> reads := fun _ _ xy => xy.

Definition reads_intact (stale : nat -> reads) : Prop :=
  forall n q xy, stale n q xy = xy.

(** Reads of a destroyed node that find the memory of the node written
    over, with a point far from every candidate of the scenarios. *)
Definition scribbled : nat -> reads := fun _ _ _ => (30000, 30000).

(* ================================================================== *)
(** ** Clients *)

(** The public member functions, as calls.  [Call_chooseLabels] carries the
    fuel its loop is run with and what the reads of destroyed nodes give
    during the call. *)
Inductive call : Type :=
| Call_clear
| Call_boundingBox (theX1 theY1 theX2 theY2 : Z)
| Call_minDistanceToSameValue (theDistance : float)
| Call_minDistanceToDifferentValue (theDistance : float)
| Call_minDistanceToDifferentParameter (theDistance : float)
| Call_parameter (theParameter : Z)
| Call_nextTime
| Call_add (theContour : float) (theX theY : Z)
| Call_chooseLabels (stale : nat -> reads) (fuel : nat).

Definition exec (c : call) (l : state) : outcome state :=
  match c with
  | Call_clear => Return (clear l)
  | Call_boundingBox x1 y1 x2 y2 => boundingBox x1 y1 x2 y2 l
  | Call_minDistanceToSameValue d => minDistanceToSameValue d l
  | Call_minDistanceToDifferentValue d => minDistanceToDifferentValue d l
  | Call_minDistanceToDifferentParameter d => minDistanceToDifferentParameter d l
  | Call_parameter p => parameter p l
  | Call_nextTime => Return (nextTime l)
  | Call_add c x y => add c x y l
  | Call_chooseLabels stale fuel =>
      match chooseLabels stale fuel l with
      | Return (_, l') => Return l'
      | Throw e => Throw e
      | OutOfFuel => OutOfFuel
      end
  end.

(** Contour values are keys of a [std::map], which asks for a strict weak
    ordering of its keys: a NaN is not a contour value. *)
Definition well_formed (c : call) : bool :=
  match c with
  | Call_add theContour _ _ => negb (is_nan theContour)
  | _ => true
  end.

(** A sequence of calls, each of which returns. *)
Fixpoint run (cs : list call) (l : state) : outcome state :=
  match cs with
  | [] => Return l
  | c :: cs' =>
      match exec c l with
      | Return l' => run cs' l'
      | Throw e => Throw e
      | OutOfFuel => OutOfFuel
      end
  end.

(** The states of a locator: the default constructed one, and those that
    calls which return lead to.  (A call that throws leaves the object as it
    was, [chooseLabels] apart, whose exception is shown below never to be
    thrown.) *)
Inductive reachable : state -> Prop :=
| reachable_new : reachable LabelLocator
| reachable_call l c l' :
    reachable l -> well_formed c = true -> exec c l = Return l' -> reachable l'.

(* ================================================================== *)
(** ** Reading a table *)

(** The double the program computes for the distance of two points. *)
Definition point_distance (a b : XY) : float :=
  distance (double_of_int (fst a)) (double_of_int (snd a))
           (double_of_int (fst b)) (double_of_int (snd b)).

(** Two points are at least [d] apart when the test [dist < d] of the
    program fails on them. *)
Definition apart (a b : XY) (d : float) : Prop :=
  (point_distance a b <? d)%float = false.

(** The minimum distance in force between a point of [(p1, c1)] and a
    point of [(p2, c2)]. *)
Definition min_distance (l : state) (p1 : Z) (c1 : float) (p2 : Z) (c2 : float) : float :=
  if negb (p2 =? p1) then itsMinDistanceToDifferentParameter l
  else if negb (c2 =? c1)%float then itsMinDistanceToDifferentValue l
  else itsMinDistanceToSameValue l.

Definition too_close (l : state) (e1 e2 : entry) : bool :=
  (point_distance (snd e1) (snd e2)
   <? min_distance l (fst (fst e1)) (snd (fst e1)) (fst (fst e2)) (snd (fst e2)))%float.

(** No contour value of the table is a NaN. *)
Definition numeric_keys (m : ParamCoordinates) : Prop :=
  forall param contours contour coords,
    In (param, contours) m -> In (contour, coords) contours ->
    is_nan contour = false.

(** No container of the table is empty. *)
Definition no_empties (m : ParamCoordinates) : Prop :=
  forall pit, In pit m ->
    snd pit <> [] /\ forall cit, In cit (snd pit) -> snd cit <> [].

(** [xy] is stored somewhere in the table. *)
Definition stored (m : ParamCoordinates) (xy : XY) : Prop :=
  exists param contour, In (param, contour, xy) (entries m).

(* ================================================================== *)
(** ** Scenarios *)

(** Cascade removal: parameter 1, contour 1 with candidates (0,0) and
    (10,10), contour 2 with candidate (5,5); minimum distances 20 (same
    value) and 1 (different value); no bounding box, no previous timestep. *)
Definition cascade_calls : list call :=
  [ Call_minDistanceToSameValue 20%float;
    Call_minDistanceToDifferentValue 1%float;
    Call_parameter 1;
    Call_add 1%float 0 0;
    Call_add 1%float 10 10;
    Call_add 2%float 5 5 ].

Definition cascade : state :=
  Build false 0 0 0 0 20%float 1%float 50%float 1 []
        [(1, [(1%float, [(0, 0); (10, 10)]); (2%float, [(5, 5)])])].

(** Temporal bias: parameter 1, contour 5; the previous timestep chose
    (2,2); candidates (0,0) and (100,100); minimum distance 1 to the same
    value. *)
Definition temporal_calls : list call :=
  [ Call_minDistanceToSameValue 1%float;
    Call_parameter 1;
    Call_add 5%float 2 2;
    Call_chooseLabels intact 1;
    Call_nextTime;
    Call_add 5%float 0 0;
    Call_add 5%float 100 100 ].

Definition temporal : state :=
  Build false 0 0 0 0 1%float 50%float 50%float 1
        [(1, [(5%float, [(2, 2)])])]
        [(1, [(5%float, [(0, 0); (100, 100)])])].

(** One candidate and a minimum distance of 0 to the same value. *)
Definition zero_distance_calls : list call :=
  [ Call_minDistanceToSameValue 0%float;
    Call_parameter 1;
    Call_add 1%float 0 0 ].

Definition zero_distance : state :=
  Build false 0 0 0 0 0%float 50%float 50%float 1 []
        [(1, [(1%float, [(0, 0)])])].

(** The default distances: two candidates of one contour, 60 apart, and no
    call of a setter. *)
Definition default_calls : list call :=
  [ Call_parameter 1;
    Call_add 1%float 0 0;
    Call_add 1%float 60 0 ].

Definition default_pair : state :=
  Build false 0 0 0 0 100%float 50%float 50%float 1 []
        [(1, [(1%float, [(0, 0); (60, 0)])])].

(** A bounding box, a clear, and a point outside the box. *)
Definition boxed : state :=
  Build true 0 0 10 10 100%float 50%float 50%float 0 [] [].

(** Keeping, in every list of a table, the coordinates that pass a test
    on their parameter, contour value and position; the containers stay. *)
Definition prune (keep : Z -> float -> XY -> bool) (m : ParamCoordinates)
  : ParamCoordinates :=
  map (fun pit : Z * ContourCoordinates =>
         (fst pit,
          map (fun cit : float * Coordinates =>
                 (fst cit, filter (keep (fst pit) (fst cit)) (snd cit)))
              (snd pit)))
      m.

(** What the loops of [chooseLabels] maintain: contour values are numbers,
    no two chosen coordinates are too close, and no remaining candidate is
    too close to a chosen coordinate. *)
Definition separated (l : state) (candidates choices : ParamCoordinates) : Prop :=
  numeric_keys candidates /\
  numeric_keys choices /\
  ForallOrdPairs (fun a b => too_close l a b = false) (entries choices) /\
  (forall e c, In e (entries choices) -> In c (entries candidates) ->
               too_close l e c = false).

(** One choice of [chooseLabels]: the candidate at the position [best] of
    the contour at the position [i] of the first parameter is appended to
    the choices and the candidates are cleaned up around it.
    [chooses stale l P] says that [P] is maintained by every choice. *)
Definition chooses (stale : nat -> reads) (l : state)
  (P : ParamCoordinates -> ParamCoordinates -> Prop) : Prop :=
  forall param contours rest choices i value coords best,
    P ((param, contours) :: rest) choices ->
    nth_error contours i = Some (value, coords) ->
    (best < length coords)%nat ->
    P (removeCandidates (stale (size choices)) l ((param, contours) :: rest)
         (O, i, best) (deref coords best) param value)
      (push_back choices param value (deref coords best)).

(** The coordinate at a place of a table, with its parameter and contour
    value. *)
Definition at_place (m : ParamCoordinates) (q : place) : option entry :=
  match nth_error m (fst (fst q)) with
  | Some (param, contours) =>
      match nth_error contours (snd (fst q)) with
      | Some (contour, coords) =>
          match nth_error coords (snd q) with
          | Some xy => Some (param, contour, xy)
          | None => None
          end
      | None => None
      end
  | None => None
  end.

(** The table that [removeCandidates] would leave if it had the chosen
    point by value. *)
Definition removed_by_value (l : state) (m : ParamCoordinates) (thePoint : XY)
  (theParam : Z) (theContour : float) : ParamCoordinates :=
  prune (fun param contour it =>
           negb (erase l thePoint theParam theContour param contour it)) m.

(** The contour values of a reachable table are numbers, and none of its
    containers is empty. *)
Definition well_kept (m : ParamCoordinates) : Prop :=
  numeric_keys m /\ no_empties m.

(** Inside the half-open box of [l]. *)
Definition in_box (l : state) (xy : XY) : Prop :=
  itsBBoxX1 l <= fst xy < itsBBoxX2 l /\ itsBBoxY1 l <= snd xy < itsBBoxY2 l.

(** Every stored coordinate is inside the bounding box, if there is one. *)
Definition contained (l : state) : Prop :=
  itHasBBox l = true ->
  forall xy,
    stored (itsCurrentCoordinates l) xy \/ stored (itsPreviousCoordinates l) xy ->
    in_box l xy.

(** The calls that leave the minimum distances alone. *)
Definition keeps_distances (c : call) : bool :=
  match c with
  | Call_minDistanceToSameValue _
  | Call_minDistanceToDifferentValue _
  | Call_minDistanceToDifferentParameter _ => false
  | _ => true
  end.

(** The object after a call: as the call leaves it when it returns, as it
    was when the call throws (every member function throws before it assigns
    anything, and [chooseLabels] never throws).  A [chooseLabels] that does
    not end has no after, and counts as not made. *)
Definition after_call (l : state) (c : call) : state :=
  match exec c l with
  | Return l' => l'
  | _ => l
  end.

(** The object after a sequence of calls. *)
Definition after_calls (l : state) (cs : list call) : state :=
  fold_left after_call cs l.

(** The calls other than [parameter]. *)
Definition not_parameter (c : call) : bool :=
  match c with
  | Call_parameter _ => false
  | _ => true
  end.

(** Border bias: the box (0,0,100,100), no previous timestep, and the
    candidates (50,50) and (1,1) of parameter 1 and contour 1. *)
Definition border_calls : list call :=
  [ Call_boundingBox 0 0 100 100;
    Call_parameter 1;
    Call_add 1%float 50 50;
    Call_add 1%float 1 1 ].

Definition border : state :=
  Build true 0 0 100 100 100%float 50%float 50%float 1 []
        [(1, [(1%float, [(50, 50); (1, 1)])])].

(** The configuration: the bounding box and the three minimum distances. *)
Definition configuration (l : state)
  : bool * (Z * Z * Z * Z) * (float * float * float) :=
  (itHasBBox l,
   (itsBBoxX1 l, itsBBoxY1 l, itsBBoxX2 l, itsBBoxY2 l),
   (itsMinDistanceToSameValue l, itsMinDistanceToDifferentValue l,
    itsMinDistanceToDifferentParameter l)).

(** Some coordinate is stored, in the current or in the previous table. *)
Definition has_coordinates (l : state) : Prop :=
  exists xy,
    stored (itsCurrentCoordinates l) xy \/ stored (itsPreviousCoordinates l) xy.

(** Some candidate is too close to no candidate, itself included: no
    choice will ever remove it. *)
Definition has_survivor (l : state) (candidates : ParamCoordinates) : Prop :=
  exists e, In e (entries candidates) /\
            forall e', In e' (entries candidates) -> too_close l e e' = false.

(* ================================================================== *)
(** ** The order of the doubles *)

(** A double that is not a NaN, on the specification side. *)
Definition SFnumber (x : spec_float) : bool :=
  match x with S754_nan => false | _ => true end.

(** A number that is not below zero: a zero, a positive finite double or
    the positive infinity. *)
Definition SFnonneg (x : spec_float) : bool :=
  match x with
  | S754_zero _ | S754_infinity false | S754_finite false _ _ => true
  | _ => false
  end.

(** The place of a number in the order that [<] tests: the sign class,
    then the exponent, then the mantissa (both counted downwards for the
    negative doubles).  The two zeros have the same place. *)
Definition SFkey (x : spec_float) : Z * Z * Z :=
  match x with
  | S754_zero _ => (0, 0, 0)
  | S754_infinity s => (if s then -2 else 2, 0, 0)
  | S754_nan => (0, 0, 0)
  | S754_finite s m e => if s then (-1, - e, Zneg m) else (1, e, Zpos m)
  end.

Definition float_key (x : float) : Z * Z * Z := SFkey (Prim2SF x).

(** The lexicographic order of the places. *)
Definition key_lt (a b : Z * Z * Z) : Prop :=
  fst (fst a) < fst (fst b) \/
  (fst (fst a) = fst (fst b) /\
   (snd (fst a) < snd (fst b) \/ (snd (fst a) = snd (fst b) /\ snd a < snd b))).

(** [b], at the position [k], is the first of the candidates [c] with the
    least score: the candidates before it have a greater score, and no
    candidate after it has a smaller one. *)
Definition first_least (score : XY -> float) (c : Coordinates) (k : nat) (b : XY)
  : Prop :=
  exists before after,
    c = before ++ b :: after /\
    length before = k /\
    (forall x, In x before -> (score b <? score x)%float = true) /\
    (forall x, In x after -> (score x <? score b)%float = false).

(** The keys of a map are in strictly increasing order. *)
Definition sorted_keys {K V : Type} (less : K -> K -> bool) (m : list (K * V)) : Prop :=
  StronglySorted (fun a b => less (fst a) (fst b) = true) m.

(** Both levels of a table are in the order of their keys. *)
Definition sorted_table (m : ParamCoordinates) : Prop :=
  sorted_keys Z.ltb m /\
  Forall (fun pit : Z * ContourCoordinates => sorted_keys PrimFloat.ltb (snd pit)) m.

(** What holds of both tables of a locator that calls lead to. *)
Definition well_stored (m : ParamCoordinates) : Prop :=
  numeric_keys m /\ no_empties m /\ sorted_table m.

(** An [int] far from the ends of the range, so that the difference of two
    of them does not overflow. *)
Definition small (v : Z) : Prop := - 2 ^ 30 <= v < 2 ^ 30.

(** Every candidate of [start] is still a candidate or is too close to a
    chosen coordinate. *)
Definition accounted (l : state) (start candidates choices : ParamCoordinates) : Prop :=
  forall c, In c (entries start) ->
    In c (entries candidates) \/
    exists e, In e (entries choices) /\ too_close l e c = true.

(** The chosen coordinates are candidates of [start], each stored under
    the parameter and (up to [==]) the contour value it was a candidate
    of. *)
Definition chosen_from (start choices : ParamCoordinates) : Prop :=
  forall g s xy, In (g, s, xy) (entries choices) ->
    exists s', In (g, s', xy) (entries start) /\ (s =? s')%float = true.

(** The score of a candidate in [chooseClosestToPrevious]: its distance to
    the nearest of the previous choices. *)
Definition previous_distance (thePreviousChoises : Coordinates) (it : XY) : float :=
  mindistance (double_of_int (fst it)) (double_of_int (snd it)) thePreviousChoises.

(** The distance in pixels from a point to the nearest side of the box. *)
Definition border_pixels (l : state) (it : XY) : Z :=
  Z.min (Z.min (Z.abs (fst it - itsBBoxX1 l)) (Z.abs (fst it - itsBBoxX2 l)))
        (Z.min (Z.abs (snd it - itsBBoxY1 l)) (Z.abs (snd it - itsBBoxY2 l))).

(** The box and the point are far from the ends of the range of [int]. *)
Definition small_box (l : state) : Prop :=
  small (itsBBoxX1 l) /\ small (itsBBoxY1 l) /\
  small (itsBBoxX2 l) /\ small (itsBBoxY2 l).

Definition small_point (it : XY) : Prop := small (fst it) /\ small (snd it).

(** A score that is a number and is not negative, as distances are. *)
Definition fair (score : XY -> float) (x : XY) : Prop :=
  is_nan (score x) = false /\ (score x <? 0)%float = false.

(** The coordinates stored under a parameter and a contour value, as
    [find] on both levels of the table gives them; none when a key is not
    found. *)
Definition lookup (m : ParamCoordinates) (theParam : Z) (theContour : float)
  : Coordinates :=
  match StdMap.find Z.ltb theParam m with
  | Some contours =>
      match StdMap.find PrimFloat.ltb theContour contours with
      | Some coords => coords
      | None => []
      end
  | None => []
  end.

(** The containers of a table: its parameters, each with its contour
    values, in the order of iteration. *)
Definition containers (m : ParamCoordinates) : list (Z * list float) :=
  map (fun pit : Z * ContourCoordinates => (fst pit, map fst (snd pit))) m.

(* ================================================================== *)
(** * Machine numbers: facts *)

Module CIntFacts.

Lemma wrap_range z : - 2 ^ 31 <= CInt.wrap z < 2 ^ 31.
Proof.
  unfold CInt.wrap. pose proof (Z.mod_pos_bound (z + 2 ^ 31) (2 ^ 32)). lia.
Qed.

(** An [int] is its own value. *)
Lemma wrap_int z : - 2 ^ 31 <= z < 2 ^ 31 -> CInt.wrap z = z.
Proof. intros H. unfold CInt.wrap. rewrite Z.mod_small; lia. Qed.

End CIntFacts.

Module DoubleFacts.

Lemma digits2_pos_size p : digits2_pos p = Pos.size p.
Proof. induction p; simpl; congruence. Qed.

Lemma digits2_pos_iter_xO p k :
  Zpos (digits2_pos (Pos.iter xO p k)) = Zpos (digits2_pos p) + Zpos k.
Proof.
  induction k using Pos.peano_ind.
  - simpl. lia.
  - rewrite Pos.iter_succ. simpl. lia.
Qed.

Lemma digits2_pos_bound p n :
  0 <= n -> Zpos p < 2 ^ n -> Zpos (digits2_pos p) <= n.
Proof.
  intros Hn H. rewrite digits2_pos_size.
  destruct (Z_le_gt_dec (Zpos (Pos.size p)) n) as [|Hgt]; trivial.
  exfalso.
  pose proof (Pos.size_le p) as Hle.
  assert (2 ^ Zpos (Pos.size p) <= 2 * Zpos p).
  { rewrite <- Pos2Z.inj_pow. change (2 * Zpos p) with (Zpos p~0). lia. }
  assert (2 ^ (n + 1) <= 2 ^ Zpos (Pos.size p)) by (apply Z.pow_le_mono_r; lia).
  rewrite Z.pow_add_r in * by lia. lia.
Qed.

Lemma fexp_53 e : SpecFloat.emin prec emax <= e -> fexp prec emax (53 + e) = e.
Proof. unfold fexp, prec. lia. Qed.

(** A mantissa of 53 bits with an exponent in range is its own rounding. *)
Lemma binary_round_aux_exact s m e :
  Zpos (digits2_pos m) = 53 ->
  SpecFloat.emin prec emax <= e <= emax - prec ->
  binary_round_aux prec emax s (Zpos m) e loc_Exact = S754_finite s m e.
Proof.
  intros Hm [He1 He2].
  unfold binary_round_aux, shr_fexp. simpl Zdigits2.
  rewrite Hm, (fexp_53 e He1), Z.sub_diag.
  cbn [shr shr_record_of_loc shr_m loc_of_shr_record round_nearest_even Zdigits2].
  rewrite Hm, (fexp_53 e He1), Z.sub_diag.
  cbn [shr shr_m].
  apply Z.leb_le in He2. rewrite He2. reflexivity.
Qed.

Lemma bounded_53 m e :
  Zpos (digits2_pos m) = 53 ->
  SpecFloat.emin prec emax <= e <= emax - prec ->
  bounded prec emax m e = true.
Proof.
  intros Hm [He1 He2]. unfold bounded, canonical_mantissa.
  rewrite Hm, (fexp_53 e He1), Z.eqb_refl. apply Z.leb_le in He2. now rewrite He2.
Qed.

(** Rounding an integer of at most 53 bits gives a finite double. *)
Lemma binary_round_small s p :
  Zpos (digits2_pos p) <= 53 ->
  exists m e, binary_round prec emax s p 0 = S754_finite s m e
              /\ bounded prec emax m e = true.
Proof.
  intros Hd. unfold binary_round, shl_align.
  remember (Zpos (digits2_pos p)) as d eqn:Ed.
  assert (Hd1 : 1 <= d) by lia.
  assert (Hf : fexp prec emax (d + 0) = d - 53).
  { unfold fexp, SpecFloat.emin, prec, emax. lia. }
  rewrite Hf.
  destruct (d - 53 - 0) eqn:E; try lia.
  - assert (Hp : Zpos (digits2_pos p) = 53) by lia.
    exists p, 0. split.
    + apply binary_round_aux_exact; trivial. unfold SpecFloat.emin, emax, prec. lia.
    + apply bounded_53; trivial. unfold SpecFloat.emin, emax, prec. lia.
  - assert (Hq : Zpos (digits2_pos (Pos.iter xO p p0)) = 53).
    { rewrite digits2_pos_iter_xO. lia. }
    exists (Pos.iter xO p p0), (d - 53). split.
    + apply binary_round_aux_exact; trivial. unfold SpecFloat.emin, emax, prec. lia.
    + apply bounded_53; trivial. unfold SpecFloat.emin, emax, prec. lia.
Qed.

Lemma binary_normalize_int z :
  - 2 ^ 53 < z < 2 ^ 53 ->
  SFfinite (binary_normalize prec emax z 0 false) = true
  /\ valid_binary (binary_normalize prec emax z 0 false) = true.
Proof.
  intros Hz. destruct z as [|p|p]; simpl; auto.
  - destruct (binary_round_small false p) as (m & e & -> & Hb); auto.
    apply digits2_pos_bound; lia.
  - destruct (binary_round_small true p) as (m & e & -> & Hb); auto.
    apply digits2_pos_bound; lia.
Qed.

(** The double of an [int] is finite. *)
Lemma double_of_int_finite z : SFfinite (Prim2SF (double_of_int z)) = true.
Proof.
  unfold double_of_int.
  pose proof (CIntFacts.wrap_range z) as Hr.
  destruct (binary_normalize_int (CInt.wrap z)) as [Hf Hv]; [lia|].
  rewrite Prim2SF_SF2Prim; trivial.
Qed.

(** [x - x] is [+0] for every finite [x]. *)
Lemma SFsub_diag x : SFfinite x = true -> SF64sub x x = S754_zero false.
Proof.
  destruct x as [[|]|[|]| |s m e]; simpl; try discriminate; trivial.
  intros _. rewrite Z.sub_diag. reflexivity.
Qed.

Lemma sub_diag x : SFfinite (Prim2SF x) = true -> (x - x)%float = 0%float.
Proof.
  intros H. apply Prim2SF_inj. rewrite sub_spec, SFsub_diag; trivial.
Qed.

Lemma binary_round_aux_opp s m e l :
  binary_round_aux prec emax (negb s) m e l
  = SFopp (binary_round_aux prec emax s m e l).
Proof.
  unfold binary_round_aux.
  destruct (shr_fexp prec emax m e l) as [mrs' e'].
  destruct (shr_fexp prec emax _ e' loc_Exact) as [mrs'' e''].
  destruct (shr_m mrs''); trivial.
  destruct (e'' <=? emax - prec); trivial.
Qed.

Lemma binary_normalize_opp m e :
  m <> 0 ->
  binary_normalize prec emax (- m) e false
  = SFopp (binary_normalize prec emax m e false).
Proof.
  destruct m as [|p|p]; intros Hm; try congruence; simpl; unfold binary_round;
    destruct (shl_align _ _ _) as [mz ez].
  - apply (binary_round_aux_opp false).
  - rewrite (binary_round_aux_opp false).
    destruct (binary_round_aux _ _ _ _ _ _) as [[|]|[|]| |[|] ? ?]; trivial.
Qed.

(** Squaring forgets the sign. *)
Lemma SFmul_opp_opp x : SF64mul (SFopp x) (SFopp x) = SF64mul x x.
Proof. destruct x as [[|]|[|]| |[|] m e]; reflexivity. Qed.

(** Swapping the operands of a subtraction negates the result, unless both
    differences are [+0]. *)
Lemma SFsub_swap x y :
  SF64sub y x = SFopp (SF64sub x y) \/
  (SF64sub y x = S754_zero false /\ SF64sub x y = S754_zero false).
Proof.
  destruct x as [[|]|[|]| |sx mx ex], y as [[|]|[|]| |sy my ey];
    simpl; auto; try (left; now rewrite ?negb_involutive).
  rewrite (Z.min_comm ey ex).
  set (a := cond_Zopp sx _). set (b := cond_Zopp sy _).
  destruct (Z.eq_dec (a - b) 0) as [E|E].
  - right. replace (b - a) with 0 by lia. rewrite E. auto.
  - left. replace (b - a) with (- (a - b)) by lia. now apply binary_normalize_opp.
Qed.

Lemma sub_square_swap (x y : float) :
  ((y - x) * (y - x) = (x - y) * (x - y))%float.
Proof.
  apply Prim2SF_inj. rewrite !mul_spec, !sub_spec.
  destruct (SFsub_swap (Prim2SF x) (Prim2SF y)) as [-> | [-> ->]]; trivial.
  apply SFmul_opp_opp.
Qed.

(** *** Comparisons *)

Lemma SFcompare_swap x y :
  SFcompare y x = option_map CompOpp (SFcompare x y).
Proof.
  destruct x as [[|]|[|]| |[|] mx ex], y as [[|]|[|]| |[|] my ey]; simpl; trivial;
    rewrite (Z.compare_antisym ex ey); destruct (ex ?= ey); simpl; trivial;
    rewrite !Pos.compare_cont_spec, (Pos.compare_antisym mx my); simpl;
    destruct (mx ?= my)%positive; reflexivity.
Qed.

Lemma SFcompare_refl x : x <> S754_nan -> SFcompare x x = Some Eq.
Proof.
  destruct x as [[|]|[|]| |[|] m e]; simpl; try congruence; intros _;
    rewrite Z.compare_refl, Pos.compare_cont_spec, Pos.compare_refl; reflexivity.
Qed.

Lemma SFcompare_Eq_l x y z :
  SFcompare x y = Some Eq -> SFcompare x z = SFcompare y z.
Proof.
  destruct x as [[|]|[|]| |[|] mx ex], y as [[|]|[|]| |[|] my ey];
    simpl; try discriminate; trivial;
    destruct (ex ?= ey) eqn:E; try discriminate;
    rewrite Pos.compare_cont_spec; simpl;
    destruct (mx ?= my)%positive eqn:E'; try discriminate; intros _;
    apply Z.compare_eq in E; apply Pos.compare_eq in E'; subst; reflexivity.
Qed.

Lemma SFcompare_None x y :
  SFcompare x y = None -> x = S754_nan \/ y = S754_nan.
Proof.
  destruct x as [[|]|[|]| |[|] mx ex], y as [[|]|[|]| |[|] my ey];
    simpl; auto; discriminate.
Qed.

Lemma Prim2SF_nan x : Prim2SF x = S754_nan -> is_nan x = true.
Proof.
  intros H. apply (f_equal SF2Prim) in H. rewrite SF2Prim_Prim2SF in H.
  subst. reflexivity.
Qed.

Lemma eqb_sym x y : (x =? y)%float = (y =? x)%float.
Proof.
  rewrite !eqb_spec. unfold SFeqb. rewrite (SFcompare_swap (Prim2SF y)).
  destruct (SFcompare (Prim2SF y) (Prim2SF x)) as [[| |]|]; reflexivity.
Qed.

(** A number is [==] to itself. *)
Lemma eqb_refl x : is_nan x = false -> (x =? x)%float = true.
Proof.
  intros Hx. rewrite eqb_spec. unfold SFeqb. rewrite SFcompare_refl; trivial.
  intros E. apply Prim2SF_nan in E. congruence.
Qed.

(** Two numbers neither of which is below the other are [==]. *)
Lemma not_ltb_eqb x y :
  is_nan x = false -> is_nan y = false ->
  (x <? y)%float = false -> (y <? x)%float = false -> (x =? y)%float = true.
Proof.
  intros Hx Hy. rewrite !ltb_spec, eqb_spec. unfold SFltb, SFeqb.
  rewrite (SFcompare_swap (Prim2SF x) (Prim2SF y)).
  destruct (SFcompare (Prim2SF x) (Prim2SF y)) as [[| |]|] eqn:E;
    simpl; try discriminate; trivial.
  intros _ _. apply SFcompare_None in E.
  destruct E as [E|E]; apply Prim2SF_nan in E; congruence.
Qed.

(** [==] numbers compare alike with every other double. *)
Lemma eqb_congr x y z : (x =? y)%float = true -> (x =? z)%float = (y =? z)%float.
Proof.
  rewrite !eqb_spec. unfold SFeqb.
  destruct (SFcompare (Prim2SF x) (Prim2SF y)) as [[| |]|] eqn:E; try discriminate.
  intros _. now rewrite (SFcompare_Eq_l _ _ _ E).
Qed.

End DoubleFacts.

(** The distance of a point from itself is [+0]. *)
Lemma distance_diag x y :
  SFfinite (Prim2SF x) = true -> SFfinite (Prim2SF y) = true ->
  distance x y x y = 0%float.
Proof.
  intros Hx Hy. unfold distance.
  rewrite (DoubleFacts.sub_diag x Hx), (DoubleFacts.sub_diag y Hy). reflexivity.
Qed.

(** The computed distance does not depend on the order of the points. *)
Lemma distance_sym x1 y1 x2 y2 : distance x1 y1 x2 y2 = distance x2 y2 x1 y1.
Proof.
  unfold distance.
  now rewrite (DoubleFacts.sub_square_swap x1 x2), (DoubleFacts.sub_square_swap y1 y2).
Qed.

Lemma point_distance_diag a : point_distance a a = 0%float.
Proof.
  unfold point_distance. apply distance_diag; apply DoubleFacts.double_of_int_finite.
Qed.

Lemma point_distance_sym a b : point_distance a b = point_distance b a.
Proof. unfold point_distance. apply distance_sym. Qed.

(* ================================================================== *)
(** * Ordered maps: facts *)

Module StdMapFacts.
Section Ordered.
Context {K V : Type}.
Variable less : K -> K -> bool.

(** [update] changes one entry in place, or inserts one; a key it takes
    for [k] is equivalent to [k] in the ordering. *)
Lemma update_split (k : K) (dflt : V) (f : V -> V) (m : list (K * V)) :
  exists m1 m2 k' v,
    StdMap.update less k dflt f m = m1 ++ (k', f v) :: m2 /\
    ((m = m1 ++ m2 /\ k' = k /\ v = dflt) \/
     (m = m1 ++ (k', v) :: m2 /\ less k' k = false /\ less k k' = false)).
Proof.
  induction m as [|[k0 v0] m IH]; simpl.
  - exists [], [], k, dflt. auto.
  - destruct (less k0 k) eqn:E1.
    + destruct IH as (m1 & m2 & k' & v & Hu & H).
      exists ((k0, v0) :: m1), m2, k', v. simpl. rewrite Hu. split; trivial.
      destruct H as [(-> & ? & ?) | (-> & ? & ?)]; auto.
    + destruct (less k k0) eqn:E2.
      * exists [], ((k0, v0) :: m), k, dflt. auto.
      * exists [], m, k0, v0. auto.
Qed.

(** A key that is found is equivalent to the key looked for. *)
Lemma find_Some (k : K) (m : list (K * V)) (v : V) :
  StdMap.find less k m = Some v ->
  exists k', In (k', v) m /\ less k' k = false /\ less k k' = false.
Proof.
  induction m as [|[k0 v0] m IH]; simpl; try discriminate.
  destruct (less k0 k) eqn:E1.
  - intros H. destruct (IH H) as (k' & ? & ?). exists k'. auto.
  - destruct (less k k0) eqn:E2; try discriminate.
    intros [= ->]. exists k0. auto.
Qed.

End Ordered.
End StdMapFacts.

(* ================================================================== *)
(** * Tables: facts *)

Lemma entries_app m1 m2 : entries (m1 ++ m2) = entries m1 ++ entries m2.
Proof. unfold entries. apply flat_map_app. Qed.

Lemma contour_entries_app g c1 c2 :
  contour_entries g (c1 ++ c2) = contour_entries g c1 ++ contour_entries g c2.
Proof. unfold contour_entries. apply flat_map_app. Qed.

Lemma entries_cons g cc m : entries ((g, cc) :: m) = contour_entries g cc ++ entries m.
Proof. reflexivity. Qed.

Lemma contour_entries_cons g s c cc :
  contour_entries g ((s, c) :: cc)
  = map (fun xy => (g, s, xy)) c ++ contour_entries g cc.
Proof. reflexivity. Qed.

Lemma In_contour_entries g cc e :
  In e (contour_entries g cc) <->
  exists s c xy, e = (g, s, xy) /\ In (s, c) cc /\ In xy c.
Proof.
  unfold contour_entries. rewrite in_flat_map. split.
  - intros ([s c] & Hc & H). apply in_map_iff in H. destruct H as (xy & <- & Hxy).
    exists s, c, xy. auto.
  - intros (s & c & xy & -> & Hc & Hxy). exists (s, c). split; trivial.
    apply in_map_iff. exists xy. auto.
Qed.

Lemma In_entries m e :
  In e (entries m) <->
  exists g cc s c xy, e = (g, s, xy) /\ In (g, cc) m /\ In (s, c) cc /\ In xy c.
Proof.
  unfold entries. rewrite in_flat_map. split.
  - intros ([g cc] & Hg & H). apply In_contour_entries in H.
    destruct H as (s & c & xy & -> & Hc & Hxy). exists g, cc, s, c, xy. auto.
  - intros (g & cc & s & c & xy & -> & Hg & Hc & Hxy). exists (g, cc). split; trivial.
    apply In_contour_entries. exists s, c, xy. auto.
Qed.

Lemma numeric_keys_nil : numeric_keys [].
Proof. intros g cc s c []. Qed.

Lemma numeric_keys_entries m g s xy :
  numeric_keys m -> In (g, s, xy) (entries m) -> is_nan s = false.
Proof.
  intros H He. apply In_entries in He.
  destruct He as (g' & cc & s' & c & xy' & [= -> -> ->] & Hg & Hc & _). eauto.
Qed.

(** *** Pruning *)

Lemma contour_entries_prune k g cc :
  contour_entries g
    (map (fun cit : float * Coordinates => (fst cit, filter (k g (fst cit)) (snd cit))) cc)
  = filter (fun e : entry => k (fst (fst e)) (snd (fst e)) (snd e)) (contour_entries g cc).
Proof.
  induction cc as [|[s c] cc IH]; trivial.
  simpl map. rewrite !contour_entries_cons, filter_app, IH. f_equal.
  clear IH. induction c as [|xy c IH]; simpl; trivial.
  destruct (k g s xy); simpl; congruence.
Qed.

(** The coordinates of a pruned table are the coordinates that pass. *)
Lemma entries_prune k m :
  entries (prune k m)
  = filter (fun e : entry => k (fst (fst e)) (snd (fst e)) (snd e)) (entries m).
Proof.
  induction m as [|[g cc] m IH]; trivial.
  unfold prune in *. simpl map. rewrite !entries_cons, filter_app, IH. f_equal.
  apply contour_entries_prune.
Qed.

(** *** Removing the empty containers *)

Lemma contour_entries_nonempty g cc :
  contour_entries g (filter (fun cit : float * Coordinates => negb (is_empty (snd cit))) cc)
  = contour_entries g cc.
Proof.
  induction cc as [|[s [|xy c]] cc IH]; trivial.
  simpl filter. now rewrite !contour_entries_cons, IH.
Qed.

Lemma removeEmpties_cons g cc m :
  removeEmpties ((g, cc) :: m)
  = let cc' := filter (fun cit : float * Coordinates => negb (is_empty (snd cit))) cc in
    if is_empty cc' then removeEmpties m else (g, cc') :: removeEmpties m.
Proof.
  unfold removeEmpties. cbn [map filter fst snd].
  destruct (filter _ cc); reflexivity.
Qed.

Lemma entries_removeEmpties m : entries (removeEmpties m) = entries m.
Proof.
  induction m as [|[g cc] m IH]; trivial.
  rewrite removeEmpties_cons, entries_cons, <- (contour_entries_nonempty g cc).
  cbv zeta. destruct (filter _ cc) as [|cit cc'] eqn:E; cbn [is_empty].
  - now rewrite IH.
  - now rewrite entries_cons, IH.
Qed.

Lemma size_removeEmpties m : size (removeEmpties m) = size m.
Proof. unfold size. now rewrite entries_removeEmpties. Qed.

Lemma numeric_keys_removeEmpties m : numeric_keys m -> numeric_keys (removeEmpties m).
Proof.
  intros H g cc s c Hg Hc. unfold removeEmpties in Hg.
  apply filter_In in Hg. destruct Hg as [Hg _].
  apply in_map_iff in Hg. destruct Hg as ([g' cc'] & [= <- <-] & Hg).
  apply filter_In in Hc. destruct Hc as [Hc _]. eauto.
Qed.

Lemma no_empties_removeEmpties m : no_empties (removeEmpties m).
Proof.
  intros [g cc] H. unfold removeEmpties in H.
  apply filter_In in H. destruct H as [H Hne]. simpl in *.
  split.
  - destruct cc; [discriminate | congruence].
  - apply in_map_iff in H. destruct H as ([g' cc'] & [= <- <-] & _).
    intros [s c] Hc. apply filter_In in Hc. simpl in *.
    destruct c; [now destruct Hc | congruence].
Qed.

(** *** Appending a coordinate *)

(** [push_back] appends [xy] to one list, which it finds or creates. *)
Lemma push_back_split m g s xy :
  exists m1 m2 c1 c2 s' v,
    push_back m g s xy = m1 ++ (g, c1 ++ (s', v ++ [xy]) :: c2) :: m2 /\
    ((m = m1 ++ m2 /\ c1 = [] /\ c2 = [] /\ v = [] /\ s' = s) \/
     (m = m1 ++ (g, c1 ++ c2) :: m2 /\ v = [] /\ s' = s) \/
     (m = m1 ++ (g, c1 ++ (s', v) :: c2) :: m2 /\
      (s' <? s)%float = false /\ (s <? s')%float = false)).
Proof.
  unfold push_back.
  destruct (StdMapFacts.update_split Z.ltb g []
              (StdMap.update PrimFloat.ltb s [] (fun c : Coordinates => c ++ [xy])) m)
    as (m1 & m2 & g' & cc & -> & H).
  destruct (StdMapFacts.update_split PrimFloat.ltb s [] (fun c : Coordinates => c ++ [xy]) cc)
    as (c1 & c2 & s' & v & -> & H').
  assert (g' = g) as ->.
  { destruct H as [(_ & ? & _) | (_ & H1 & H2)]; trivial.
    apply Z.ltb_ge in H1, H2. lia. }
  exists m1, m2, c1, c2, s', v. split; trivial.
  destruct H as [(-> & _ & ->) | (-> & _ & _)].
  - left. destruct H' as [(H' & -> & ->) | (H' & _)].
    + symmetry in H'. apply app_eq_nil in H'. tauto.
    + destruct c1; discriminate.
  - right. destruct H' as [(-> & -> & ->) | (-> & ? & ?)]; auto.
Qed.

Lemma Permutation_push {A} (a b c d e : list A) (x : A) :
  Permutation (a ++ (b ++ (c ++ [x]) ++ d) ++ e) (x :: a ++ (b ++ c ++ d) ++ e).
Proof.
  symmetry.
  replace (a ++ (b ++ (c ++ [x]) ++ d) ++ e) with ((a ++ b ++ c) ++ x :: (d ++ e))
    by (rewrite <- !app_assoc; reflexivity).
  replace (a ++ (b ++ c ++ d) ++ e) with ((a ++ b ++ c) ++ (d ++ e))
    by (now rewrite <- !app_assoc).
  apply Permutation_middle.
Qed.

(** Up to the order, the coordinates after [push_back] are the new one and
    the old ones; the new one is stored under [g] and a contour value [s']
    that is [s] or an old key equivalent to [s]. *)
Lemma entries_push_back m g s xy :
  exists s',
    Permutation (entries (push_back m g s xy)) ((g, s', xy) :: entries m) /\
    (s' = s \/
     ((s' <? s)%float = false /\ (s <? s')%float = false /\
      exists cc c, In (g, cc) m /\ In (s', c) cc)).
Proof.
  destruct (push_back_split m g s xy) as (m1 & m2 & c1 & c2 & s' & v & -> & H).
  exists s'. split.
  - assert (E : entries m
                = entries m1
                  ++ (contour_entries g c1 ++ map (fun p => (g, s', p)) v
                      ++ contour_entries g c2)
                  ++ entries m2).
    { destruct H as [(-> & -> & -> & -> & _) | [(-> & -> & _) | (-> & _)]];
        rewrite entries_app, ?entries_cons, ?contour_entries_app, ?contour_entries_cons;
        simpl; rewrite ?app_nil_r; trivial. }
    rewrite E, entries_app, entries_cons, contour_entries_app, contour_entries_cons, map_app.
    apply Permutation_push.
  - destruct H as [(_ & _ & _ & _ & ->) | [(_ & _ & ->) | (-> & ? & ?)]]; auto.
    right. repeat split; trivial.
    exists (c1 ++ (s', v) :: c2), v. split; apply in_elt.
Qed.

(** Where the containers of the table come from after [push_back]. *)
Lemma push_back_outer m g s xy g0 cc0 :
  In (g0, cc0) (push_back m g s xy) -> In (g0, cc0) m \/ cc0 <> [].
Proof.
  destruct (push_back_split m g s xy) as (m1 & m2 & c1 & c2 & s' & v & -> & H).
  intros Hg. apply in_app_or in Hg. simpl in Hg.
  destruct Hg as [Hg | [[= <- <-] | Hg]].
  - left. destruct H as [(-> & _) | [(-> & _) | (-> & _)]]; apply in_or_app; auto.
  - right. destruct c1; discriminate.
  - left. destruct H as [(-> & _) | [(-> & _) | (-> & _)]]; apply in_or_app; simpl; auto.
Qed.

Lemma push_back_inner m g s xy g0 cc0 s0 c0 :
  In (g0, cc0) (push_back m g s xy) -> In (s0, c0) cc0 ->
  (exists cc, In (g0, cc) m /\ In (s0, c0) cc) \/
  (exists v, c0 = v ++ [xy] /\ (s0 = s \/ exists cc, In (g0, cc) m /\ In (s0, v) cc)).
Proof.
  destruct (push_back_split m g s xy) as (m1 & m2 & c1 & c2 & s' & v & -> & H).
  intros Hg Hc. apply in_app_or in Hg. simpl in Hg.
  destruct Hg as [Hg | [[= <- <-] | Hg]].
  - left. exists cc0. split; trivial.
    destruct H as [(-> & _) | [(-> & _) | (-> & _)]]; apply in_or_app; auto.
  - apply in_app_or in Hc. simpl in Hc.
    destruct Hc as [Hc | [[= <- <-] | Hc]].
    + left. destruct H as [(_ & -> & _) | [(-> & _) | (-> & _)]]; [destruct Hc | |];
        eexists; (split; [apply in_elt | apply in_or_app; auto]).
    + right. exists v. split; trivial.
      destruct H as [(_ & _ & _ & _ & ->) | [(_ & _ & ->) | (-> & _)]]; auto.
      right. eexists. split; apply in_elt.
    + left. destruct H as [(_ & _ & -> & _) | [(-> & _) | (-> & _)]]; [destruct Hc | |];
        eexists; (split; [apply in_elt | apply in_or_app; simpl; auto]).
  - left. exists cc0. split; trivial.
    destruct H as [(-> & _) | [(-> & _) | (-> & _)]]; apply in_or_app; simpl; auto.
Qed.

Lemma numeric_keys_push_back m g s xy :
  numeric_keys m -> is_nan s = false -> numeric_keys (push_back m g s xy).
Proof.
  intros Hm Hs g0 cc0 s0 c0 Hg Hc.
  destruct (push_back_inner _ _ _ _ _ _ _ _ Hg Hc)
    as [(cc & ? & ?) | (v & _ & [-> | (cc & ? & ?)])]; eauto.
Qed.

Lemma no_empties_push_back m g s xy :
  no_empties m -> no_empties (push_back m g s xy).
Proof.
  intros Hm [g0 cc0] Hg. simpl. split.
  - destruct (push_back_outer _ _ _ _ _ _ Hg) as [H|H]; trivial. apply (Hm _ H).
  - intros [s0 c0] Hc. simpl.
    destruct (push_back_inner _ _ _ _ _ _ _ _ Hg Hc) as [(cc & H1 & H2) | (v & -> & _)].
    + apply (proj2 (Hm _ H1) _ H2).
    + destruct v; discriminate.
Qed.

(** *** Too close *)

Lemma min_distance_sym l p1 c1 p2 c2 :
  min_distance l p1 c1 p2 c2 = min_distance l p2 c2 p1 c1.
Proof.
  unfold min_distance. now rewrite (Z.eqb_sym p2 p1), (DoubleFacts.eqb_sym c2 c1).
Qed.

Lemma too_close_sym l a b : too_close l a b = too_close l b a.
Proof.
  unfold too_close. now rewrite point_distance_sym, min_distance_sym.
Qed.

(** Equivalent contour values give the same verdict. *)
Lemma too_close_key l g s s' xy c :
  (s' =? s)%float = true -> too_close l (g, s', xy) c = too_close l (g, s, xy) c.
Proof.
  intros H. unfold too_close, min_distance. simpl.
  now rewrite (DoubleFacts.eqb_sym _ s'), (DoubleFacts.eqb_congr _ _ _ H),
    (DoubleFacts.eqb_sym s).
Qed.

(** The test of [removeCandidates] is [too_close]. *)
Lemma erase_too_close l pt g s g' s' it :
  erase l pt g s g' s' it = too_close l (g, s, pt) (g', s', it).
Proof.
  unfold erase, too_close, min_distance, point_distance. simpl.
  destruct (negb (g' =? g)); trivial. destruct (negb (s' =? s)%float); trivial.
Qed.

(** A chosen point is too close to itself when the minimum distance to
    the same value is positive. *)
Lemma too_close_diag l g s xy :
  is_nan s = false -> (0 <? itsMinDistanceToSameValue l)%float = true ->
  too_close l (g, s, xy) (g, s, xy) = true.
Proof.
  intros Hs H. unfold too_close, min_distance. simpl.
  now rewrite Z.eqb_refl, (DoubleFacts.eqb_refl s Hs), point_distance_diag.
Qed.

Lemma entries_removed_by_value l m pt g s :
  entries (removed_by_value l m pt g s)
  = filter (fun e => negb (too_close l (g, s, pt) e)) (entries m).
Proof.
  unfold removed_by_value. rewrite entries_prune. apply filter_ext.
  intros [[g' s'] it]. simpl. now rewrite erase_too_close.
Qed.

(* ================================================================== *)
(** * [removeCandidates] and its reference *)

Section Reference.
Variable l : state.
Variable stale : reads.
Variables pn cn k : nat.
Variable v : XY.
Variable g : Z.
Variable s : float.

Local Abbreviation list_pass := (erase_from_list l stale (pn, cn, k) v g s).
Local Abbreviation contours_pass := (erase_from_contours l stale (pn, cn, k) v g s).
Local Abbreviation parameters_pass := (erase_from_parameters l stale (pn, cn, k) v g s).
Local Abbreviation kept param contour :=
  (filter (fun it => negb (erase l v g s param contour it))).
Local Abbreviation kept_contours param :=
  (map (fun cit : float * Coordinates =>
          (fst cit, kept param (fst cit) (snd cit)))).

Lemma same_place_other p c j :
  p <> pn \/ c <> cn \/ j <> k -> same_place (p, c, j) (pn, cn, k) = false.
Proof.
  unfold same_place. simpl. intros H.
  destruct (Nat.eqb_spec p pn), (Nat.eqb_spec c cn), (Nat.eqb_spec j k); trivial.
  exfalso. tauto.
Qed.

(** *** Whatever is read, nothing is added *)

Lemma erase_from_list_sub param contour p c coords : forall j alive,
  incl (fst (list_pass param contour p c j alive coords)) coords /\
  (length (fst (list_pass param contour p c j alive coords)) <= length coords)%nat.
Proof.
  induction coords as [|it coords IH]; intros j alive; cbn [erase_from_list].
  - split; [apply incl_refl | apply Nat.le_refl].
  - destruct (erase l _ g s param contour it).
    + destruct (IH (S j) (alive && negb (same_place (p, c, j) (pn, cn, k)))) as [H1 H2].
      split; [now apply incl_tl | simpl; lia].
    + destruct (IH (S j) alive) as [H1 H2].
      destruct (list_pass param contour p c (S j) alive coords) as [rest' alive'].
      simpl in *. split; [|lia].
      apply incl_cons; [now left | now apply incl_tl].
Qed.

Lemma erase_from_contours_sub param p contours : forall c alive,
  incl (contour_entries param (fst (contours_pass param p c alive contours)))
       (contour_entries param contours) /\
  (length (contour_entries param (fst (contours_pass param p c alive contours)))
   <= length (contour_entries param contours))%nat /\
  map fst (fst (contours_pass param p c alive contours)) = map fst contours.
Proof.
  induction contours as [|[s0 coords] contours IH]; intros c alive;
    cbn [erase_from_contours fst snd].
  - split; [apply incl_refl | split; [apply Nat.le_refl | reflexivity]].
  - destruct (erase_from_list_sub param s0 p c coords 0 alive) as [H1 H2].
    destruct (list_pass param s0 p c 0 alive coords) as [coords' alive'].
    destruct (IH (S c) alive') as (H3 & H4 & H5).
    destruct (contours_pass param p (S c) alive' contours) as [rest' alive''].
    cbn [fst snd] in *. rewrite !contour_entries_cons, !length_app, !length_map.
    split; [|split; [now apply Nat.add_le_mono | simpl; now rewrite H5]].
    apply incl_app; [apply incl_appl; now apply incl_map | now apply incl_appr].
Qed.

Lemma erase_from_parameters_sub m : forall p alive,
  incl (entries (fst (parameters_pass p alive m))) (entries m) /\
  (size (fst (parameters_pass p alive m)) <= size m)%nat /\
  containers (fst (parameters_pass p alive m)) = containers m.
Proof.
  unfold size.
  induction m as [|[g0 contours] m IH]; intros p alive;
    cbn [erase_from_parameters fst snd].
  - split; [apply incl_refl | split; [apply Nat.le_refl | reflexivity]].
  - destruct (erase_from_contours_sub g0 p contours 0 alive) as (H1 & H2 & H3).
    destruct (contours_pass g0 p 0 alive contours) as [contours' alive'].
    destruct (IH (S p) alive') as (H4 & H5 & H6).
    destruct (parameters_pass (S p) alive' m) as [rest' alive''].
    cbn [fst snd] in *. rewrite !entries_cons, !length_app.
    split; [|split; [now apply Nat.add_le_mono | simpl; now rewrite H3, H6]].
    apply incl_app; [now apply incl_appl | now apply incl_appr].
Qed.

(** *** Away from the node, the point is read as it is *)

Lemma erase_from_list_free param contour p c coords : forall j,
  p <> pn \/ c <> cn \/ (k < j)%nat ->
  list_pass param contour p c j true coords = (kept param contour coords, true).
Proof.
  induction coords as [|it coords IH]; intros j H; cbn [erase_from_list filter]; trivial.
  assert (Hsp : same_place (p, c, j) (pn, cn, k) = false).
  { apply same_place_other. destruct H as [H | [H | H]]; auto. right. right. lia. }
  assert (H' : p <> pn \/ c <> cn \/ (k < S j)%nat).
  { destruct H as [H | [H | H]]; auto. }
  destruct (erase l v g s param contour it); cbn [negb].
  - rewrite Hsp. now apply IH.
  - now rewrite (IH (S j) H').
Qed.

Lemma erase_from_contours_free param p contours : forall c,
  p <> pn \/ (cn < c)%nat ->
  contours_pass param p c true contours = (kept_contours param contours, true).
Proof.
  induction contours as [|[s0 coords] contours IH]; intros c H;
    cbn [erase_from_contours map fst snd]; trivial.
  rewrite erase_from_list_free by (destruct H; [auto | right; left; lia]).
  rewrite IH by (destruct H; [auto | right; lia]). reflexivity.
Qed.

Lemma erase_from_parameters_free m : forall p,
  (pn < p)%nat ->
  parameters_pass p true m = (removed_by_value l m v g s, true).
Proof.
  unfold removed_by_value, prune.
  induction m as [|[g0 contours] m IH]; intros p H;
    cbn [erase_from_parameters map fst snd]; trivial.
  rewrite erase_from_contours_free by (left; lia).
  rewrite IH by lia. reflexivity.
Qed.

(** *** At the node: erased, or left with the point read as it is *)

Lemma erase_from_list_node param contour coords : forall j it0,
  (j <= k)%nat -> nth_error coords (k - j) = Some it0 ->
  if erase l v g s param contour it0
  then (length (fst (list_pass param contour pn cn j true coords)) < length coords)%nat
  else list_pass param contour pn cn j true coords = (kept param contour coords, true).
Proof.
  induction coords as [|it coords IH]; intros j it0 Hj Hn.
  - destruct (k - j)%nat; discriminate.
  - destruct (Nat.eq_dec j k) as [-> | Hne].
    + rewrite Nat.sub_diag in Hn. injection Hn as <-.
      cbn [erase_from_list filter].
      destruct (erase l v g s param contour it) eqn:E; cbn [negb].
      * pose proof (proj2 (erase_from_list_sub param contour pn cn coords (S k)
                             (true && negb (same_place (pn, cn, k) (pn, cn, k)))))
          as Hle.
        cbn [length]. apply Nat.lt_succ_r. exact Hle.
      * rewrite erase_from_list_free by (right; right; lia). reflexivity.
    + assert (E : (k - j = S (k - S j))%nat) by lia. rewrite E in Hn. simpl in Hn.
      assert (HSj : (S j <= k)%nat) by lia.
      specialize (IH (S j) it0 HSj Hn).
      cbn [erase_from_list filter].
      rewrite (same_place_other pn cn j) by auto.
      destruct (erase l v g s param contour it) eqn:Ea; cbn [negb andb].
      * destruct (erase l v g s param contour it0); [simpl; lia | exact IH].
      * destruct (erase l v g s param contour it0).
        -- destruct (list_pass param contour pn cn (S j) true coords). simpl in *. lia.
        -- now rewrite IH.
Qed.

Lemma erase_from_contours_node param contours : forall c s0 coords0 it0,
  (c <= cn)%nat -> nth_error contours (cn - c) = Some (s0, coords0) ->
  nth_error coords0 k = Some it0 ->
  if erase l v g s param s0 it0
  then (length (contour_entries param (fst (contours_pass param pn c true contours)))
        < length (contour_entries param contours))%nat
  else contours_pass param pn c true contours = (kept_contours param contours, true).
Proof.
  induction contours as [|[s1 coords1] contours IH]; intros c s0 coords0 it0 Hc Hn Hk.
  - destruct (cn - c)%nat; discriminate.
  - cbn [erase_from_contours map fst snd].
    destruct (Nat.eq_dec c cn) as [-> | Hne].
    + rewrite Nat.sub_diag in Hn. injection Hn as -> ->.
      pose proof (erase_from_list_node param s0 coords0 0 it0 (Nat.le_0_l k)) as Hl.
      rewrite Nat.sub_0_r in Hl. specialize (Hl Hk).
      destruct (erase l v g s param s0 it0).
      * destruct (list_pass param s0 pn cn 0 true coords0) as [coords' alive'].
        destruct (erase_from_contours_sub param pn contours (S cn) alive') as (_ & H2 & _).
        destruct (contours_pass param pn (S cn) alive' contours) as [rest' alive''].
        cbn [fst snd] in *. rewrite !contour_entries_cons, !length_app, !length_map.
        now apply Nat.add_lt_le_mono.
      * rewrite Hl, erase_from_contours_free by (right; lia). reflexivity.
    + assert (E : (cn - c = S (cn - S c))%nat) by lia. rewrite E in Hn. simpl in Hn.
      assert (HSc : (S c <= cn)%nat) by lia.
      specialize (IH (S c) s0 coords0 it0 HSc Hn Hk).
      rewrite erase_from_list_free by (right; left; exact Hne).
      destruct (erase l v g s param s0 it0).
      * destruct (contours_pass param pn (S c) true contours) as [rest' alive''].
        cbn [fst snd] in *. rewrite !contour_entries_cons, !length_app, !length_map.
        apply Nat.add_le_lt_mono; trivial. apply filter_length_le.
      * now rewrite IH.
Qed.

Lemma erase_from_parameters_node m : forall p e,
  (p <= pn)%nat -> at_place m ((pn - p)%nat, cn, k) = Some e ->
  if erase l v g s (fst (fst e)) (snd (fst e)) (snd e)
  then (size (fst (parameters_pass p true m)) < size m)%nat
  else parameters_pass p true m = (removed_by_value l m v g s, true).
Proof.
  unfold size, removed_by_value, prune.
  induction m as [|[g1 contours1] m IH]; intros p e Hp He.
  - unfold at_place in He. simpl in He. destruct (pn - p)%nat; discriminate.
  - cbn [erase_from_parameters map fst snd].
    destruct (Nat.eq_dec p pn) as [-> | Hne].
    + unfold at_place in He. rewrite Nat.sub_diag in He. cbn [fst snd nth_error] in He.
      destruct (nth_error contours1 cn) as [[s0 coords0]|] eqn:Ec; [|discriminate].
      destruct (nth_error coords0 k) as [it0|] eqn:Ek; [|discriminate].
      injection He as <-. cbn [fst snd].
      pose proof (erase_from_contours_node g1 contours1 0 s0 coords0 it0 (Nat.le_0_l cn))
        as Hl.
      rewrite Nat.sub_0_r in Hl. specialize (Hl Ec Ek).
      destruct (erase l v g s g1 s0 it0).
      * destruct (contours_pass g1 pn 0 true contours1) as [contours' alive'].
        destruct (erase_from_parameters_sub m (S pn) alive') as (_ & H2 & _).
        unfold size in H2.
        destruct (parameters_pass (S pn) alive' m) as [rest' alive''].
        cbn [fst snd] in *. rewrite !entries_cons, !length_app.
        now apply Nat.add_lt_le_mono.
      * rewrite Hl. pose proof (erase_from_parameters_free m (S pn) (Nat.lt_succ_diag_r pn))
          as Hf.
        unfold removed_by_value, prune in Hf. now rewrite Hf.
    + assert (E : (pn - p = S (pn - S p))%nat) by lia.
      assert (He' : at_place m ((pn - S p)%nat, cn, k) = Some e).
      { unfold at_place in *. cbn [fst snd] in *. rewrite E in He. exact He. }
      assert (HSp : (S p <= pn)%nat) by lia.
      specialize (IH (S p) e HSp He').
      rewrite erase_from_contours_free by (left; exact Hne).
      destruct (erase l v g s (fst (fst e)) (snd (fst e)) (snd e)).
      * destruct (parameters_pass (S p) true m) as [rest' alive''].
        cbn [fst snd] in *. rewrite !entries_cons, !length_app.
        apply Nat.add_le_lt_mono; trivial.
        rewrite (contour_entries_prune
                   (fun param contour it => negb (erase l v g s param contour it))).
        apply filter_length_le.
      * now rewrite IH.
Qed.

(** *** Reads that find what the node held *)

Lemma erase_from_list_intact param contour p c coords :
  (forall q, stale q v = v) ->
  forall j alive,
    fst (list_pass param contour p c j alive coords) = kept param contour coords.
Proof.
  intros Hstale. induction coords as [|it coords IH]; intros j alive;
    cbn [erase_from_list filter]; trivial.
  replace (if alive then v else stale (p, c, j) v) with v
    by (destruct alive; [reflexivity | now rewrite Hstale]).
  destruct (erase l v g s param contour it); cbn [negb].
  - apply IH.
  - specialize (IH (S j) alive).
    destruct (list_pass param contour p c (S j) alive coords). simpl in *. now rewrite IH.
Qed.

Lemma erase_from_contours_intact param p contours :
  (forall q, stale q v = v) ->
  forall c alive,
    fst (contours_pass param p c alive contours) = kept_contours param contours.
Proof.
  intros Hstale. induction contours as [|[s0 coords] contours IH]; intros c alive;
    cbn [erase_from_contours map fst snd]; trivial.
  pose proof (erase_from_list_intact param s0 p c coords Hstale 0 alive) as H1.
  destruct (list_pass param s0 p c 0 alive coords) as [coords' alive'].
  specialize (IH (S c) alive').
  destruct (contours_pass param p (S c) alive' contours) as [rest' alive''].
  simpl in *. now rewrite H1, IH.
Qed.

Lemma erase_from_parameters_intact m :
  (forall q, stale q v = v) ->
  forall p alive, fst (parameters_pass p alive m) = removed_by_value l m v g s.
Proof.
  unfold removed_by_value, prune.
  intros Hstale. induction m as [|[g0 contours] m IH]; intros p alive;
    cbn [erase_from_parameters map fst snd]; trivial.
  pose proof (erase_from_contours_intact g0 p contours Hstale 0 alive) as H1.
  destruct (contours_pass g0 p 0 alive contours) as [contours' alive'].
  specialize (IH (S p) alive').
  destruct (parameters_pass (S p) alive' m) as [rest' alive''].
  simpl in *. now rewrite H1, IH.
Qed.

End Reference.

(** Whatever the reads of the destroyed node give, [removeCandidates] only
    erases coordinates, and leaves every container in place. *)
Lemma removeCandidates_sub stale l m node v g s :
  incl (entries (removeCandidates stale l m node v g s)) (entries m) /\
  (size (removeCandidates stale l m node v g s) <= size m)%nat /\
  containers (removeCandidates stale l m node v g s) = containers m.
Proof.
  destruct node as [[pn cn] k]. apply erase_from_parameters_sub.
Qed.

(** The node that is not erased by its own test is never read destroyed:
    the table is cleaned up as by value. *)
Lemma removeCandidates_alive stale l m node v g s e :
  at_place m node = Some e ->
  erase l v g s (fst (fst e)) (snd (fst e)) (snd e) = false ->
  removeCandidates stale l m node v g s = removed_by_value l m v g s.
Proof.
  destruct node as [[pn cn] k]. intros He Hfar. unfold removeCandidates.
  pose proof (erase_from_parameters_node l stale pn cn k v g s m 0 e (Nat.le_0_l pn)) as H.
  rewrite Nat.sub_0_r, Hfar in H. now rewrite (H He).
Qed.

(** The node that is erased by its own test makes the table smaller. *)
Lemma removeCandidates_smaller stale l m node v g s e :
  at_place m node = Some e ->
  erase l v g s (fst (fst e)) (snd (fst e)) (snd e) = true ->
  (size (removeCandidates stale l m node v g s) < size m)%nat.
Proof.
  destruct node as [[pn cn] k]. intros He Hclose. unfold removeCandidates.
  pose proof (erase_from_parameters_node l stale pn cn k v g s m 0 e (Nat.le_0_l pn)) as H.
  rewrite Nat.sub_0_r, Hclose in H. exact (H He).
Qed.

(** Reads that find what the node held clean the table up as by value. *)
Lemma removeCandidates_intact stale l m node v g s :
  (forall q, stale q v = v) ->
  removeCandidates stale l m node v g s = removed_by_value l m v g s.
Proof.
  destruct node as [[pn cn] k]. intros H. now apply erase_from_parameters_intact.
Qed.

Lemma numeric_keys_containers m m' :
  containers m' = containers m -> numeric_keys m -> numeric_keys m'.
Proof.
  unfold containers. revert m'.
  induction m as [|[g0 cc0] m IH]; intros [|[g1 cc1] m'] E H; try discriminate.
  - intros g cc s c [].
  - injection E as -> Ecc Em.
    assert (Hm : numeric_keys m) by (intros g cc s c Hg; apply (H g cc s c); now right).
    intros g cc s c [[= <- <-] | Hg] Hc; [|exact (IH m' Em Hm g cc s c Hg Hc)].
    assert (Hin : In s (map fst cc0)).
    { rewrite <- Ecc. apply in_map_iff. now exists (s, c). }
    apply in_map_iff in Hin. destruct Hin as ([s' c'] & <- & Hin).
    exact (H g0 cc0 s' c' (or_introl eq_refl) Hin).
Qed.

Lemma numeric_keys_removeCandidates stale l m node v g s :
  numeric_keys m -> numeric_keys (removeCandidates stale l m node v g s).
Proof.
  apply numeric_keys_containers.
  exact (proj2 (proj2 (removeCandidates_sub stale l m node v g s))).
Qed.

(** *** Choosing *)

Lemma closest_from_bound dist c : forall bestdist best i k,
  closest_from dist bestdist best i c = Some k ->
  best = Some k \/ (i <= k < i + length c)%nat.
Proof.
  induction c as [|xy c IH]; intros bestdist best i k; cbn [closest_from length]; auto.
  destruct ((bestdist <? 0)%float || (dist xy <? bestdist)%float); intros H;
    apply IH in H; destruct H as [H | H]; auto; try (right; lia).
  injection H as <-. right. lia.
Qed.

Lemma closest_from_Some dist c : forall bestdist x i,
  closest_from dist bestdist (Some x) i c <> None.
Proof.
  induction c as [|xy c IH]; intros bestdist x i; cbn [closest_from]; [discriminate|].
  destruct ((bestdist <? 0)%float || (dist xy <? bestdist)%float); apply IH.
Qed.

(** With nothing taken yet, the loop takes a candidate when there is one. *)
Lemma closest_from_start dist c :
  c <> [] -> closest_from dist (-1)%float None 0 c <> None.
Proof.
  destruct c as [|xy c]; [congruence|]. intros _. simpl. apply closest_from_Some.
Qed.

(** The iterator that [chooseOne] returns is in the list. *)
Lemma chooseOne_bound l c g s best :
  chooseOne l c g s = Some best -> (best < length c)%nat.
Proof.
  assert (Hb : chooseClosestToBorder l c = Some best -> (best < length c)%nat).
  { unfold chooseClosestToBorder. destruct c as [|first c]; [discriminate|].
    destruct (negb (itHasBBox l)).
    - intros [= <-]. simpl. lia.
    - intros H. apply closest_from_bound in H. destruct H; [discriminate | lia]. }
  unfold chooseOne.
  destruct (StdMap.find Z.ltb g _) as [contours|]; trivial.
  destruct (StdMap.find PrimFloat.ltb s contours) as [previous|]; trivial.
  unfold chooseClosestToPrevious. intros H. apply closest_from_bound in H.
  destruct H; [discriminate | lia].
Qed.

(** [chooseOne] never returns [end()] on a list that is not empty: the
    internal error of [chooseLabels] is never thrown. *)
Lemma chooseOne_Some l c g s : c <> [] -> chooseOne l c g s <> None.
Proof.
  intros Hc.
  assert (Hb : chooseClosestToBorder l c <> None).
  { unfold chooseClosestToBorder. destruct c as [|first c]; [congruence|].
    destruct (negb (itHasBBox l)); [discriminate|]. now apply closest_from_start. }
  unfold chooseOne.
  destruct (StdMap.find Z.ltb g _) as [contours|]; trivial.
  destruct (StdMap.find PrimFloat.ltb s contours) as [previous|]; trivial.
  now apply closest_from_start.
Qed.

Lemma deref_nth_error c k : (k < length c)%nat -> nth_error c k = Some (deref c k).
Proof. intros H. unfold deref. now apply nth_error_nth'. Qed.

Lemma deref_In c k : (k < length c)%nat -> In (deref c k) c.
Proof. intros H. unfold deref. now apply nth_In. Qed.

(** The node of the chosen candidate. *)
Lemma at_place_nth param contours rest i value coords best :
  nth_error contours i = Some (value, coords) -> (best < length coords)%nat ->
  at_place ((param, contours) :: rest) (O, i, best)
  = Some (param, value, deref coords best).
Proof.
  intros Hi Hb. apply deref_nth_error in Hb.
  unfold at_place. cbn [fst snd nth_error].
  unfold ContourCoordinates, Coordinates, XY in *. now rewrite Hi, Hb.
Qed.

(* ================================================================== *)
(** * The loops of [chooseLabels] *)

Section Loops.
Variable stale : nat -> reads.
Variable l : state.

(** The rule of the inner loop: what every choice maintains holds when the
    loop is left. *)
Lemma contour_loop_invariant (P : ParamCoordinates -> ParamCoordinates -> Prop) :
  chooses stale l P ->
  forall n i candidates choices candidates' choices',
    P candidates choices ->
    contour_loop stale l n i candidates choices = Return (candidates', choices') ->
    P candidates' choices'.
Proof.
  intros Hstep. induction n as [|n IH]; intros i candidates choices candidates' choices' HP H;
    simpl in H.
  - now injection H as <- <-.
  - destruct candidates as [|[param contours] rest]; [now injection H as <- <-|].
    destruct (nth_error contours i) as [[value coords]|] eqn:Ei;
      [|now injection H as <- <-].
    destruct (is_empty coords) eqn:Ec; [now apply (IH _ _ _ _ _ HP H)|].
    destruct (chooseOne l coords param value) as [best|] eqn:Eb; [|discriminate].
    refine (IH _ _ _ _ _ _ H).
    apply (Hstep _ _ _ _ i value coords); trivial.
    now apply chooseOne_bound in Eb.
Qed.

(** The inner loop returns: it never throws. *)
Lemma contour_loop_returns n i candidates choices :
  exists candidates' choices',
    contour_loop stale l n i candidates choices = Return (candidates', choices').
Proof.
  revert i candidates choices. induction n as [|n IH]; intros i candidates choices; simpl.
  - eauto.
  - destruct candidates as [|[param contours] rest]; [eauto|].
    destruct (nth_error contours i) as [[value coords]|]; [|eauto].
    destruct (is_empty coords) eqn:Ec; [apply IH|].
    destruct (chooseOne l coords param value) as [best|] eqn:Eb; [apply IH|].
    exfalso. apply (chooseOne_Some l coords param value); trivial.
    destruct coords; [discriminate | congruence].
Qed.

(** The candidates left by the inner loop are candidates it started with,
    in the containers it started with. *)
Lemma contour_loop_sub n i candidates choices candidates' choices' :
  contour_loop stale l n i candidates choices = Return (candidates', choices') ->
  incl (entries candidates') (entries candidates) /\
  (size candidates' <= size candidates)%nat /\
  containers candidates' = containers candidates.
Proof.
  apply (contour_loop_invariant
           (fun c _ => incl (entries c) (entries candidates) /\
                       (size c <= size candidates)%nat /\
                       containers c = containers candidates)).
  - intros param contours rest choices0 i0 value coords best (H1 & H2 & H3) _ _.
    destruct (removeCandidates_sub (stale (size choices0)) l ((param, contours) :: rest)
                (O, i0, best) (deref coords best) param value) as (H4 & H5 & H6).
    split; [|split].
    + exact (incl_tran H4 H1).
    + exact (Nat.le_trans _ _ _ H5 H2).
    + now rewrite H6.
  - split; [apply incl_refl | split; [apply Nat.le_refl | reflexivity]].
Qed.

(** The rule of the outer loop. *)
Lemma chooseLabels_loop_invariant (P : ParamCoordinates -> ParamCoordinates -> Prop) :
  chooses stale l P ->
  (forall candidates choices, P candidates choices -> P (removeEmpties candidates) choices) ->
  forall fuel candidates choices choices',
    P candidates choices ->
    chooseLabels_loop stale l fuel candidates choices = Return choices' ->
    P [] choices'.
Proof.
  intros Hstep Hrm. induction fuel as [|fuel IH]; intros candidates choices choices' HP H;
    destruct candidates as [|[param contours] rest]; simpl in H;
    try discriminate; try (now injection H as <-).
  destruct (contour_loop stale l (length contours) 0 ((param, contours) :: rest) choices)
    as [[candidates' choices1]| |] eqn:E; try discriminate.
  apply (IH _ _ _ (Hrm _ _ (contour_loop_invariant P Hstep _ _ _ _ _ _ HP E)) H).
Qed.

(** A candidate that is stored is in the table. *)
Lemma In_entries_nth param contours rest i value coords best :
  nth_error contours i = Some (value, coords) -> In best coords ->
  In (param, value, best) (entries ((param, contours) :: rest)).
Proof.
  intros Hi Hb. apply In_entries. exists param, contours, value, coords, best.
  repeat split; trivial; [now left | now apply nth_error_In in Hi].
Qed.

Lemma ForallOrdPairs_Permutation {A} (R : A -> A -> Prop) (c c' : list A) :
  (forall a b, R a b -> R b a) ->
  Permutation c c' -> ForallOrdPairs R c -> ForallOrdPairs R c'.
Proof.
  intros Hsym Hp. induction Hp as [|x c c' Hp IH|x y c|c c' c'' _ IH1 _ IH2]; intros H; auto.
  - inversion H as [|? ? Hx Hc]; subst. constructor; auto.
    now apply (Permutation_Forall Hp).
  - inversion H as [|? ? Hy Hc]; subst. inversion Hc as [|? ? Hx Hc']; subst.
    inversion Hy as [|? ? Hyx Hy']; subst.
    repeat constructor; auto.
Qed.

(** Every choice keeps the contour values numbers. *)
Lemma numeric_chooses :
  chooses stale l (fun c h => numeric_keys c /\ numeric_keys h).
Proof.
  intros param contours rest choices i value coords best [Hkc Hkh] Hi Hb. split.
  - now apply numeric_keys_removeCandidates.
  - apply numeric_keys_push_back; trivial.
    apply (Hkc param contours value coords); [now left | now apply nth_error_In in Hi].
Qed.

Lemma chooseLabels_loop_numeric fuel candidates choices :
  numeric_keys candidates ->
  chooseLabels_loop stale l fuel candidates [] = Return choices ->
  numeric_keys choices.
Proof.
  intros Hk H.
  apply (chooseLabels_loop_invariant _ numeric_chooses) in H.
  - apply H.
  - intros c h [Hc Hh]. split; trivial. now apply numeric_keys_removeEmpties.
  - split; [trivial | apply numeric_keys_nil].
Qed.

(** What is chosen was a candidate. *)
Lemma chooseLabels_loop_stored fuel candidates choices xy :
  chooseLabels_loop stale l fuel candidates [] = Return choices ->
  stored choices xy -> stored candidates xy.
Proof.
  intros H.
  apply (chooseLabels_loop_invariant
           (fun c h => (forall e, In e (entries c) -> In e (entries candidates)) /\
                       (stored h xy -> stored candidates xy))) in H.
  - tauto.
  - intros param contours rest choices0 i value coords best [Hc Hh] Hi Hb. split.
    + intros e He. apply Hc.
      exact (proj1 (removeCandidates_sub _ _ _ _ _ _ _) e He).
    + intros (g & s & Hxy).
      destruct (entries_push_back choices0 param value (deref coords best))
        as (s' & Hperm & _).
      apply (Permutation_in _ Hperm) in Hxy. destruct Hxy as [[= <- <- <-] | Hxy].
      * exists param, value. apply Hc.
        apply (In_entries_nth _ _ _ i _ coords); trivial. now apply deref_In.
      * apply Hh. now exists g, s.
  - intros c h [Hc Hh]. split; trivial.
    intros e He. rewrite entries_removeEmpties in He. auto.
  - split; auto. intros (g & s & []).
Qed.

(** The table of choices has no empty container. *)
Lemma chooseLabels_loop_no_empties fuel candidates choices :
  chooseLabels_loop stale l fuel candidates [] = Return choices -> no_empties choices.
Proof.
  intros H.
  apply (chooseLabels_loop_invariant (fun _ h => no_empties h)) in H; trivial.
  - intros param contours rest choices0 i value coords best Hh _ _.
    now apply no_empties_push_back.
  - intros pit [].
Qed.

(** The first choice of an iteration removes the chosen candidate itself,
    its node being read while it lives, and nothing is ever added: the
    candidates get fewer. *)
Lemma contour_loop_progress param value coords contours rest choices candidates' choices' :
  coords <> [] ->
  is_nan value = false ->
  (0 <? itsMinDistanceToSameValue l)%float = true ->
  contour_loop stale l (length ((value, coords) :: contours)) 0
    ((param, (value, coords) :: contours) :: rest) choices
  = Return (candidates', choices') ->
  (size candidates' < size ((param, (value, coords) :: contours) :: rest))%nat.
Proof.
  intros Hc Hv Hmin H. cbn [contour_loop length nth_error] in H.
  destruct (is_empty coords) eqn:Ec; [destruct coords; [congruence | discriminate]|].
  destruct (chooseOne l coords param value) as [best|] eqn:Eb; [|discriminate].
  apply chooseOne_bound in Eb.
  apply contour_loop_sub in H. destruct H as (_ & Hle & _).
  eapply Nat.le_lt_trans; [exact Hle|].
  apply (removeCandidates_smaller _ _ _ _ _ _ _ (param, value, deref coords best)).
  - now apply (at_place_nth param _ rest 0 value coords best).
  - cbn [fst snd]. now rewrite erase_too_close, too_close_diag.
Qed.

(** The outer loop ends within as many iterations as there are candidates,
    when the minimum distance to the same value is positive. *)
Lemma chooseLabels_loop_terminates fuel candidates choices :
  no_empties candidates ->
  numeric_keys candidates ->
  (0 <? itsMinDistanceToSameValue l)%float = true ->
  (size candidates <= fuel)%nat ->
  exists choices', chooseLabels_loop stale l fuel candidates choices = Return choices'.
Proof.
  revert candidates choices.
  induction fuel as [|fuel IH]; intros candidates choices Hne Hk Hmin Hsize;
    destruct candidates as [|[param contours] rest]; cbn [chooseLabels_loop]; eauto.
  - exfalso. destruct (Hne _ (or_introl eq_refl)) as [H1 H2]. simpl in *.
    destruct contours as [|[value coords] contours]; [congruence|].
    specialize (H2 _ (or_introl eq_refl)). simpl in H2.
    destruct coords; [congruence|]. unfold size in Hsize. simpl in Hsize. lia.
  - destruct (Hne _ (or_introl eq_refl)) as [H1 H2]. simpl in H1, H2.
    destruct contours as [|[value coords] contours]; [congruence|].
    specialize (H2 _ (or_introl eq_refl)). simpl in H2.
    match goal with
    | |- context [contour_loop stale l ?n ?i ?c ?h] =>
        destruct (contour_loop_returns n i c h) as (candidates' & choices' & E)
    end.
    pose proof (contour_loop_progress _ _ _ _ _ _ _ _ H2
                  (Hk _ _ _ _ (or_introl eq_refl) (or_introl eq_refl)) Hmin E) as Hlt.
    destruct (IH (removeEmpties candidates') choices') as [final Hfinal]; trivial.
    + apply no_empties_removeEmpties.
    + apply numeric_keys_removeEmpties.
      apply (numeric_keys_containers _ _ (proj2 (proj2 (contour_loop_sub _ _ _ _ _ _ E)))).
      exact Hk.
    + rewrite size_removeEmpties. apply Nat.lt_succ_r.
      exact (Nat.lt_le_trans _ _ _ Hlt Hsize).
    + exists final. now rewrite E.
Qed.

End Loops.

(* ================================================================== *)
(** * The loops, the destroyed node being read as it was *)

Section Intact.
Variable stale : nat -> reads.
Hypothesis stale_intact : reads_intact stale.
Variable l : state.

Lemma removeCandidates_by_value n m node v g s :
  removeCandidates (stale n) l m node v g s = removed_by_value l m v g s.
Proof. apply removeCandidates_intact. intros q. apply stale_intact. Qed.

(** Every choice keeps the chosen coordinates apart. *)
Lemma separated_chooses : chooses stale l (separated l).
Proof.
  intros param contours rest choices i value coords k
    (Hkc & Hkh & Hpairs & Hcross) Hi Hk.
  set (best := deref coords k).
  pose proof (In_entries_nth param contours rest i value coords best Hi
                (deref_In coords k Hk)) as Hin.
  assert (Hv : is_nan value = false).
  { apply (Hkc param contours value coords); [now left | now apply nth_error_In in Hi]. }
  destruct (entries_push_back choices param value best) as (s' & Hperm & Hs').
  assert (Heq : (s' =? value)%float = true).
  { destruct Hs' as [-> | (H1 & H2 & cc & c & Hcc & Hc)].
    - now apply DoubleFacts.eqb_refl.
    - apply DoubleFacts.not_ltb_eqb; trivial. now apply (Hkh param cc s' c). }
  split; [|split; [|split]].
  - now apply numeric_keys_removeCandidates.
  - now apply numeric_keys_push_back.
  - apply (ForallOrdPairs_Permutation _ ((param, s', best) :: entries choices)).
    + intros a b H. now rewrite too_close_sym.
    + now symmetry.
    + constructor; trivial. apply Forall_forall. intros e He.
      rewrite (too_close_key _ _ _ _ _ _ Heq), too_close_sym. auto.
  - intros e c He Hc.
    rewrite removeCandidates_by_value, entries_removed_by_value in Hc.
    apply filter_In in Hc. destruct Hc as [Hc Hfar].
    apply (Permutation_in _ Hperm) in He. destruct He as [<- | He]; auto.
    rewrite (too_close_key _ _ _ _ _ _ Heq). now destruct (too_close l _ c).
Qed.

Lemma separated_removeEmpties candidates choices :
  separated l candidates choices -> separated l (removeEmpties candidates) choices.
Proof.
  intros (Hkc & Hkh & Hpairs & Hcross). repeat split; trivial.
  - now apply numeric_keys_removeEmpties.
  - intros e c He Hc. rewrite entries_removeEmpties in Hc. auto.
Qed.

(** No two coordinates of the table that the loop returns are too close. *)
Lemma chooseLabels_loop_separated fuel candidates choices :
  numeric_keys candidates ->
  chooseLabels_loop stale l fuel candidates [] = Return choices ->
  numeric_keys choices /\
  ForallOrdPairs (fun a b => too_close l a b = false) (entries choices).
Proof.
  intros Hk H.
  assert (Hs : separated l [] choices).
  { apply (chooseLabels_loop_invariant stale l (separated l) separated_chooses
             separated_removeEmpties _ _ _ _ (conj Hk (conj numeric_keys_nil
               (conj (FOP_nil _) (fun e c (H : In e []) _ => match H with end)))) H). }
  destruct Hs as (_ & ? & ? & _). auto.
Qed.

End Intact.

(* ================================================================== *)
(** * The member functions: facts *)

Lemma boundingBox_Return x1 y1 x2 y2 l l' :
  boundingBox x1 y1 x2 y2 l = Return l' ->
  empty l = true /\ x1 < x2 /\ y1 < y2 /\
  l' = Build true x1 y1 x2 y2
         (itsMinDistanceToSameValue l) (itsMinDistanceToDifferentValue l)
         (itsMinDistanceToDifferentParameter l) (itsActiveParameter l)
         (itsPreviousCoordinates l) (itsCurrentCoordinates l).
Proof.
  unfold boundingBox. destruct (empty l); simpl; [|discriminate].
  destruct (x2 <=? x1) eqn:E1; [discriminate|].
  destruct (y2 <=? y1) eqn:E2; [discriminate|]. simpl.
  intros [= <-]. apply Z.leb_gt in E1, E2. auto.
Qed.

Lemma empty_true l :
  empty l = true <-> itsPreviousCoordinates l = [] /\ itsCurrentCoordinates l = [].
Proof.
  unfold empty. destruct (itsPreviousCoordinates l), (itsCurrentCoordinates l);
    split; try discriminate; auto; intros []; discriminate.
Qed.

Lemma stored_nil xy : ~ stored [] xy.
Proof. intros (g & s & []). Qed.

(** A table that stores a coordinate is not empty. *)
Lemma has_coordinates_not_empty l : has_coordinates l -> empty l = false.
Proof.
  intros (xy & H). destruct (empty l) eqn:E; trivial.
  apply empty_true in E. destruct E as [E1 E2]. rewrite E1, E2 in H.
  destruct H as [H|H]; now apply stored_nil in H.
Qed.

Lemma add_Return c x y l l' :
  add c x y l = Return l' ->
  (inside l x y = false /\ l' = l) \/
  (inside l x y = true /\ itsActiveParameter l <> badparameter /\
   l' = set_coordinates l (itsPreviousCoordinates l)
          (push_back (itsCurrentCoordinates l) (itsActiveParameter l) c (x, y))).
Proof.
  unfold add. destruct (inside l x y); simpl.
  - destruct (itsActiveParameter l =? badparameter) eqn:E; [discriminate|].
    intros [= <-]. apply Z.eqb_neq in E. auto.
  - intros [= <-]. auto.
Qed.

Lemma chooseLabels_Return stale fuel l choices l' :
  chooseLabels stale fuel l = Return (choices, l') ->
  chooseLabels_loop stale l fuel (itsCurrentCoordinates l) [] = Return choices /\
  l' = set_coordinates l (itsPreviousCoordinates l) choices.
Proof.
  unfold chooseLabels.
  destruct (chooseLabels_loop stale l fuel (itsCurrentCoordinates l) []); try discriminate.
  intros [= <- <-]. auto.
Qed.

Lemma stored_push_back m g s xy p :
  stored (push_back m g s xy) p -> p = xy \/ stored m p.
Proof.
  intros (g0 & s0 & H).
  destruct (entries_push_back m g s xy) as (s' & Hperm & _).
  apply (Permutation_in _ Hperm) in H. destruct H as [[= _ _ <-] | H]; auto.
  right. now exists g0, s0.
Qed.

Lemma inside_in_box l xy :
  itHasBBox l = true -> inside l (fst xy) (snd xy) = true -> in_box l xy.
Proof.
  unfold inside, in_box. intros ->. simpl.
  rewrite !andb_true_iff. lia.
Qed.

(** What a call that returns does to the state. *)
Lemma exec_Return c l l' :
  exec c l = Return l' ->
  match c with
  | Call_clear => l' = clear l
  | Call_boundingBox x1 y1 x2 y2 => boundingBox x1 y1 x2 y2 l = Return l'
  | Call_minDistanceToSameValue d => minDistanceToSameValue d l = Return l'
  | Call_minDistanceToDifferentValue d => minDistanceToDifferentValue d l = Return l'
  | Call_minDistanceToDifferentParameter d =>
      minDistanceToDifferentParameter d l = Return l'
  | Call_parameter p => parameter p l = Return l'
  | Call_nextTime => l' = nextTime l
  | Call_add c x y => add c x y l = Return l'
  | Call_chooseLabels stale fuel =>
      exists choices, chooseLabels stale fuel l = Return (choices, l')
  end.
Proof.
  destruct c; simpl; trivial; try (now intros [= <-]).
  destruct (chooseLabels stale fuel l) as [[choices l'']| |]; try discriminate.
  intros [= <-]. eauto.
Qed.

(** The setters and [parameter] leave the tables alone and, when they
    return, the locator was empty or the call was [parameter]. *)
Lemma setter_tables c l l' :
  exec c l = Return l' ->
  match c with
  | Call_boundingBox _ _ _ _ | Call_minDistanceToSameValue _
  | Call_minDistanceToDifferentValue _ | Call_minDistanceToDifferentParameter _
  | Call_parameter _ =>
      itsCurrentCoordinates l' = itsCurrentCoordinates l /\
      itsPreviousCoordinates l' = itsPreviousCoordinates l
  | _ => True
  end.
Proof.
  destruct c; trivial; simpl;
    unfold boundingBox, minDistanceToSameValue, minDistanceToDifferentValue,
      minDistanceToDifferentParameter, parameter.
  - destruct (negb (empty l)); [discriminate|].
    destruct ((theX2 <=? theX1) || (theY2 <=? theY1)); [discriminate|].
    intros [= <-]. auto.
  - destruct (negb (empty l)); [discriminate|]. intros [= <-]. auto.
  - destruct (negb (empty l)); [discriminate|]. intros [= <-]. auto.
  - destruct (negb (empty l)); [discriminate|]. intros [= <-]. auto.
  - destruct (theParameter =? badparameter); [discriminate|]. intros [= <-]. auto.
Qed.

Lemma well_kept_nil : well_kept [].
Proof. split; [apply numeric_keys_nil | intros pit []]. Qed.

(** The current table of a reachable locator is well kept. *)
Lemma reachable_well_kept l : reachable l -> well_kept (itsCurrentCoordinates l).
Proof.
  induction 1 as [|l c l' Hl IH Hwf Hexec]; [apply well_kept_nil|].
  pose proof (setter_tables c l l' Hexec) as Hset.
  apply exec_Return in Hexec.
  destruct c.
  - subst. apply well_kept_nil.
  - destruct Hset as [-> _]. exact IH.
  - destruct Hset as [-> _]. exact IH.
  - destruct Hset as [-> _]. exact IH.
  - destruct Hset as [-> _]. exact IH.
  - destruct Hset as [-> _]. exact IH.
  - subst. apply well_kept_nil.
  - apply add_Return in Hexec.
    destruct Hexec as [(_ & ->) | (_ & _ & ->)]; trivial.
    destruct IH as [IH1 IH2]. simpl in *. split.
    + apply numeric_keys_push_back; trivial. now destruct (is_nan theContour).
    + now apply no_empties_push_back.
  - destruct Hexec as (choices & Hexec). apply chooseLabels_Return in Hexec.
    destruct Hexec as (Hloop & ->). simpl. destruct IH as [IH1 _]. split.
    + exact (chooseLabels_loop_numeric stale l fuel _ choices IH1 Hloop).
    + exact (chooseLabels_loop_no_empties stale l fuel _ choices Hloop).
Qed.

(** Every call that returns keeps the stored coordinates inside the box. *)
Lemma exec_contained c l l' : contained l -> exec c l = Return l' -> contained l'.
Proof.
  intros IH Hexec.
  pose proof (setter_tables c l l' Hexec) as Hset.
  apply exec_Return in Hexec. intros Hbox xy Hxy.
  destruct c.
  - subst. destruct Hxy as [H|H]; now apply stored_nil in H.
  - apply boundingBox_Return in Hexec. destruct Hexec as (He & _ & _ & ->).
    apply empty_true in He. destruct He as [E1 E2]. simpl in Hxy.
    rewrite E1, E2 in Hxy. destruct Hxy as [H|H]; now apply stored_nil in H.
  - destruct Hset as [E1 E2]. rewrite E1, E2 in Hxy.
    unfold minDistanceToSameValue in Hexec.
    destruct (negb (empty l)); [discriminate|]. injection Hexec as <-.
    apply (IH Hbox xy Hxy).
  - destruct Hset as [E1 E2]. rewrite E1, E2 in Hxy.
    unfold minDistanceToDifferentValue in Hexec.
    destruct (negb (empty l)); [discriminate|]. injection Hexec as <-.
    apply (IH Hbox xy Hxy).
  - destruct Hset as [E1 E2]. rewrite E1, E2 in Hxy.
    unfold minDistanceToDifferentParameter in Hexec.
    destruct (negb (empty l)); [discriminate|]. injection Hexec as <-.
    apply (IH Hbox xy Hxy).
  - destruct Hset as [E1 E2]. rewrite E1, E2 in Hxy.
    unfold parameter in Hexec.
    destruct (theParameter =? badparameter); [discriminate|]. injection Hexec as <-.
    apply (IH Hbox xy Hxy).
  - subst. simpl in *. destruct Hxy as [H|H]; [now apply stored_nil in H|].
    apply (IH Hbox xy). auto.
  - apply add_Return in Hexec.
    destruct Hexec as [(_ & ->) | (Hin & _ & ->)]; [now apply IH|].
    simpl in *. destruct Hxy as [H|H]; [|apply (IH Hbox xy); auto].
    apply stored_push_back in H. destruct H as [-> | H]; [|apply (IH Hbox xy); auto].
    now apply (inside_in_box l (theX, theY)).
  - destruct Hexec as (choices & Hexec). apply chooseLabels_Return in Hexec.
    destruct Hexec as (Hloop & ->). simpl in *.
    apply (IH Hbox xy). destruct Hxy as [H|H]; auto.
    left. exact (chooseLabels_loop_stored stale l fuel _ choices xy Hloop H).
Qed.

(** So does every sequence of calls that return, whatever the calls. *)
Lemma run_contained cs : forall l l',
  contained l -> run cs l = Return l' -> contained l'.
Proof.
  induction cs as [|c cs IH]; simpl; intros l l' Hl H.
  - now injection H as <-.
  - destruct (exec c l) as [l1| |] eqn:E; try discriminate.
    apply (IH l1 l'); trivial. now apply (exec_contained c l l1).
Qed.

Lemma contained_new : contained LabelLocator.
Proof. discriminate. Qed.

(** A sequence of well formed calls that return leads from a reachable
    state to a reachable state. *)
Lemma run_reachable cs : forall l l',
  reachable l -> forallb well_formed cs = true -> run cs l = Return l' ->
  reachable l'.
Proof.
  induction cs as [|c cs IH]; simpl; intros l l' Hl Hwf H.
  - now injection H as <-.
  - apply andb_true_iff in Hwf. destruct Hwf as [Hc Hcs].
    destruct (exec c l) as [l1| |] eqn:E; try discriminate.
    apply (IH l1 l'); trivial. now apply (reachable_call l c l1).
Qed.

Lemma ForallOrdPairs_nth {A} (R : A -> A -> Prop) (c : list A) :
  ForallOrdPairs R c ->
  forall i j x y, (i < j)%nat ->
    nth_error c i = Some x -> nth_error c j = Some y -> R x y.
Proof.
  induction 1 as [|x0 c Hx _ IH]; intros i j x y Hij Hi Hj.
  - destruct i; discriminate.
  - destruct j as [|j]; [lia|]. simpl in Hj. destruct i as [|i]; simpl in Hi.
    + injection Hi as <-. apply nth_error_In in Hj.
      now apply (proj1 (Forall_forall _ _) Hx).
    + apply (IH i j); trivial. lia.
Qed.

(** Any two coordinates of the table that [chooseLabels] returns are
    apart by the minimum distance in force between them, when the destroyed
    node is read as it was. *)
Lemma chooseLabels_not_too_close stale l fuel choices l' :
  reads_intact stale ->
  numeric_keys (itsCurrentCoordinates l) ->
  chooseLabels stale fuel l = Return (choices, l') ->
  forall i j e1 e2, i <> j ->
    nth_error (entries choices) i = Some e1 ->
    nth_error (entries choices) j = Some e2 ->
    too_close l e1 e2 = false /\
    is_nan (snd (fst e1)) = false /\ is_nan (snd (fst e2)) = false.
Proof.
  intros Hstale Hk H i j e1 e2 Hij Hi Hj.
  apply chooseLabels_Return in H. destruct H as [H _].
  apply chooseLabels_loop_separated in H; trivial. destruct H as [Hnum Hpairs].
  split.
  - destruct (Nat.lt_total i j) as [Hlt | [-> | Hlt]]; [|congruence|].
    + apply (ForallOrdPairs_nth _ _ Hpairs i j); trivial.
    + rewrite too_close_sym. apply (ForallOrdPairs_nth _ _ Hpairs j i); trivial.
  - apply nth_error_In in Hi, Hj. destruct e1 as [[g1 s1] a], e2 as [[g2 s2] b].
    split; eapply numeric_keys_entries; eauto.
Qed.

(** The same, read by the three cases of the minimum distance. *)
Lemma too_close_cases l p1 c1 a p2 c2 b :
  too_close l (p1, c1, a) (p2, c2, b) = false ->
  (p1 = p2 -> (c1 =? c2)%float = true -> apart a b (itsMinDistanceToSameValue l)) /\
  (p1 = p2 -> (c1 =? c2)%float = false ->
   apart a b (itsMinDistanceToDifferentValue l)) /\
  (p1 <> p2 -> apart a b (itsMinDistanceToDifferentParameter l)).
Proof.
  unfold too_close, min_distance, apart. simpl. rewrite (DoubleFacts.eqb_sym c2 c1).
  intros H. repeat split.
  - intros -> E. now rewrite Z.eqb_refl, E in H.
  - intros -> E. now rewrite Z.eqb_refl, E in H.
  - intros Hp. apply not_eq_sym in Hp. apply Z.eqb_neq in Hp. now rewrite Hp in H.
Qed.

(** Calls that leave the minimum distances alone. *)
Lemma run_keeps_distances cs : forall l l',
  forallb keeps_distances cs = true -> run cs l = Return l' ->
  itsMinDistanceToSameValue l' = itsMinDistanceToSameValue l /\
  itsMinDistanceToDifferentValue l' = itsMinDistanceToDifferentValue l /\
  itsMinDistanceToDifferentParameter l' = itsMinDistanceToDifferentParameter l.
Proof.
  induction cs as [|c cs IH]; simpl; intros l l' Hk H.
  - injection H as <-. auto.
  - apply andb_true_iff in Hk. destruct Hk as [Hc Hcs].
    destruct (exec c l) as [l1| |] eqn:E; try discriminate.
    destruct (IH l1 l' Hcs H) as (-> & -> & ->).
    apply exec_Return in E. destruct c; try discriminate Hc.
    + subst. auto.
    + apply boundingBox_Return in E. destruct E as (_ & _ & _ & ->). auto.
    + unfold parameter in E. destruct (theParameter =? badparameter); [discriminate|].
      injection E as <-. auto.
    + subst. auto.
    + apply add_Return in E. destruct E as [(_ & ->) | (_ & _ & ->)]; auto.
    + destruct E as (choices & E). apply chooseLabels_Return in E.
      destruct E as (_ & ->). auto.
Qed.

(* ================================================================== *)
(** * The claims *)

(** The scenarios are states of a locator that calls lead to. *)
Lemma reachable_cascade : reachable cascade.
Proof. exact (run_reachable cascade_calls _ _ reachable_new eq_refl eq_refl). Qed.

Lemma reachable_temporal : reachable temporal.
Proof. exact (run_reachable temporal_calls _ _ reachable_new eq_refl eq_refl). Qed.

Lemma reachable_zero_distance : reachable zero_distance.
Proof. exact (run_reachable zero_distance_calls _ _ reachable_new eq_refl eq_refl). Qed.

(** C1: pairwise separation of the result of [chooseLabels] is what the
    program is after, and what it misses: [chooseLabels] hands [*best] to
    [removeCandidates] by reference, [removeCandidates] erases that node as
    soon as it reaches it (its distance to itself is 0), and every test
    after that reads the destroyed node.  In the cascade scenario (0,0) is
    chosen and erased, and the test of (10,10) reads the destroyed node:
    when the read finds the node written over, (10,10) stays, is chosen by
    the next iteration of the outer loop, and [chooseLabels] returns (0,0)
    and (10,10) for the same parameter and contour, which are not apart by
    the minimum distance 20. *)
Theorem chooseLabels_separation_fails :
  run cascade_calls LabelLocator = Return cascade /\
  chooseOne cascade [(0, 0); (10, 10)] 1 1%float = Some 0%nat /\
  removeCandidates (scribbled 0) cascade (itsCurrentCoordinates cascade)
    (0%nat, 0%nat, 0%nat) (0, 0) 1 1%float
  = [(1, [(1%float, [(10, 10)]); (2%float, [(5, 5)])])] /\
  chooseLabels scribbled 2 cascade
  = Return ([(1, [(1%float, [(0, 0); (10, 10)]); (2%float, [(5, 5)])])],
            set_coordinates cascade []
              [(1, [(1%float, [(0, 0); (10, 10)]); (2%float, [(5, 5)])])]) /\
  ~ apart (0, 0) (10, 10) (itsMinDistanceToSameValue cascade).
Proof.
  repeat (split; [reflexivity|]). unfold apart. now vm_compute.
Qed.

(** Termination of [chooseLabels], as far as it holds: when the minimum
    distance to the same value is positive, the loop of [chooseLabels] on a
    locator that calls lead to ends within as many iterations as there are
    candidates. *)
Theorem chooseLabels_terminates stale l :
  reachable l ->
  (0 <? itsMinDistanceToSameValue l)%float = true ->
  exists choices l',
    chooseLabels stale (size (itsCurrentCoordinates l)) l = Return (choices, l').
Proof.
  intros Hl Hmin. destruct (reachable_well_kept l Hl) as [Hk Hne].
  destruct (chooseLabels_loop_terminates stale l (size (itsCurrentCoordinates l))
              (itsCurrentCoordinates l) [] Hne Hk Hmin (Nat.le_refl _))
    as [choices H].
  unfold chooseLabels. rewrite H. eauto.
Qed.

Lemma chooseLabels_terminates_witness :
  exists choices l', chooseLabels intact 3 cascade = Return (choices, l').
Proof.
  exact (chooseLabels_terminates intact cascade
           (run_reachable cascade_calls _ _ reachable_new eq_refl eq_refl) eq_refl).
Defined.

(** C2: termination of [chooseLabels] fails when the minimum distance to
    the same value is 0.  After [minDistanceToSameValue(0)], [parameter(1)]
    and [add(1, 0, 0)], an iteration of the outer loop chooses (0,0) and
    removes nothing, the chosen candidate being at distance 0 from itself
    and [0 < 0] false: the candidates are the same after the iteration as
    before it, and no number of iterations ends the loop. *)
Theorem chooseLabels_zero_distance_never_ends :
  run zero_distance_calls LabelLocator = Return zero_distance /\
  (forall stale choices,
     contour_loop stale zero_distance 1 0 (itsCurrentCoordinates zero_distance) choices
     = Return (itsCurrentCoordinates zero_distance,
               push_back choices 1 1%float (0, 0))) /\
  removeEmpties (itsCurrentCoordinates zero_distance)
  = itsCurrentCoordinates zero_distance /\
  forall stale fuel, chooseLabels stale fuel zero_distance = OutOfFuel.
Proof.
  assert (Hstep : forall stale choices,
     contour_loop stale zero_distance 1 0 (itsCurrentCoordinates zero_distance) choices
     = Return (itsCurrentCoordinates zero_distance,
               push_back choices 1 1%float (0, 0))) by reflexivity.
  repeat split; trivial.
  intros stale fuel. unfold chooseLabels.
  assert (H : forall choices,
            chooseLabels_loop stale zero_distance fuel
              (itsCurrentCoordinates zero_distance) choices = OutOfFuel).
  { induction fuel as [|fuel IH]; intros choices; trivial.
    change (match contour_loop stale zero_distance 1 0
                    (itsCurrentCoordinates zero_distance) choices with
            | Return (candidates', choices') =>
                chooseLabels_loop stale zero_distance fuel (removeEmpties candidates')
                  choices'
            | Throw e => Throw e
            | OutOfFuel => OutOfFuel
            end = OutOfFuel).
    rewrite Hstep. apply IH. }
  now rewrite H.
Qed.

(** In the temporal bias scenario [removeCandidates] erases the chosen
    (0,0), and tests (100,100) by a read of the destroyed node. *)
Lemma temporal_pass (stale : nat -> reads) :
  removeCandidates (stale 0%nat) temporal (itsCurrentCoordinates temporal)
    (0%nat, 0%nat, 0%nat) (0, 0) 1 5%float
  = [(1, [(5%float,
           if erase temporal (stale 0%nat (0%nat, 0%nat, 1%nat) (0, 0)) 1 5%float 1 5%float
                (100, 100)
           then [] else [(100, 100)])])].
Proof.
  unfold removeCandidates.
  cbn [erase_from_parameters erase_from_contours erase_from_list fst snd
       itsCurrentCoordinates temporal].
  change (erase temporal (0, 0) 1 5%float 1 5%float (0, 0)) with true.
  cbn [andb negb same_place Nat.eqb fst snd].
  destruct (erase temporal _ 1 5%float 1 5%float (100, 100)); reflexivity.
Qed.

(** With fuel for two iterations [chooseLabels] returns on the temporal
    bias scenario: (0,0) and, unless that read finds a point within the
    minimum distance of it, (100,100). *)
Lemma chooseLabels_temporal (stale : nat -> reads) fuel :
  chooseLabels stale (S (S fuel)) temporal
  = Return
      ([(1, [(5%float,
              (0, 0) :: if erase temporal (stale 0%nat (0%nat, 0%nat, 1%nat) (0, 0))
                             1 5%float 1 5%float (100, 100)
                        then [] else [(100, 100)])])],
       set_coordinates temporal (itsPreviousCoordinates temporal)
         [(1, [(5%float,
                (0, 0) :: if erase temporal (stale 0%nat (0%nat, 0%nat, 1%nat) (0, 0))
                               1 5%float 1 5%float (100, 100)
                          then [] else [(100, 100)])])]).
Proof.
  unfold chooseLabels.
  change (chooseLabels_loop stale temporal (S (S fuel)) (itsCurrentCoordinates temporal) [])
    with (chooseLabels_loop stale temporal (S fuel)
            (removeEmpties
               (removeCandidates (stale 0%nat) temporal (itsCurrentCoordinates temporal)
                  (0%nat, 0%nat, 0%nat) (0, 0) 1 5%float))
            [(1, [(5%float, [(0, 0)])])]).
  rewrite temporal_pass.
  destruct (erase temporal _ 1 5%float 1 5%float (100, 100)).
  - reflexivity.
  - destruct fuel; reflexivity.
Qed.

(** C3, as the program has it: in the temporal bias scenario (candidates
    (0,0) and (100,100) of parameter 1 and contour 5, previous choice (2,2),
    minimum distance 1 to the same value) [chooseOne] takes (0,0), the
    candidate nearest to the previous choice, first; (100,100) is not within
    the minimum distance of it, and as long as the chosen point is read as a
    point that (100,100) is not within the minimum distance of, as (0,0)
    itself is, (100,100) stays a candidate and is chosen by the next
    iteration of the outer loop: [chooseLabels] returns both, (0,0) first.
    What the read of the destroyed node gives otherwise is left open. *)
Theorem temporal_bias_choice :
  run temporal_calls LabelLocator = Return temporal /\
  chooseOne temporal [(0, 0); (100, 100)] 1 5%float = Some 0%nat /\
  apart (0, 0) (100, 100) (itsMinDistanceToSameValue temporal) /\
  (forall stale fuel,
     apart (stale 0%nat (0%nat, 0%nat, 1%nat) (0, 0)) (100, 100)
       (itsMinDistanceToSameValue temporal) ->
     chooseLabels stale (S (S fuel)) temporal
     = Return ([(1, [(5%float, [(0, 0); (100, 100)])])],
               set_coordinates temporal (itsPreviousCoordinates temporal)
                 [(1, [(5%float, [(0, 0); (100, 100)])])])) /\
  chooseLabels intact 2 temporal
  = Return ([(1, [(5%float, [(0, 0); (100, 100)])])],
            set_coordinates temporal (itsPreviousCoordinates temporal)
              [(1, [(5%float, [(0, 0); (100, 100)])])]).
Proof.
  split; [reflexivity|]. split; [reflexivity|]. split; [reflexivity|].
  split; [|reflexivity].
  intros stale fuel H. rewrite chooseLabels_temporal.
  rewrite erase_too_close. unfold too_close. cbn [fst snd].
  change (min_distance temporal 1 5%float 1 5%float)
    with (itsMinDistanceToSameValue temporal).
  unfold apart in H. now rewrite H.
Qed.

(** C3 as stated fails: the destroyed node being read as it was, no run of
    [chooseLabels] on the scenario returns the table that holds (0,0)
    alone. *)
Lemma temporal_bias_counterexample :
  ~ exists fuel l',
      chooseLabels intact fuel temporal = Return ([(1, [(5%float, [(0, 0)])])], l').
Proof.
  intros (fuel & l' & H).
  destruct fuel as [|[|fuel]]; [discriminate H | discriminate H |].
  rewrite (chooseLabels_temporal intact fuel) in H.
  change (erase temporal (intact 0%nat (0%nat, 0%nat, 1%nat) (0, 0)) 1 5%float 1 5%float
            (100, 100)) with false in H.
  discriminate H.
Qed.

(** What [add] does right after [clear]: a point outside the bounding box
    is ignored, and any other point finds no active parameter. *)
Lemma add_after_clear l c x y :
  add c x y (clear l)
  = if inside l x y then Throw CannotAddBeforeParameter else Return (clear l).
Proof.
  unfold add.
  replace (inside (clear l) x y) with (inside l x y) by reflexivity.
  destruct (inside l x y); reflexivity.
Qed.

(** No call but [parameter] sets the active parameter. *)
Lemma after_call_parameter l c :
  not_parameter c = true ->
  itsActiveParameter l = badparameter ->
  itsActiveParameter (after_call l c) = badparameter.
Proof.
  intros Hc Hl. unfold after_call.
  destruct (exec c l) as [l'| |] eqn:E; trivial.
  apply exec_Return in E. destruct c; try discriminate Hc.
  - now subst.
  - apply boundingBox_Return in E. now destruct E as (_ & _ & _ & ->).
  - unfold minDistanceToSameValue in E.
    destruct (negb (empty l)); [discriminate|]. now injection E as <-.
  - unfold minDistanceToDifferentValue in E.
    destruct (negb (empty l)); [discriminate|]. now injection E as <-.
  - unfold minDistanceToDifferentParameter in E.
    destruct (negb (empty l)); [discriminate|]. now injection E as <-.
  - now subst.
  - apply add_Return in E. now destruct E as [(_ & ->) | (_ & _ & ->)].
  - destruct E as (choices & E). apply chooseLabels_Return in E.
    now destruct E as (_ & ->).
Qed.

Lemma after_calls_parameter cs : forall l,
  forallb not_parameter cs = true ->
  itsActiveParameter l = badparameter ->
  itsActiveParameter (after_calls l cs) = badparameter.
Proof.
  unfold after_calls. induction cs as [|c cs IH]; simpl; trivial.
  intros l Hcs Hl. apply andb_true_iff in Hcs. destruct Hcs as [Hc Hcs].
  apply IH; trivial. now apply after_call_parameter.
Qed.

(** C4, as the program has it: right after [clear()] the locator is empty
    and has no active parameter; and after any calls that follow, none of
    them [parameter()], every [add] of a point that the bounding box does
    not filter out (any point, when there is no box) throws the error that
    the specification calls InvalidState, while an [add] of a point outside
    the box returns and leaves the object as it is. *)
Theorem add_after_clear_throws l :
  empty (clear l) = true /\
  itsActiveParameter (clear l) = badparameter /\
  failure_of CannotAddBeforeParameter = InvalidState /\
  forall cs,
    forallb not_parameter cs = true ->
    forall c x y,
      add c x y (after_calls (clear l) cs)
      = if inside (after_calls (clear l) cs) x y
        then Throw CannotAddBeforeParameter
        else Return (after_calls (clear l) cs).
Proof.
  repeat split; trivial.
  intros cs Hcs c x y. unfold add.
  rewrite (after_calls_parameter cs (clear l) Hcs eq_refl).
  now destruct (inside _ x y).
Qed.

(** After [clear()] and two [add]s, a third [add] still throws. *)
Lemma add_after_clear_throws_witness :
  add 3%float 7 7
    (after_calls (clear cascade) [Call_add 1%float 0 0; Call_add 2%float 5 5])
  = Throw CannotAddBeforeParameter.
Proof.
  exact (proj2 (proj2 (proj2 (add_after_clear_throws cascade)))
           [Call_add 1%float 0 0; Call_add 2%float 5 5] eq_refl 3%float 7 7).
Defined.

(** C4 as stated fails: with the bounding box (0,0,10,10), the [add] of
    (20,20) after [clear()] returns, the point being outside the box. *)
Lemma add_after_clear_counterexample :
  run [Call_boundingBox 0 0 10 10] LabelLocator = Return boxed /\
  empty (clear boxed) = true /\
  add 1%float 20 20 (clear boxed) = Return (clear boxed).
Proof. repeat split. Qed.

(** C5: containment.  In every state that a sequence of calls leads to
    from the default constructed locator and in which a bounding box is set,
    every coordinate stored in the current table or in the previous table is
    inside the half-open box; and every call that returns keeps it so. *)
Theorem stored_coordinates_in_box cs l :
  run cs LabelLocator = Return l ->
  (itHasBBox l = true ->
   forall xy,
     stored (itsCurrentCoordinates l) xy \/ stored (itsPreviousCoordinates l) xy ->
     itsBBoxX1 l <= fst xy < itsBBoxX2 l /\ itsBBoxY1 l <= snd xy < itsBBoxY2 l) /\
  (forall c l', exec c l = Return l' -> contained l').
Proof.
  intros Hl. pose proof (run_contained cs _ _ contained_new Hl) as H. split.
  - exact H.
  - intros c l'. now apply exec_contained.
Qed.

(** After [boundingBox(0,0,100,100)], [parameter(1)], [add(1, 50, 50)] and
    [add(1, 150, 50)] the one stored point is inside the box. *)
Lemma stored_coordinates_in_box_witness :
  0 <= 50 < 100 /\ 0 <= 50 < 100.
Proof.
  refine (proj1 (stored_coordinates_in_box
            [Call_boundingBox 0 0 100 100; Call_parameter 1;
             Call_add 1%float 50 50; Call_add 1%float 150 50]
            (Build true 0 0 100 100 100%float 50%float 50%float 1 []
                   [(1, [(1%float, [(50, 50)])])])
            eq_refl)
          eq_refl (50, 50) _).
  left. exists 1, 1%float. simpl. auto.
Defined.

(** C6: frame rotation.  After [nextTime()] the previous table is the
    current table of the moment of the call and the current table is empty,
    nothing else being touched; and [chooseLabels] stores the table it
    returns as the current table, so that [nextTime()] after it makes the
    choices the previous table. *)
Theorem nextTime_rotates l :
  itsPreviousCoordinates (nextTime l) = itsCurrentCoordinates l /\
  itsCurrentCoordinates (nextTime l) = [] /\
  configuration (nextTime l) = configuration l /\
  itsActiveParameter (nextTime l) = itsActiveParameter l /\
  forall stale fuel choices l',
    chooseLabels stale fuel l = Return (choices, l') ->
    itsCurrentCoordinates l' = choices /\
    itsPreviousCoordinates l' = itsPreviousCoordinates l /\
    itsPreviousCoordinates (nextTime l') = choices /\
    itsCurrentCoordinates (nextTime l') = [].
Proof.
  repeat split; trivial;
    apply chooseLabels_Return in H; destruct H as [_ ->]; reflexivity.
Qed.

(** In the cascade scenario the choices become the previous table. *)
Lemma nextTime_rotates_witness :
  itsPreviousCoordinates
    (nextTime (set_coordinates cascade []
                 [(1, [(1%float, [(0, 0)]); (2%float, [(5, 5)])])]))
  = [(1, [(1%float, [(0, 0)]); (2%float, [(5, 5)])])].
Proof.
  exact (proj1 (proj2 (proj2
    (proj2 (proj2 (proj2 (proj2 (nextTime_rotates cascade))))
       intact 1%nat [(1, [(1%float, [(0, 0)]); (2%float, [(5, 5)])])] _ eq_refl)))).
Defined.

(** C7: the configuration is frozen once coordinates exist.
    [boundingBox] throws exactly when the locator is not empty or the box is
    empty ([x2 <= x1] or [y2 <= y1]); each of the three setters of a minimum
    distance throws exactly when the locator is not empty; a locator that
    stores a coordinate, current or previous, is not empty; the errors are
    those the specification calls InvalidConfiguration; and a call that
    returns found both tables empty and changed the setting it names and
    nothing else. *)
Theorem configuration_frozen l :
  (has_coordinates l -> empty l = false) /\
  (forall x1 y1 x2 y2,
     (exists e, boundingBox x1 y1 x2 y2 l = Throw e /\
                failure_of e = InvalidConfiguration)
     <-> (empty l = false \/ x2 <= x1 \/ y2 <= y1)) /\
  (forall d,
     (minDistanceToSameValue d l = Throw CannotChangeMinimumDistances
      <-> empty l = false) /\
     (minDistanceToDifferentValue d l = Throw CannotChangeMinimumDistances
      <-> empty l = false) /\
     (minDistanceToDifferentParameter d l = Throw CannotChangeMinimumDistances
      <-> empty l = false)) /\
  failure_of CannotChangeMinimumDistances = InvalidConfiguration /\
  (forall c l',
     exec c l = Return l' ->
     match c with
     | Call_boundingBox x1 y1 x2 y2 =>
         itsPreviousCoordinates l = [] /\ itsCurrentCoordinates l = [] /\
         l' = Build true x1 y1 x2 y2
                (itsMinDistanceToSameValue l) (itsMinDistanceToDifferentValue l)
                (itsMinDistanceToDifferentParameter l) (itsActiveParameter l) [] []
     | Call_minDistanceToSameValue d =>
         itsPreviousCoordinates l = [] /\ itsCurrentCoordinates l = [] /\
         l' = Build (itHasBBox l) (itsBBoxX1 l) (itsBBoxY1 l) (itsBBoxX2 l) (itsBBoxY2 l)
                d (itsMinDistanceToDifferentValue l)
                (itsMinDistanceToDifferentParameter l) (itsActiveParameter l) [] []
     | Call_minDistanceToDifferentValue d =>
         itsPreviousCoordinates l = [] /\ itsCurrentCoordinates l = [] /\
         l' = Build (itHasBBox l) (itsBBoxX1 l) (itsBBoxY1 l) (itsBBoxX2 l) (itsBBoxY2 l)
                (itsMinDistanceToSameValue l) d
                (itsMinDistanceToDifferentParameter l) (itsActiveParameter l) [] []
     | Call_minDistanceToDifferentParameter d =>
         itsPreviousCoordinates l = [] /\ itsCurrentCoordinates l = [] /\
         l' = Build (itHasBBox l) (itsBBoxX1 l) (itsBBoxY1 l) (itsBBoxX2 l) (itsBBoxY2 l)
                (itsMinDistanceToSameValue l) (itsMinDistanceToDifferentValue l)
                d (itsActiveParameter l) [] []
     | _ => configuration l' = configuration l
     end).
Proof.
  split; [apply has_coordinates_not_empty|].
  split; [|split; [|split; [reflexivity|]]].
  - intros x1 y1 x2 y2. unfold boundingBox.
    destruct (empty l); simpl.
    + destruct (x2 <=? x1) eqn:E1; simpl.
      * apply Z.leb_le in E1. split; eauto.
      * destruct (y2 <=? y1) eqn:E2.
        -- apply Z.leb_le in E2. split; eauto.
        -- apply Z.leb_gt in E1, E2. split.
           ++ intros (e & H & _). discriminate.
           ++ intros [H | [H | H]]; [discriminate | lia | lia].
    + split; eauto.
  - intros d. unfold minDistanceToSameValue, minDistanceToDifferentValue,
      minDistanceToDifferentParameter.
    destruct (empty l); simpl; repeat split; trivial; discriminate.
  - intros c l' Hexec. apply exec_Return in Hexec.
    destruct c.
    + now subst.
    + apply boundingBox_Return in Hexec. destruct Hexec as (He & _ & _ & ->).
      apply empty_true in He. destruct He as [-> ->]. auto.
    + unfold minDistanceToSameValue in Hexec.
      destruct (empty l) eqn:He; [|discriminate]. simpl in Hexec.
      apply empty_true in He. destruct He as [E1 E2]. rewrite E1, E2 in Hexec.
      injection Hexec as <-. auto.
    + unfold minDistanceToDifferentValue in Hexec.
      destruct (empty l) eqn:He; [|discriminate]. simpl in Hexec.
      apply empty_true in He. destruct He as [E1 E2]. rewrite E1, E2 in Hexec.
      injection Hexec as <-. auto.
    + unfold minDistanceToDifferentParameter in Hexec.
      destruct (empty l) eqn:He; [|discriminate]. simpl in Hexec.
      apply empty_true in He. destruct He as [E1 E2]. rewrite E1, E2 in Hexec.
      injection Hexec as <-. auto.
    + unfold parameter in Hexec.
      destruct (theParameter =? badparameter); [discriminate|]. now injection Hexec as <-.
    + now subst.
    + apply add_Return in Hexec. now destruct Hexec as [(_ & ->) | (_ & _ & ->)].
    + destruct Hexec as (choices & Hexec). apply chooseLabels_Return in Hexec.
      now destruct Hexec as (_ & ->).
Qed.

(** In the temporal bias scenario, which stores coordinates, a valid box
    is refused. *)
Lemma configuration_frozen_witness :
  exists e, boundingBox 0 0 10 10 temporal = Throw e /\
            failure_of e = InvalidConfiguration.
Proof.
  exact (proj2 (proj1 (proj2 (configuration_frozen temporal)) 0 0 10 10)
           (or_introl
              (proj1 (configuration_frozen temporal)
                 (ex_intro _ (0, 0)
                    (or_introl (ex_intro _ 1 (ex_intro _ 5%float (or_introl eq_refl)))))))).
Defined.

(** C8: cascade removal.  The calls of the scenario lead to the state
    [cascade]; there [chooseOne] takes (0,0) from the candidates of contour
    1, the first in insertion order; (10,10) is within the minimum distance
    20 of it and (5,5) of contour 2 is not within the minimum distance 1.
    But [removeCandidates] has (0,0) by reference, erases its node first,
    and tests (10,10) and (5,5) by reads of the destroyed node.  When the
    reads find what the node held, (10,10) is removed, (5,5) stays and is
    chosen for contour 2, and [chooseLabels] returns the table with (0,0)
    and (5,5); when they find the node written over, (10,10) stays and is
    returned as well. *)
Theorem cascade_removal_reads :
  run cascade_calls LabelLocator = Return cascade /\
  chooseOne cascade [(0, 0); (10, 10)] 1 1%float = Some 0%nat /\
  erase cascade (0, 0) 1 1%float 1 1%float (10, 10) = true /\
  erase cascade (0, 0) 1 1%float 1 2%float (5, 5) = false /\
  removeCandidates (intact 0) cascade (itsCurrentCoordinates cascade)
    (0%nat, 0%nat, 0%nat) (0, 0) 1 1%float
  = [(1, [(1%float, []); (2%float, [(5, 5)])])] /\
  chooseOne cascade [(5, 5)] 1 2%float = Some 0%nat /\
  (forall fuel,
     chooseLabels intact (S fuel) cascade
     = Return ([(1, [(1%float, [(0, 0)]); (2%float, [(5, 5)])])],
               set_coordinates cascade []
                 [(1, [(1%float, [(0, 0)]); (2%float, [(5, 5)])])])) /\
  erase cascade (30000, 30000) 1 1%float 1 1%float (10, 10) = false /\
  removeCandidates (scribbled 0) cascade (itsCurrentCoordinates cascade)
    (0%nat, 0%nat, 0%nat) (0, 0) 1 1%float
  = [(1, [(1%float, [(10, 10)]); (2%float, [(5, 5)])])] /\
  forall fuel,
    chooseLabels scribbled (S (S fuel)) cascade
    = Return ([(1, [(1%float, [(0, 0); (10, 10)]); (2%float, [(5, 5)])])],
              set_coordinates cascade []
                [(1, [(1%float, [(0, 0); (10, 10)]); (2%float, [(5, 5)])])]).
Proof.
  repeat (split; [reflexivity|]).
  split; [intros fuel; destruct fuel; reflexivity|].
  repeat (split; [reflexivity|]). intros fuel. destruct fuel; reflexivity.
Qed.

(** C9: [clear()] leaves the configuration untouched: the bounding box
    flag, the box and the three minimum distances are the same after it, so
    [inside] answers as before, and an [add] of a point outside the box
    after [clear()] returns without storing anything. *)
Theorem clear_keeps_configuration l :
  configuration (clear l) = configuration l /\
  (forall x y, inside (clear l) x y = inside l x y) /\
  (forall c x y,
     inside l x y = false ->
     itHasBBox (clear l) = true /\
     add c x y (clear l) = Return (clear l) /\
     empty (clear l) = true).
Proof.
  repeat split; trivial.
  - unfold inside in H. simpl. now destruct (itHasBBox l).
  - now rewrite add_after_clear, H.
Qed.

(** The box (0,0,10,10) still filters (20,20) after [clear()]. *)
Lemma clear_keeps_configuration_witness :
  itHasBBox (clear boxed) = true /\
  add 1%float 20 20 (clear boxed) = Return (clear boxed) /\
  empty (clear boxed) = true.
Proof.
  exact (proj2 (proj2 (clear_keeps_configuration boxed)) 1%float 20 20 eq_refl).
Defined.

(** C10: the default constructed locator has no bounding box, no active
    parameter, empty tables, and the minimum distances 100, 50 and 50.
    These are the distances that [chooseLabels] tests with when no setter is
    called, but it does not enforce them: after [parameter(1)],
    [add(1, 0, 0)] and [add(1, 60, 0)], (0,0) is chosen and erased, (60,0) is
    tested by a read of the destroyed node, and when the read finds the node
    written over [chooseLabels] returns (0,0) and (60,0), which are not
    apart by 100. *)
Theorem default_constructed_reads :
  itHasBBox LabelLocator = false /\
  itsActiveParameter LabelLocator = badparameter /\
  itsPreviousCoordinates LabelLocator = [] /\
  itsCurrentCoordinates LabelLocator = [] /\
  empty LabelLocator = true /\
  itsMinDistanceToSameValue LabelLocator = 100%float /\
  itsMinDistanceToDifferentValue LabelLocator = 50%float /\
  itsMinDistanceToDifferentParameter LabelLocator = 50%float /\
  forallb keeps_distances default_calls = true /\
  run default_calls LabelLocator = Return default_pair /\
  chooseLabels scribbled 2 default_pair
  = Return ([(1, [(1%float, [(0, 0); (60, 0)])])],
            set_coordinates default_pair [] [(1, [(1%float, [(0, 0); (60, 0)])])]) /\
  ~ apart (0, 0) (60, 0) 100%float.
Proof.
  repeat (split; [reflexivity|]). unfold apart. now vm_compute.
Qed.

(* ================================================================== *)
(** * Further properties *)

Lemma chooseLabels_loop_no_throw stale l fuel : forall candidates choices e,
  chooseLabels_loop stale l fuel candidates choices <> Throw e.
Proof.
  induction fuel as [|fuel IH]; intros candidates choices e;
    destruct candidates as [|[param contours] rest]; cbn [chooseLabels_loop];
    try discriminate.
  match goal with
  | |- context [contour_loop stale l ?n ?i ?c ?h] =>
      destruct (contour_loop_returns stale l n i c h) as (candidates' & choices' & ->)
  end.
  apply IH.
Qed.

(** The internal error of [chooseLabels] is never thrown, whatever the
    locator: [chooseOne] is only asked to choose from lists that are not
    empty, and then it does not return [end()]. *)
Theorem chooseLabels_never_throws stale fuel l e : chooseLabels stale fuel l <> Throw e.
Proof.
  unfold chooseLabels.
  destruct (chooseLabels_loop stale l fuel (itsCurrentCoordinates l) [])
    as [choices|e'|] eqn:E; try discriminate.
  now apply chooseLabels_loop_no_throw in E.
Qed.

(** Border bias on the first timestep: with the box (0,0,100,100) and no
    previous timestep, of the candidates (50,50) and (1,1) the one nearest
    to a side of the box, (1,1), is chosen; (50,50) is within the minimum
    distance 100 of it and is removed, before the node of (1,1) is: no
    destroyed node is read. *)
Theorem border_bias_choice :
  run border_calls LabelLocator = Return border /\
  chooseOne border [(50, 50); (1, 1)] 1 1%float = Some 1%nat /\
  deref [(50, 50); (1, 1)] 1 = (1, 1) /\
  forall stale fuel,
    chooseLabels stale (S fuel) border
    = Return ([(1, [(1%float, [(1, 1)])])],
              set_coordinates border [] [(1, [(1%float, [(1, 1)])])]).
Proof.
  repeat (split; [reflexivity|]). intros stale fuel. destruct fuel; reflexivity.
Qed.

(** Every coordinate that [chooseLabels] returns was a candidate, and the
    table it returns has no empty container. *)
Theorem chooseLabels_chooses_candidates stale fuel l choices l' :
  chooseLabels stale fuel l = Return (choices, l') ->
  (forall xy, stored choices xy -> stored (itsCurrentCoordinates l) xy) /\
  no_empties choices.
Proof.
  intros H. apply chooseLabels_Return in H. destruct H as [H _]. split.
  - intros xy. now apply (chooseLabels_loop_stored stale l fuel).
  - now apply (chooseLabels_loop_no_empties stale l fuel (itsCurrentCoordinates l)).
Qed.

Lemma chooseLabels_chooses_candidates_witness :
  (forall xy, stored [(1, [(1%float, [(0, 0)]); (2%float, [(5, 5)])])] xy ->
              stored (itsCurrentCoordinates cascade) xy) /\
  no_empties [(1, [(1%float, [(0, 0)]); (2%float, [(5, 5)])])].
Proof.
  exact (chooseLabels_chooses_candidates intact 1 cascade _ _ eq_refl).
Defined.

(** *** The loop that does not end *)

(** A chosen point is not too close to itself when the minimum distance to
    the same value is not positive. *)
Lemma too_close_self l g s xy :
  is_nan s = false -> (0 <? itsMinDistanceToSameValue l)%float = false ->
  too_close l (g, s, xy) (g, s, xy) = false.
Proof.
  intros Hs H. unfold too_close, min_distance. simpl.
  now rewrite Z.eqb_refl, (DoubleFacts.eqb_refl s Hs), point_distance_diag.
Qed.

(** Then no node is destroyed, and [removeCandidates] cleans up as by
    value. *)
Lemma removeCandidates_never_destroys stale l param contours rest i value coords best :
  is_nan value = false ->
  (0 <? itsMinDistanceToSameValue l)%float = false ->
  nth_error contours i = Some (value, coords) -> (best < length coords)%nat ->
  removeCandidates stale l ((param, contours) :: rest) (O, i, best) (deref coords best)
    param value
  = removed_by_value l ((param, contours) :: rest) (deref coords best) param value.
Proof.
  intros Hv Hmin Hi Hb.
  apply (removeCandidates_alive _ _ _ _ _ _ _ (param, value, deref coords best)).
  - now apply at_place_nth.
  - cbn [fst snd]. now rewrite erase_too_close, too_close_self.
Qed.

Lemma has_survivor_chooses stale l :
  (0 <? itsMinDistanceToSameValue l)%float = false ->
  chooses stale l (fun c _ => numeric_keys c /\ has_survivor l c).
Proof.
  intros Hmin param contours rest choices i value coords best
    [Hk (e & He & Hfar)] Hi Hb.
  assert (Hv : is_nan value = false).
  { apply (Hk param contours value coords); [now left | now apply nth_error_In in Hi]. }
  split; [now apply numeric_keys_removeCandidates|].
  rewrite (removeCandidates_never_destroys _ _ _ _ _ _ _ _ _ Hv Hmin Hi Hb).
  pose proof (In_entries_nth param contours rest i value coords _ Hi
                (deref_In coords best Hb)) as Hin.
  exists e. split.
  - rewrite entries_removed_by_value. apply filter_In. split; trivial.
    now rewrite too_close_sym, (Hfar _ Hin).
  - intros e' He'. rewrite entries_removed_by_value in He'.
    apply filter_In in He'. now apply Hfar.
Qed.

Lemma has_survivor_removeEmpties l candidates :
  numeric_keys candidates /\ has_survivor l candidates ->
  numeric_keys (removeEmpties candidates) /\ has_survivor l (removeEmpties candidates).
Proof.
  intros [Hk Hs]. split; [now apply numeric_keys_removeEmpties|].
  unfold has_survivor. now rewrite entries_removeEmpties.
Qed.

(** With a survivor among the candidates the outer loop never ends. *)
Lemma chooseLabels_loop_survivor stale l fuel :
  (0 <? itsMinDistanceToSameValue l)%float = false ->
  forall candidates choices,
    numeric_keys candidates /\ has_survivor l candidates ->
    chooseLabels_loop stale l fuel candidates choices = OutOfFuel.
Proof.
  intros Hmin. induction fuel as [|fuel IH]; intros candidates choices Hs;
    destruct candidates as [|[param contours] rest]; cbn [chooseLabels_loop]; trivial;
    try (now destruct Hs as (_ & e & [] & _)).
  match goal with
  | |- context [contour_loop stale l ?n ?i ?c ?h] =>
      destruct (contour_loop_returns stale l n i c h) as (candidates' & choices' & E)
  end.
  rewrite E. apply IH. apply has_survivor_removeEmpties.
  exact (contour_loop_invariant stale l _ (has_survivor_chooses stale l Hmin)
           _ _ _ _ _ _ Hs E).
Qed.

(** When the minimum distance to the same value is not positive, the first
    coordinate chosen is a survivor. *)
Lemma first_choice_survives stale l param value coords contours rest best :
  is_nan value = false ->
  (0 <? itsMinDistanceToSameValue l)%float = false ->
  (best < length coords)%nat ->
  has_survivor l
    (removeCandidates stale l ((param, (value, coords) :: contours) :: rest)
       (O, O, best) (deref coords best) param value).
Proof.
  intros Hv Hmin Hb.
  rewrite (removeCandidates_never_destroys stale l param ((value, coords) :: contours)
             rest 0 value coords best Hv Hmin eq_refl Hb).
  pose proof (too_close_self l param value (deref coords best) Hv Hmin) as Hself.
  exists (param, value, deref coords best). split.
  - rewrite entries_removed_by_value. apply filter_In. split; [|now rewrite Hself].
    apply (In_entries_nth _ _ _ 0%nat _ coords); trivial. now apply deref_In.
  - intros e' He'. rewrite entries_removed_by_value in He'.
    apply filter_In in He'. destruct He' as [_ He'].
    now destruct (too_close l (param, value, deref coords best) e').
Qed.

(** [chooseLabels] does not end when there is a candidate and the minimum
    distance to the same value is not positive: the first coordinate it
    chooses is never removed, so that the candidates never run out.  No
    node is destroyed, and nothing depends on what a read of a destroyed
    node gives. *)
Theorem chooseLabels_never_ends stale l :
  reachable l ->
  itsCurrentCoordinates l <> [] ->
  (0 <? itsMinDistanceToSameValue l)%float = false ->
  forall fuel, chooseLabels stale fuel l = OutOfFuel.
Proof.
  intros Hl Hne Hmin fuel. destruct (reachable_well_kept l Hl) as [Hk Hfull].
  unfold chooseLabels.
  destruct (itsCurrentCoordinates l) as [|[param contours] rest]; [congruence|].
  destruct (Hfull _ (or_introl eq_refl)) as [H1 H2]. simpl in H1, H2.
  destruct contours as [|[value coords] contours]; [congruence|].
  specialize (H2 _ (or_introl eq_refl)). simpl in H2.
  pose proof (Hk _ _ _ _ (or_introl eq_refl) (or_introl eq_refl)) as Hv.
  destruct fuel as [|fuel]; trivial.
  cbn [chooseLabels_loop contour_loop length nth_error].
  destruct (is_empty coords) eqn:Ec; [destruct coords; [congruence | discriminate]|].
  destruct (chooseOne l coords param value) as [best|] eqn:Eb;
    [|now apply chooseOne_Some in Eb].
  apply chooseOne_bound in Eb.
  match goal with
  | |- context [contour_loop stale l ?n ?i ?c ?h] =>
      destruct (contour_loop_returns stale l n i c h) as (candidates' & choices' & E)
  end.
  rewrite E, chooseLabels_loop_survivor; trivial.
  apply has_survivor_removeEmpties.
  refine (contour_loop_invariant stale l _ (has_survivor_chooses stale l Hmin)
            _ _ _ _ _ _ _ E).
  split; [now apply numeric_keys_removeCandidates|].
  now apply first_choice_survives.
Qed.

Lemma chooseLabels_never_ends_witness : chooseLabels intact 7 zero_distance = OutOfFuel.
Proof.
  refine (chooseLabels_never_ends intact zero_distance
            (run_reachable zero_distance_calls _ _ reachable_new eq_refl eq_refl)
            _ eq_refl 7%nat).
  discriminate.
Defined.

(* ================================================================== *)
(** * The order of the doubles: facts *)

Module DoubleOrder.

Lemma SFltb_key x y :
  SFltb x y = true <->
  SFnumber x = true /\ SFnumber y = true /\ key_lt (SFkey x) (SFkey y).
Proof.
  unfold SFltb, key_lt.
  destruct x as [[|]|[|]| |[|] mx ex], y as [[|]|[|]| |[|] my ey]; simpl;
    try (split; [discriminate | intros (? & ? & ?); try discriminate; lia]);
    try (split; [intros _; repeat split; lia | reflexivity]).
  - rewrite Pos.compare_cont_spec. simpl.
    destruct (Z.compare_spec ex ey), (Pos.compare_spec mx my); simpl;
      (split; [try discriminate; intros _; repeat split; lia
              | intros (_ & _ & Hk); try reflexivity; lia]).
  - rewrite Pos.compare_cont_spec. simpl.
    destruct (Z.compare_spec ex ey), (Pos.compare_spec mx my); simpl;
      (split; [try discriminate; intros _; repeat split; lia
              | intros (_ & _ & Hk); try reflexivity; lia]).
Qed.

Lemma SFeqb_key x y :
  SFeqb x y = true <->
  SFnumber x = true /\ SFnumber y = true /\ SFkey x = SFkey y.
Proof.
  unfold SFeqb.
  destruct x as [[|]|[|]| |[|] mx ex], y as [[|]|[|]| |[|] my ey]; simpl;
    try (split; [discriminate | intros (? & ? & ?); discriminate]);
    try (split; [intros _; repeat split | reflexivity]).
  - rewrite Pos.compare_cont_spec. simpl.
    destruct (Z.compare_spec ex ey), (Pos.compare_spec mx my); simpl;
      (split; [try discriminate; intros _; repeat split; congruence
              | intros (_ & _ & [= Hk1 Hk2]); try reflexivity; lia]).
  - rewrite Pos.compare_cont_spec. simpl.
    destruct (Z.compare_spec ex ey), (Pos.compare_spec mx my); simpl;
      (split; [try discriminate; intros _; repeat split; congruence
              | intros (_ & _ & [= Hk1 Hk2]); try reflexivity; lia]).
Qed.

Lemma is_nan_SFnumber x : SFnumber (Prim2SF x) = negb (is_nan x).
Proof.
  destruct (is_nan x) eqn:E.
  - unfold Prim2SF. now rewrite E.
  - destruct (Prim2SF x) eqn:E'; trivial.
    apply DoubleFacts.Prim2SF_nan in E'. congruence.
Qed.

(** [x < y] holds of two numbers, the place of [x] being before that of
    [y]. *)
Lemma ltb_key x y :
  (x <? y)%float = true <->
  is_nan x = false /\ is_nan y = false /\ key_lt (float_key x) (float_key y).
Proof.
  rewrite ltb_spec, SFltb_key, !is_nan_SFnumber, !negb_true_iff. reflexivity.
Qed.

Lemma eqb_key x y :
  (x =? y)%float = true <->
  is_nan x = false /\ is_nan y = false /\ float_key x = float_key y.
Proof.
  rewrite eqb_spec, SFeqb_key, !is_nan_SFnumber, !negb_true_iff. reflexivity.
Qed.

Lemma not_ltb_key x y :
  is_nan x = false -> is_nan y = false ->
  ((x <? y)%float = false <-> ~ key_lt (float_key x) (float_key y)).
Proof.
  intros Hx Hy. rewrite <- not_true_iff_false, ltb_key. tauto.
Qed.

Ltac key_order :=
  unfold key_lt in *;
  repeat match goal with
         | |- context [float_key ?x] =>
             let a := fresh "a" in let b := fresh "b" in let c := fresh "c" in
             destruct (float_key x) as [[a b] c]
         | H : context [float_key ?x] |- _ =>
             let a := fresh "a" in let b := fresh "b" in let c := fresh "c" in
             destruct (float_key x) as [[a b] c]
         end;
  simpl in *; lia.

Lemma ltb_irrefl x : (x <? x)%float = false.
Proof.
  apply not_true_iff_false. rewrite ltb_key. intros (_ & _ & H). key_order.
Qed.

Lemma ltb_trans x y z :
  (x <? y)%float = true -> (y <? z)%float = true -> (x <? z)%float = true.
Proof.
  rewrite !ltb_key. intros (Hx & Hy & H1) (_ & Hz & H2). repeat split; trivial.
  key_order.
Qed.

Lemma ltb_asym x y : (x <? y)%float = true -> (y <? x)%float = false.
Proof.
  intros H. apply not_true_iff_false. intros H'.
  pose proof (ltb_trans _ _ _ H H') as E. now rewrite ltb_irrefl in E.
Qed.

(** [x < y <= z] gives [x < z]. *)
Lemma ltb_leb_trans x y z :
  is_nan z = false ->
  (x <? y)%float = true -> (z <? y)%float = false -> (x <? z)%float = true.
Proof.
  intros Hz H1 H2. apply ltb_key in H1. destruct H1 as (Hx & Hy & H1).
  apply (not_ltb_key z y Hz Hy) in H2. apply ltb_key. repeat split; trivial.
  key_order.
Qed.

(** [x <= y <= z] gives [x <= z]. *)
Lemma leb_trans x y z :
  is_nan x = false -> is_nan y = false -> is_nan z = false ->
  (y <? x)%float = false -> (z <? y)%float = false -> (z <? x)%float = false.
Proof.
  intros Hx Hy Hz H1 H2.
  apply (not_ltb_key y x Hy Hx) in H1. apply (not_ltb_key z y Hz Hy) in H2.
  apply (not_ltb_key z x Hz Hx). key_order.
Qed.

(** [==] numbers are below the same doubles. *)
Lemma ltb_eqb_r x y z :
  (y =? z)%float = true -> (x <? y)%float = (x <? z)%float.
Proof.
  intros H. apply eqb_key in H. destruct H as (Hy & Hz & Hk).
  destruct (x <? z)%float eqn:E.
  - apply ltb_key in E. apply ltb_key. rewrite Hk. tauto.
  - apply not_true_iff_false. intros E'. apply ltb_key in E'.
    apply not_true_iff_false in E. apply E. apply ltb_key. rewrite <- Hk. tauto.
Qed.

Lemma ltb_eqb_l x y z :
  (x =? y)%float = true -> (x <? z)%float = (y <? z)%float.
Proof.
  intros H. apply eqb_key in H. destruct H as (Hx & Hy & Hk).
  destruct (y <? z)%float eqn:E.
  - apply ltb_key in E. apply ltb_key. rewrite Hk. tauto.
  - apply not_true_iff_false. intros E'. apply ltb_key in E'.
    apply not_true_iff_false in E. apply E. apply ltb_key. rewrite <- Hk. tauto.
Qed.

(** *** Rounding never makes a NaN of a mantissa that is not negative *)

Lemma shr_1_nonneg mrs : 0 <= shr_m mrs -> 0 <= shr_m (shr_1 mrs).
Proof.
  destruct mrs as [m r s]. simpl. destruct m as [|[p|p|]|p]; simpl; lia.
Qed.

Lemma iter_pos_nonneg p : forall mrs,
  0 <= shr_m mrs -> 0 <= shr_m (iter_pos shr_1 p mrs).
Proof.
  induction p as [p IH|p IH|]; intros mrs H; simpl.
  - apply IH, IH. now apply shr_1_nonneg.
  - now apply IH, IH.
  - now apply shr_1_nonneg.
Qed.

Lemma shr_fexp_nonneg m e l :
  0 <= m -> 0 <= shr_m (fst (shr_fexp prec emax m e l)).
Proof.
  intros Hm. unfold shr_fexp, shr.
  assert (H0 : 0 <= shr_m (shr_record_of_loc m l)) by (destruct l as [|[| |]]; trivial).
  destruct (fexp prec emax (Zdigits2 m + e) - e); simpl; trivial.
  now apply iter_pos_nonneg.
Qed.

Lemma round_nearest_even_nonneg m l : 0 <= m -> 0 <= round_nearest_even m l.
Proof.
  intros Hm. destruct l as [|[| |]]; simpl; trivial; [destruct (Z.even m)|]; lia.
Qed.

Lemma binary_round_aux_sign s m e l :
  0 <= m ->
  match binary_round_aux prec emax s m e l with
  | S754_zero s' | S754_infinity s' | S754_finite s' _ _ => s' = s
  | S754_nan => False
  end.
Proof.
  intros Hm. unfold binary_round_aux.
  pose proof (shr_fexp_nonneg m e l Hm) as H1.
  destruct (shr_fexp prec emax m e l) as [mrs' e']. simpl in H1.
  pose proof (shr_fexp_nonneg _ e' loc_Exact
                (round_nearest_even_nonneg _ (loc_of_shr_record mrs') H1)) as H2.
  destruct (shr_fexp prec emax _ e' loc_Exact) as [mrs'' e'']. simpl in H2.
  destruct (shr_m mrs''); try lia; trivial.
  destruct (e'' <=? emax - prec); trivial.
Qed.

Lemma binary_normalize_number m e :
  SFnumber (binary_normalize prec emax m e false) = true.
Proof.
  destruct m as [|p|p]; simpl; trivial; unfold binary_round;
    destruct (shl_align _ _ _) as [mz ez];
    match goal with
    | |- context [binary_round_aux _ _ ?s ?m ?e ?l] =>
        pose proof (binary_round_aux_sign s m e l (Pos2Z.is_nonneg _)) as H;
        destruct (binary_round_aux prec emax s m e l); trivial; contradiction
    end.
Qed.

Lemma SFsub_number x y :
  SFfinite x = true -> SFfinite y = true -> SFnumber (SF64sub x y) = true.
Proof.
  destruct x as [[|]|[|]| |sx mx ex], y as [[|]|[|]| |sy my ey];
    simpl; try discriminate; trivial.
  intros _ _. apply binary_normalize_number.
Qed.

Lemma SFmul_square x : SFnumber x = true -> SFnonneg (SF64mul x x) = true.
Proof.
  destruct x as [[|]|[|]| |s m e]; simpl; try discriminate; trivial.
  intros _. rewrite xorb_nilpotent.
  pose proof (binary_round_aux_sign false (Zpos (m * m)) (e + e) loc_Exact
                (Pos2Z.is_nonneg _)) as H.
  destruct (binary_round_aux _ _ _ _ _ _); subst; trivial; contradiction.
Qed.

Lemma SFadd_nonneg x y :
  SFnonneg x = true -> SFnonneg y = true -> SFnonneg (SF64add x y) = true.
Proof.
  destruct x as [[|]|[|]| |[|] mx ex], y as [[|]|[|]| |[|] my ey];
    simpl; try discriminate; trivial.
  intros _ _. unfold binary_round.
  destruct (shl_align _ _ _) as [mz ez].
  pose proof (binary_round_aux_sign false (Zpos mz) ez loc_Exact (Pos2Z.is_nonneg _)) as H.
  destruct (binary_round_aux _ _ _ _ _ _); subst; trivial; contradiction.
Qed.

Lemma SFsqrt_nonneg x : SFnonneg x = true -> SFnonneg (SF64sqrt x) = true.
Proof.
  destruct x as [[|]|[|]| |[|] m e]; simpl; try discriminate; trivial.
  intros _. unfold SFsqrt_core_binary.
  set (m' := match _ with Z0 => _ | Zpos _ => _ | Zneg _ => _ end).
  pose proof (Z.sqrtrem_sqrt m') as Hs. pose proof (Z.sqrt_nonneg m') as Hq.
  destruct (Z.sqrtrem m') as [q r]. simpl in Hs. subst q.
  match goal with
  | |- context [binary_round_aux _ _ ?s ?m ?e ?l] =>
      pose proof (binary_round_aux_sign s m e l Hq) as H;
      destruct (binary_round_aux prec emax s m e l); subst; trivial; contradiction
  end.
Qed.

(** A number that is not negative is not below zero. *)
Lemma SFnonneg_facts x :
  SFnonneg (Prim2SF x) = true -> is_nan x = false /\ (x <? 0)%float = false.
Proof.
  intros H. split.
  - destruct (is_nan x) eqn:E; trivial. unfold Prim2SF in H. now rewrite E in H.
  - rewrite ltb_spec. change (Prim2SF 0) with (S754_zero false).
    destruct (Prim2SF x) as [[|]|[|]| |[|] m e]; try discriminate; reflexivity.
Qed.

(** The double of an [int] that is not negative is not negative. *)
Lemma double_of_int_nonneg z :
  0 <= CInt.wrap z -> SFnonneg (Prim2SF (double_of_int z)) = true.
Proof.
  intros Hz. unfold double_of_int.
  pose proof (CIntFacts.wrap_range z) as Hr.
  destruct (DoubleFacts.binary_normalize_int (CInt.wrap z)) as [_ Hv]; [lia|].
  rewrite Prim2SF_SF2Prim; trivial.
  destruct (CInt.wrap z) as [|p|p]; try lia; trivial. simpl.
  destruct (DoubleFacts.binary_round_small false p) as (m & e & -> & _); trivial.
  apply DoubleFacts.digits2_pos_bound; lia.
Qed.

End DoubleOrder.

(** The distance of finite doubles is a number that is not negative. *)
Lemma distance_nonneg x1 y1 x2 y2 :
  SFfinite (Prim2SF x1) = true -> SFfinite (Prim2SF y1) = true ->
  SFfinite (Prim2SF x2) = true -> SFfinite (Prim2SF y2) = true ->
  SFnonneg (Prim2SF (distance x1 y1 x2 y2)) = true.
Proof.
  intros Hx1 Hy1 Hx2 Hy2. unfold distance.
  rewrite sqrt_spec, add_spec, !mul_spec, !sub_spec.
  apply DoubleOrder.SFsqrt_nonneg, DoubleOrder.SFadd_nonneg;
    apply DoubleOrder.SFmul_square, DoubleOrder.SFsub_number; trivial.
Qed.

Lemma point_distance_nonneg a b :
  is_nan (point_distance a b) = false /\ (point_distance a b <? 0)%float = false.
Proof.
  apply DoubleOrder.SFnonneg_facts. unfold point_distance.
  apply distance_nonneg; apply DoubleFacts.double_of_int_finite.
Qed.

(* ================================================================== *)
(** * Choosing: what is chosen *)

Section Closest.
Variable score : XY -> float.

Lemma first_least_one b : first_least score [b] 0 b.
Proof. exists [], []. repeat split; intros x []. Qed.

Lemma first_least_better seen kb b it :
  (forall x, In x seen -> fair score x) -> fair score it ->
  first_least score seen kb b ->
  (score it <? score b)%float = true ->
  first_least score (seen ++ [it]) (length seen) it.
Proof.
  intros Hfair Hit (before & after & -> & _ & Hb & Ha) E.
  exists (before ++ b :: after), []. repeat split; [|intros x []].
  intros x Hx. apply in_app_or in Hx. destruct Hx as [Hx | [<- | Hx]]; trivial.
  - exact (DoubleOrder.ltb_trans _ _ _ E (Hb x Hx)).
  - apply (DoubleOrder.ltb_leb_trans _ (score b)); trivial; [|now apply Ha].
    apply Hfair. apply in_or_app. simpl. auto.
Qed.

Lemma first_least_worse seen kb b it :
  first_least score seen kb b ->
  (score it <? score b)%float = false ->
  first_least score (seen ++ [it]) kb b.
Proof.
  intros (before & after & -> & Hk & Hb & Ha) E.
  exists before, (after ++ [it]). repeat split; trivial.
  - now rewrite <- app_assoc.
  - intros x Hx. apply in_app_or in Hx. destruct Hx as [Hx | [<- | []]]; auto.
Qed.

(** The candidate at the position of the first of the least. *)
Lemma first_least_nth c k b : first_least score c k b -> nth_error c k = Some b.
Proof.
  intros (before & after & -> & <- & _). now rewrite nth_error_app2, Nat.sub_diag.
Qed.

(** The loop keeps the first of the least. *)
Lemma closest_from_least c : forall seen kb b,
  (forall x, In x (seen ++ c) -> fair score x) ->
  first_least score seen kb b ->
  exists k b', closest_from score (score b) (Some kb) (length seen) c = Some k /\
               first_least score (seen ++ c) k b'.
Proof.
  induction c as [|it c IH]; intros seen kb b Hfair Hb.
  - exists kb, b. now rewrite app_nil_r.
  - assert (Hin : In b seen).
    { destruct Hb as (before & after & -> & _). apply in_elt. }
    assert (Hseen : forall x, In x seen -> fair score x).
    { intros x Hx. apply Hfair. apply in_or_app. auto. }
    assert (Hit : fair score it) by (apply Hfair, in_elt).
    cbn [closest_from]. rewrite (proj2 (Hseen b Hin)). cbn [orb].
    replace (seen ++ it :: c) with ((seen ++ [it]) ++ c) in *
      by (now rewrite <- app_assoc).
    replace (S (length seen)) with (length (seen ++ [it]))
      by (rewrite length_app; simpl; lia).
    destruct (score it <? score b)%float eqn:E.
    + apply IH; trivial. now apply (first_least_better seen kb b it).
    + apply IH; trivial. now apply (first_least_worse seen kb b it).
Qed.

(** Started with nothing taken, the loop returns the first of the
    candidates with the least score. *)
Lemma closest_from_first_least c :
  c <> [] -> (forall x, In x c -> fair score x) ->
  exists k b, closest_from score (-1)%float None 0 c = Some k /\ first_least score c k b.
Proof.
  destruct c as [|it c]; [congruence|]. intros _ Hfair. simpl.
  apply (closest_from_least c [it] 0%nat it Hfair (first_least_one it)).
Qed.

End Closest.

(** With scores that are all negative, each candidate replaces the one
    taken before it: the loop returns the last. *)
Lemma closest_from_negative score c : forall bestdist best i z,
  (bestdist <? 0)%float = true ->
  (forall x, In x (c ++ [z]) -> (score x <? 0)%float = true) ->
  closest_from score bestdist best i (c ++ [z]) = Some (i + length c)%nat.
Proof.
  induction c as [|it c IH]; intros bestdist best i z H0 H; simpl; rewrite H0; simpl.
  - now rewrite Nat.add_0_r.
  - rewrite IH; [f_equal; lia | apply H; now left | intros x Hx; apply H; now right].
Qed.

(** *** [mindistance] *)

Lemma std_min_cases a b :
  std_min a b = (if (b <? a)%float then b else a).
Proof. reflexivity. Qed.

(** From a running minimum [best] that is a number and not negative, the
    loop of [mindistance] returns [best] or the distance of a point, and
    nothing is below what it returns. *)
Lemma mindistance_from_least a coords : forall best,
  is_nan best = false -> (best <? 0)%float = false ->
  let r := mindistance_from best (double_of_int (fst a)) (double_of_int (snd a)) coords in
  (r = best \/ exists p, In p coords /\ r = point_distance a p) /\
  is_nan r = false /\ (best <? r)%float = false /\
  forall q, In q coords -> (point_distance a q <? r)%float = false.
Proof.
  induction coords as [|it coords IH]; intros best Hn H0; simpl.
  - repeat split; auto; [apply DoubleOrder.ltb_irrefl | intros q []].
  - rewrite H0. fold (point_distance a it).
    destruct (point_distance_nonneg a it) as [Hdn Hd0].
    unfold std_min.
    destruct (point_distance a it <? best)%float eqn:E.
    + destruct (IH (point_distance a it) Hdn Hd0) as (Hr & Hrn & Hle & Hall).
      repeat split; trivial.
      * destruct Hr as [-> | (p & Hp & ->)]; right; eauto.
      * apply not_true_iff_false. intros E'.
        pose proof (DoubleOrder.ltb_trans _ _ _ E E') as E''. congruence.
      * intros q [<- | Hq]; auto.
    + destruct (IH best Hn H0) as (Hr & Hrn & Hle & Hall).
      repeat split; trivial.
      * destruct Hr as [-> | (p & Hp & ->)]; eauto.
      * intros q [<- | Hq]; auto.
        apply (DoubleOrder.leb_trans _ best); trivial.
Qed.

(** *** The double of an [int] keeps the order *)

Module IntOrder.

Lemma iter_xO p k : Zpos (Pos.iter xO p k) = Zpos p * 2 ^ Zpos k.
Proof.
  induction k using Pos.peano_ind.
  - simpl. lia.
  - rewrite Pos.iter_succ, Pos2Z.inj_succ, Z.pow_succ_r by lia.
    change (Zpos (Pos.iter xO p k)~0) with (2 * Zpos (Pos.iter xO p k)). lia.
Qed.

(** The rounding of a positive integer of at most 53 bits: 53 bits of
    mantissa and the exponent that goes with them. *)
Lemma binary_round_exact p :
  Zpos (digits2_pos p) <= 53 ->
  exists m,
    binary_round prec emax false p 0
    = S754_finite false m (Zpos (digits2_pos p) - 53) /\
    Zpos m = Zpos p * 2 ^ (53 - Zpos (digits2_pos p)).
Proof.
  intros Hd. unfold binary_round, shl_align.
  remember (Zpos (digits2_pos p)) as d eqn:Ed.
  assert (Hd1 : 1 <= d) by lia.
  assert (Hf : fexp prec emax (d + 0) = d - 53).
  { unfold fexp, SpecFloat.emin, prec, emax. lia. }
  rewrite Hf.
  destruct (d - 53 - 0) eqn:E; try lia.
  - assert (Hp : Zpos (digits2_pos p) = 53) by lia.
    exists p. replace (d - 53) with 0 by lia. replace (53 - d) with 0 by lia. split.
    + apply DoubleFacts.binary_round_aux_exact; trivial.
      unfold SpecFloat.emin, emax, prec. lia.
    + simpl. lia.
  - assert (Hq : Zpos (digits2_pos (Pos.iter xO p p0)) = 53).
    { rewrite DoubleFacts.digits2_pos_iter_xO. lia. }
    exists (Pos.iter xO p p0). split.
    + apply DoubleFacts.binary_round_aux_exact; trivial.
      unfold SpecFloat.emin, emax, prec. lia.
    + rewrite iter_xO. f_equal. f_equal. lia.
Qed.

(** The place of the double of an [int] that is not negative. *)
Lemma key_double_of_int z :
  0 <= z < 2 ^ 31 ->
  float_key (double_of_int z)
  = match z with
    | Zpos p => (1, Zpos (digits2_pos p) - 53,
                 z * 2 ^ (53 - Zpos (digits2_pos p)))
    | _ => (0, 0, 0)
    end.
Proof.
  intros Hz. unfold float_key, double_of_int.
  rewrite CIntFacts.wrap_int by lia.
  destruct (DoubleFacts.binary_normalize_int z) as [_ Hv]; [lia|].
  rewrite Prim2SF_SF2Prim; trivial.
  destruct z as [|p|p]; try lia; trivial. simpl binary_normalize.
  destruct (binary_round_exact p) as (m & -> & Hm).
  - apply DoubleFacts.digits2_pos_bound; lia.
  - simpl. now rewrite Hm.
Qed.

(** On the [int]s that are not negative the conversion to [double] keeps
    the order. *)
Lemma ltb_double_of_int a b :
  0 <= a < 2 ^ 31 -> 0 <= b < 2 ^ 31 ->
  (double_of_int a <? double_of_int b)%float = (a <? b).
Proof.
  intros Ha Hb.
  assert (Hna : is_nan (double_of_int a) = false).
  { apply DoubleOrder.SFnonneg_facts, DoubleOrder.double_of_int_nonneg.
    rewrite CIntFacts.wrap_int; lia. }
  assert (Hnb : is_nan (double_of_int b) = false).
  { apply DoubleOrder.SFnonneg_facts, DoubleOrder.double_of_int_nonneg.
    rewrite CIntFacts.wrap_int; lia. }
  assert (Hiff : key_lt (float_key (double_of_int a)) (float_key (double_of_int b))
                 <-> a < b).
  { rewrite (key_double_of_int a Ha), (key_double_of_int b Hb). unfold key_lt.
    destruct a as [|p|p], b as [|q|q]; cbn [fst snd]; try lia.
    pose proof (DoubleFacts.digits2_pos_bound p 31) as Hp.
    pose proof (DoubleFacts.digits2_pos_bound q 31) as Hq.
    rewrite ?(DoubleFacts.digits2_pos_size p), ?(DoubleFacts.digits2_pos_size q) in *.
    pose proof (Pos.size_gt p) as Gp. pose proof (Pos.size_le p) as Lp.
    pose proof (Pos.size_gt q) as Gq. pose proof (Pos.size_le q) as Lq.
    set (dp := Pos.size p) in *. set (dq := Pos.size q) in *.
    assert (Gp' : Zpos p < 2 ^ Zpos dp) by (rewrite <- Pos2Z.inj_pow; lia).
    assert (Lp' : 2 ^ Zpos dp <= 2 * Zpos p).
    { rewrite <- Pos2Z.inj_pow. change (2 * Zpos p) with (Zpos p~0). lia. }
    assert (Gq' : Zpos q < 2 ^ Zpos dq) by (rewrite <- Pos2Z.inj_pow; lia).
    assert (Lq' : 2 ^ Zpos dq <= 2 * Zpos q).
    { rewrite <- Pos2Z.inj_pow. change (2 * Zpos q) with (Zpos q~0). lia. }
    specialize (Hp ltac:(lia) ltac:(lia)). specialize (Hq ltac:(lia) ltac:(lia)).
    split.
    - intros [H | (_ & [H | (H & Hm)])]; try lia.
      + assert (Zpos dp < Zpos dq) by lia.
        assert (2 ^ Zpos dp <= 2 ^ (Zpos dq - 1)) by (apply Z.pow_le_mono_r; lia).
        assert (2 ^ Zpos dq = 2 * 2 ^ (Zpos dq - 1)).
        { rewrite <- Z.pow_succ_r by lia. f_equal. lia. }
        lia.
      + assert (E : Zpos dp = Zpos dq) by lia. rewrite E in Hm.
        apply Z.mul_lt_mono_pos_r in Hm; trivial. apply Z.pow_pos_nonneg; lia.
    - intros Hlt. right. split; trivial.
      destruct (Z.lt_trichotomy (Zpos dp) (Zpos dq)) as [H | [H | H]].
      + left. lia.
      + right. split; [lia|]. rewrite H.
        apply Z.mul_lt_mono_pos_r; trivial. apply Z.pow_pos_nonneg; lia.
      + exfalso.
        assert (2 ^ Zpos dq <= 2 ^ (Zpos dp - 1)) by (apply Z.pow_le_mono_r; lia).
        assert (2 ^ Zpos dp = 2 * 2 ^ (Zpos dp - 1)).
        { rewrite <- Z.pow_succ_r by lia. f_equal. lia. }
        lia. }
  destruct (a <? b) eqn:E.
  - apply DoubleOrder.ltb_key. apply Z.ltb_lt in E. tauto.
  - apply (DoubleOrder.not_ltb_key _ _ Hna Hnb). apply Z.ltb_ge in E. rewrite Hiff. lia.
Qed.

End IntOrder.

(* ================================================================== *)
(** * Ordered maps: lookups and order *)

Module StdMapOrder.
Section Ordered.
Context {K V : Type}.
Variable less : K -> K -> bool.
Hypothesis less_irrefl : forall k, less k k = false.
Hypothesis less_trans : forall a b c, less a b = true -> less b c = true -> less a c = true.

(** After [m[k]] is changed, [find] returns the changed value. *)
Lemma find_update (k : K) (dflt : V) (f : V -> V) (m : list (K * V)) :
  StdMap.find less k (StdMap.update less k dflt f m)
  = Some (f (match StdMap.find less k m with Some v => v | None => dflt end)).
Proof.
  induction m as [|[k0 v0] m IH]; simpl.
  - now rewrite less_irrefl.
  - destruct (less k0 k) eqn:E1; simpl.
    + now rewrite E1.
    + destruct (less k k0) eqn:E2; simpl.
      * now rewrite less_irrefl.
      * now rewrite E1, E2.
Qed.

(** The keys after an update are the old keys and [k]. *)
Lemma In_update (k : K) (dflt : V) (f : V -> V) (m : list (K * V)) k1 v1 :
  In (k1, v1) (StdMap.update less k dflt f m) ->
  k1 = k \/ exists v, In (k1, v) m.
Proof.
  induction m as [|[k0 v0] m IH]; simpl.
  - intros [[= <- _] | []]. auto.
  - destruct (less k0 k).
    + intros [[= <- <-] | H]; [eauto|].
      destruct (IH H) as [-> | (v & Hv)]; eauto.
    + destruct (less k k0).
      * intros [[= <- _] | [[= <- <-] | H]]; eauto.
      * intros [[= <- _] | H]; eauto.
Qed.

(** An update keeps the keys in order. *)
Lemma update_sorted (k : K) (dflt : V) (f : V -> V) (m : list (K * V)) :
  sorted_keys less m -> sorted_keys less (StdMap.update less k dflt f m).
Proof.
  unfold sorted_keys. induction m as [|[k0 v0] m IH]; simpl; intros H.
  - repeat constructor.
  - inversion H as [|? ? Hm Hk0]; subst.
    pose proof (proj1 (Forall_forall _ _) Hk0) as Hall.
    destruct (less k0 k) eqn:E1.
    + constructor; [now apply IH|]. apply Forall_forall. intros [k1 v1] H1.
      apply In_update in H1. destruct H1 as [-> | (v & Hv)]; trivial.
      apply (Hall _ Hv).
    + destruct (less k k0) eqn:E2.
      * constructor; trivial. constructor; trivial.
        apply Forall_forall. intros [k1 v1] H1. simpl.
        apply (less_trans _ k0); trivial. apply (Hall _ H1).
      * constructor; trivial.
Qed.

(** In a map in order, a key that is stored is found, with its value. *)
Lemma find_In (k : K) (v : V) (m : list (K * V)) :
  sorted_keys less m -> In (k, v) m -> StdMap.find less k m = Some v.
Proof.
  unfold sorted_keys. induction m as [|[k0 v0] m IH]; simpl; intros H; [tauto|].
  inversion H as [|? ? Hm Hk0]; subst.
  intros [[= -> ->] | Hin].
  - now rewrite less_irrefl.
  - pose proof (proj1 (Forall_forall _ _) Hk0 _ Hin) as E. simpl in E.
    rewrite E. auto.
Qed.

(** No two entries of a map in order have the same key. *)
Lemma sorted_In_eq (k : K) (v v' : V) (m : list (K * V)) :
  sorted_keys less m -> In (k, v) m -> In (k, v') m -> v = v'.
Proof.
  intros Hs H H'. apply (find_In k v m Hs) in H. apply (find_In k v' m Hs) in H'.
  congruence.
Qed.

End Ordered.
End StdMapOrder.

Lemma Zltb_trans a b c : (a <? b) = true -> (b <? c) = true -> (a <? c) = true.
Proof. rewrite !Z.ltb_lt. lia. Qed.

(** A parameter that is not stored is not found. *)
Lemma find_param_None g (m : ParamCoordinates) :
  (forall cc, ~ In (g, cc) m) -> StdMap.find Z.ltb g m = None.
Proof.
  induction m as [|[g0 cc0] m IH]; simpl; trivial. intros H.
  destruct (g0 <? g) eqn:E1; [apply IH; intros cc Hcc; apply (H cc); auto|].
  destruct (g <? g0) eqn:E2; trivial.
  apply Z.ltb_ge in E1, E2. assert (g0 = g) by lia. subst.
  exfalso. apply (H cc0). auto.
Qed.

(** A contour value is looked up by [==]. *)
Lemma find_contour_eqb s s' (cc : ContourCoordinates) :
  (s' =? s)%float = true ->
  StdMap.find PrimFloat.ltb s cc = StdMap.find PrimFloat.ltb s' cc.
Proof.
  intros H. induction cc as [|[s0 c0] cc IH]; simpl; trivial.
  rewrite (DoubleOrder.ltb_eqb_r s0 s' s H), (DoubleOrder.ltb_eqb_l s' s s0 H), IH.
  reflexivity.
Qed.

Lemma find_contour_Some s s' c (cc : ContourCoordinates) :
  sorted_keys PrimFloat.ltb cc -> In (s', c) cc -> (s' =? s)%float = true ->
  StdMap.find PrimFloat.ltb s cc = Some c.
Proof.
  intros Hs Hin H. rewrite (find_contour_eqb s s' cc H).
  apply (StdMapOrder.find_In PrimFloat.ltb DoubleOrder.ltb_irrefl); trivial.
Qed.

(** A contour value that is [==] to no key is not found. *)
Lemma find_contour_None s (cc : ContourCoordinates) :
  is_nan s = false ->
  (forall s' c, In (s', c) cc -> is_nan s' = false /\ (s' =? s)%float = false) ->
  StdMap.find PrimFloat.ltb s cc = None.
Proof.
  intros Hs. induction cc as [|[s0 c0] cc IH]; simpl; trivial. intros H.
  destruct (s0 <? s)%float eqn:E1; [apply IH; intros s' c Hc; apply (H s' c); auto|].
  destruct (s <? s0)%float eqn:E2; trivial.
  destruct (H s0 c0 (or_introl eq_refl)) as [Hn Hne].
  rewrite (DoubleFacts.not_ltb_eqb s0 s Hn Hs E1 E2) in Hne. discriminate.
Qed.

(** *** The tables stay in order *)

Lemma sorted_table_nil : sorted_table [].
Proof. split; constructor. Qed.

Lemma Forall_update {K V} (less : K -> K -> bool) (Q : V -> Prop) k dflt f
  (m : list (K * V)) :
  Forall (fun kv => Q (snd kv)) m -> Q (f dflt) -> (forall v, Q v -> Q (f v)) ->
  Forall (fun kv => Q (snd kv)) (StdMap.update less k dflt f m).
Proof.
  intros Hm Hd Hf. induction Hm as [|[k0 v0] m H0 Hm IH]; simpl.
  - repeat constructor. exact Hd.
  - destruct (less k0 k); [constructor; trivial|].
    destruct (less k k0); repeat constructor; trivial. now apply Hf.
Qed.

Lemma sorted_table_push_back m g s xy :
  sorted_table m -> sorted_table (push_back m g s xy).
Proof.
  intros [Ho Hi]. unfold push_back. split.
  - apply StdMapOrder.update_sorted; trivial. exact Zltb_trans.
  - apply (Forall_update Z.ltb (sorted_keys PrimFloat.ltb)); trivial.
    + apply StdMapOrder.update_sorted; [exact DoubleOrder.ltb_trans | constructor].
    + intros v Hv. apply StdMapOrder.update_sorted; trivial.
      exact DoubleOrder.ltb_trans.
Qed.

Lemma well_stored_nil : well_stored [].
Proof.
  split; [apply numeric_keys_nil|]. split; [intros pit [] | apply sorted_table_nil].
Qed.

(** The table that [chooseLabels] returns is in order. *)
Lemma chooseLabels_loop_sorted stale l fuel candidates choices :
  chooseLabels_loop stale l fuel candidates [] = Return choices -> sorted_table choices.
Proof.
  intros H.
  apply (chooseLabels_loop_invariant stale l (fun _ h => sorted_table h)) in H; trivial.
  - intros param contours rest choices0 i value coords best Hh _ _.
    now apply sorted_table_push_back.
  - apply sorted_table_nil.
Qed.

(** Both tables of a locator that calls lead to are well stored. *)
Lemma reachable_well_stored l :
  reachable l ->
  well_stored (itsCurrentCoordinates l) /\ well_stored (itsPreviousCoordinates l).
Proof.
  induction 1 as [|l c l' Hl IH Hwf Hexec]; [split; apply well_stored_nil|].
  pose proof (setter_tables c l l' Hexec) as Hset.
  apply exec_Return in Hexec.
  destruct c.
  - subst. split; apply well_stored_nil.
  - destruct Hset as [-> ->]. exact IH.
  - destruct Hset as [-> ->]. exact IH.
  - destruct Hset as [-> ->]. exact IH.
  - destruct Hset as [-> ->]. exact IH.
  - destruct Hset as [-> ->]. exact IH.
  - subst. simpl. split; [apply well_stored_nil | apply IH].
  - apply add_Return in Hexec.
    destruct Hexec as [(_ & ->) | (_ & _ & ->)]; trivial.
    destruct IH as [(IH1 & IH2 & IH3) IHp]. simpl in *. split; trivial.
    split; [|split].
    + apply numeric_keys_push_back; trivial. now destruct (is_nan theContour).
    + now apply no_empties_push_back.
    + now apply sorted_table_push_back.
  - destruct Hexec as (choices & Hexec). apply chooseLabels_Return in Hexec.
    destruct Hexec as (Hloop & ->). simpl. destruct IH as [(IH1 & _) IHp].
    split; trivial. split; [|split].
    + exact (chooseLabels_loop_numeric stale l fuel _ choices IH1 Hloop).
    + exact (chooseLabels_loop_no_empties stale l fuel _ choices Hloop).
    + exact (chooseLabels_loop_sorted stale l fuel _ choices Hloop).
Qed.

(* ================================================================== *)
(** * The helpers of [chooseLabels], one by one *)

(** The distance the program computes between two pixels does not depend
    on their order, is [+0] from a pixel to itself, is never a NaN and is
    never below zero. *)
Theorem point_distance_facts a b :
  point_distance a b = point_distance b a /\
  point_distance a a = 0%float /\
  is_nan (point_distance a b) = false /\
  (point_distance a b <? 0)%float = false.
Proof.
  split; [apply point_distance_sym|]. split; [apply point_distance_diag|].
  apply point_distance_nonneg.
Qed.

Lemma previous_distance_fair prev :
  prev <> [] -> forall x,
  (exists p, In p prev /\ previous_distance prev x = point_distance x p) /\
  (forall q, In q prev -> (point_distance x q <? previous_distance prev x)%float = false).
Proof.
  intros Hp x. destruct prev as [|it prev]; [congruence|].
  unfold previous_distance, mindistance.
  cbn [mindistance_from]. change (-1 <? 0)%float with true. cbv iota.
  fold (point_distance x it).
  destruct (point_distance_nonneg x it) as [Hn H0].
  destruct (mindistance_from_least x prev (point_distance x it) Hn H0)
    as (Hr & _ & Hle & Hall).
  split.
  - destruct Hr as [-> | (p & Hin & ->)]; [exists it | exists p]; simpl; auto.
  - intros q [<- | Hq]; auto.
Qed.

(** [mindistance] returns [-1] for an empty collection; for a collection
    that is not empty it returns the distance to one of its points, and no
    point of the collection is nearer. *)
Theorem mindistance_least a coords :
  previous_distance [] a = (-1)%float /\
  (coords <> [] ->
   (exists p, In p coords /\ previous_distance coords a = point_distance a p) /\
   (forall q, In q coords ->
              (point_distance a q <? previous_distance coords a)%float = false)).
Proof.
  split; [reflexivity|]. intros H. now apply previous_distance_fair.
Qed.

Lemma mindistance_least_witness :
  (exists p, In p [(3, 4); (0, 1)] /\
             previous_distance [(3, 4); (0, 1)] (0, 0) = point_distance (0, 0) p) /\
  (forall q, In q [(3, 4); (0, 1)] ->
             PrimFloat.ltb (point_distance (0, 0) q)
                           (previous_distance [(3, 4); (0, 1)] (0, 0)) = false).
Proof.
  refine (proj2 (mindistance_least (0, 0) [(3, 4); (0, 1)]) _). discriminate.
Defined.

(** [chooseClosestToPrevious] returns [end()] for no candidates; with
    candidates and previous choices it returns the iterator of the first of
    the candidates that are nearest to a previous choice; and with an empty
    list of previous choices, every score being [-1], it returns the
    iterator of the last candidate. *)
Theorem chooseClosestToPrevious_first_least cands prev :
  chooseClosestToPrevious [] prev = None /\
  (cands <> [] -> prev <> [] ->
   exists k b, chooseClosestToPrevious cands prev = Some k /\
               deref cands k = b /\
               first_least (previous_distance prev) cands k b) /\
  (forall z, chooseClosestToPrevious (cands ++ [z]) [] = Some (length cands) /\
             deref (cands ++ [z]) (length cands) = z).
Proof.
  split; [reflexivity|]. split.
  - intros Hc Hp.
    destruct (closest_from_first_least (previous_distance prev) cands Hc)
      as (k & b & Hk & Hb).
    + intros x _. destruct (previous_distance_fair prev Hp x) as [(p & _ & E) _].
      unfold fair. rewrite E. apply point_distance_nonneg.
    + exists k, b. repeat split; trivial.
      unfold deref. apply nth_error_nth. now apply (first_least_nth _ _ _ _ Hb).
  - intros z. split.
    + unfold chooseClosestToPrevious.
      now rewrite (closest_from_negative (previous_distance []) cands).
    + unfold deref. rewrite app_nth2 by apply Nat.le_refl. now rewrite Nat.sub_diag.
Qed.

Lemma chooseClosestToPrevious_first_least_witness :
  exists k b, chooseClosestToPrevious [(100, 100); (0, 0); (4, 4)] [(2, 2)] = Some k /\
              deref [(100, 100); (0, 0); (4, 4)] k = b /\
              first_least (previous_distance [(2, 2)]) [(100, 100); (0, 0); (4, 4)] k b.
Proof.
  refine (proj1 (proj2 (chooseClosestToPrevious_first_least
                          [(100, 100); (0, 0); (4, 4)] [(2, 2)])) _ _);
    discriminate.
Defined.

Lemma CInt_min_min a b : CInt.min a b = Z.min a b.
Proof. unfold CInt.min. destruct (Z.ltb_spec b a); lia. Qed.

(** Far from the ends of the range, the score of [chooseClosestToBorder]
    is the double of the pixels to the nearest side of the box. *)
Lemma border_distance_pixels l it :
  small_box l -> small_point it ->
  border_distance l it = double_of_int (border_pixels l it) /\
  0 <= border_pixels l it < 2 ^ 31.
Proof.
  unfold small_box, small_point, small, border_distance, border_pixels.
  destruct it as [x y]. cbn [fst snd]. intros (H1 & H2 & H3 & H4) (Hx & Hy).
  unfold CInt.sub, CInt.abs.
  rewrite (CIntFacts.wrap_int (x - itsBBoxX1 l)), (CIntFacts.wrap_int (x - itsBBoxX2 l)),
    (CIntFacts.wrap_int (y - itsBBoxY1 l)), (CIntFacts.wrap_int (y - itsBBoxY2 l)) by lia.
  rewrite !CIntFacts.wrap_int by lia.
  rewrite !CInt_min_min. unfold std_min.
  rewrite IntOrder.ltb_double_of_int by lia.
  split; [|lia].
  destruct (Z.ltb_spec (Z.min (Z.abs (y - itsBBoxY1 l)) (Z.abs (y - itsBBoxY2 l)))
                       (Z.min (Z.abs (x - itsBBoxX1 l)) (Z.abs (x - itsBBoxX2 l))));
    f_equal; lia.
Qed.

(** [chooseClosestToBorder] returns [end()] for no candidates and the
    iterator of the first candidate when there is no bounding box; with a
    bounding box it returns the iterator of the first of the candidates with
    the fewest pixels to the nearest side of the box (box and candidates
    being far from the ends of the range of [int], where the differences do
    not overflow). *)
Theorem chooseClosestToBorder_first_least l cands :
  chooseClosestToBorder l [] = None /\
  (itHasBBox l = false ->
   forall first, chooseClosestToBorder l (first :: cands) = Some 0%nat) /\
  (itHasBBox l = true -> small_box l -> (forall x, In x cands -> small_point x) ->
   cands <> [] ->
   exists b before after,
     chooseClosestToBorder l cands = Some (length before) /\
     deref cands (length before) = b /\
     cands = before ++ b :: after /\
     (forall x, In x before -> border_pixels l b < border_pixels l x) /\
     (forall x, In x after -> border_pixels l b <= border_pixels l x)).
Proof.
  split; [reflexivity|]. split.
  - intros Hb first. unfold chooseClosestToBorder. now rewrite Hb.
  - intros Hb Hbox Hsmall Hc.
    assert (Hfair : forall x, In x cands -> fair (border_distance l) x).
    { intros x Hx. destruct (border_distance_pixels l x Hbox (Hsmall x Hx)) as [E Hr].
      unfold fair. rewrite E.
      apply DoubleOrder.SFnonneg_facts, DoubleOrder.double_of_int_nonneg.
      rewrite CIntFacts.wrap_int; lia. }
    destruct (closest_from_first_least (border_distance l) cands Hc Hfair)
      as (k & b & Hchoose & before & after & E & <- & Hbefore & Hafter).
    exists b, before, after.
    assert (Hin : forall x, In x before \/ x = b \/ In x after -> In x cands).
    { intros x Hx. rewrite E. apply in_or_app. simpl.
      destruct Hx as [Hx | [-> | Hx]]; auto. }
    destruct (border_distance_pixels l b Hbox (Hsmall b (Hin b (or_intror (or_introl eq_refl)))))
      as [Eb Hrb].
    split; [|split; [|split; [trivial|split]]].
    + unfold chooseClosestToBorder. destruct cands; [congruence|]. now rewrite Hb.
    + rewrite E. unfold deref. rewrite app_nth2 by apply Nat.le_refl.
      now rewrite Nat.sub_diag.
    + intros x Hx. specialize (Hbefore x Hx).
      destruct (border_distance_pixels l x Hbox (Hsmall x (Hin x (or_introl Hx))))
        as [Ex Hrx].
      rewrite Eb, Ex, IntOrder.ltb_double_of_int in Hbefore by lia.
      now apply Z.ltb_lt.
    + intros x Hx. specialize (Hafter x Hx).
      destruct (border_distance_pixels l x Hbox
                  (Hsmall x (Hin x (or_intror (or_intror Hx))))) as [Ex Hrx].
      rewrite Eb, Ex, IntOrder.ltb_double_of_int in Hafter by lia.
      now apply Z.ltb_ge.
Qed.

Lemma chooseClosestToBorder_first_least_witness :
  exists b before after,
    chooseClosestToBorder border [(50, 50); (1, 1); (99, 7)] = Some (length before) /\
    deref [(50, 50); (1, 1); (99, 7)] (length before) = b /\
    [(50, 50); (1, 1); (99, 7)] = before ++ b :: after /\
    (forall x, In x before -> border_pixels border b < border_pixels border x) /\
    (forall x, In x after -> border_pixels border b <= border_pixels border x).
Proof.
  refine (proj2 (proj2 (chooseClosestToBorder_first_least border
                          [(50, 50); (1, 1); (99, 7)])) eq_refl _ _ _).
  - unfold small_box, small. simpl. lia.
  - intros x [<- | [<- | [<- | []]]]; unfold small_point, small; simpl; lia.
  - discriminate.
Defined.

Lemma find_In_param g cc (m : ParamCoordinates) :
  sorted_table m -> In (g, cc) m -> StdMap.find Z.ltb g m = Some cc.
Proof.
  intros [Hs _] Hin.
  apply (StdMapOrder.find_In Z.ltb Z.ltb_irrefl); trivial.
Qed.

Lemma sorted_table_inner g cc (m : ParamCoordinates) :
  sorted_table m -> In (g, cc) m -> sorted_keys PrimFloat.ltb cc.
Proof.
  intros [_ Hs] Hin. exact (proj1 (Forall_forall _ _) Hs (g, cc) Hin).
Qed.

(** [chooseOne] in a locator that calls lead to: when the previous table
    has choices for the parameter and a contour value [==] to the contour,
    the choice is the first of the candidates nearest to one of those
    choices; when it has none, the choice is that of
    [chooseClosestToBorder]. *)
Theorem chooseOne_previous l cands g s :
  reachable l -> is_nan s = false -> cands <> [] ->
  (forall cc s' prev,
     In (g, cc) (itsPreviousCoordinates l) -> In (s', prev) cc ->
     (s' =? s)%float = true ->
     exists k b, chooseOne l cands g s = Some k /\
                 deref cands k = b /\
                 first_least (previous_distance prev) cands k b) /\
  ((forall cc s' prev,
      In (g, cc) (itsPreviousCoordinates l) -> In (s', prev) cc ->
      (s' =? s)%float = false) ->
   chooseOne l cands g s = chooseClosestToBorder l cands).
Proof.
  intros Hl Hs Hc.
  destruct (reachable_well_stored l Hl) as [_ (Hnum & Hne & Hsorted)].
  split.
  - intros cc s' prev Hcc Hprev E. unfold chooseOne.
    rewrite (find_In_param g cc _ Hsorted Hcc).
    rewrite (find_contour_Some s s' prev cc (sorted_table_inner g cc _ Hsorted Hcc) Hprev E).
    assert (Hp : prev <> []) by exact (proj2 (Hne (g, cc) Hcc) (s', prev) Hprev).
    destruct (closest_from_first_least (previous_distance prev) cands Hc)
      as (k & b & Hk & Hb).
    + intros x _. destruct (previous_distance_fair prev Hp x) as [(p & _ & Ep) _].
      unfold fair. rewrite Ep. apply point_distance_nonneg.
    + exists k, b. repeat split; trivial.
      unfold deref. apply nth_error_nth. now apply (first_least_nth _ _ _ _ Hb).
  - intros Hnone. unfold chooseOne.
    destruct (StdMap.find Z.ltb g (itsPreviousCoordinates l)) as [cc|] eqn:Eg; trivial.
    apply StdMapFacts.find_Some in Eg. destruct Eg as (g' & Hin & E1 & E2).
    apply Z.ltb_ge in E1, E2. assert (g' = g) by lia. subst g'.
    rewrite (find_contour_None s cc Hs); trivial.
    intros s' c Hc'. split; [exact (Hnum g cc s' c Hin Hc') | exact (Hnone cc s' c Hin Hc')].
Qed.

Lemma chooseOne_previous_witness :
  (forall cc s' prev,
     In (1, cc) (itsPreviousCoordinates temporal) -> In (s', prev) cc ->
     (s' =? 5)%float = true ->
     exists k b, chooseOne temporal [(100, 100); (0, 0)] 1 5%float = Some k /\
                 deref [(100, 100); (0, 0)] k = b /\
                 first_least (previous_distance prev) [(100, 100); (0, 0)] k b) /\
  ((forall cc s' prev,
      In (1, cc) (itsPreviousCoordinates temporal) -> In (s', prev) cc ->
      (s' =? 5)%float = false) ->
   chooseOne temporal [(100, 100); (0, 0)] 1 5%float
   = chooseClosestToBorder temporal [(100, 100); (0, 0)]).
Proof.
  refine (chooseOne_previous temporal [(100, 100); (0, 0)] 1 5%float
            reachable_temporal eq_refl _).
  discriminate.
Defined.

(* ================================================================== *)
(** * What [add] stores *)

Lemma find_update_other_param {V} (k k' : Z) (d : V) f (m : list (Z * V)) :
  k' <> k ->
  StdMap.find Z.ltb k' (StdMap.update Z.ltb k d f m) = StdMap.find Z.ltb k' m.
Proof.
  intros Hk. induction m as [|[k0 v0] m IH]; simpl.
  - destruct (Z.ltb_spec k k'); trivial. destruct (Z.ltb_spec k' k); trivial. lia.
  - destruct (Z.ltb_spec k0 k); simpl.
    + now rewrite IH.
    + destruct (Z.ltb_spec k k0); simpl.
      * destruct (Z.ltb_spec k k'); trivial.
        destruct (Z.ltb_spec k' k); [|lia].
        destruct (Z.ltb_spec k0 k'); [lia|].
        destruct (Z.ltb_spec k' k0); [trivial|lia].
      * assert (k0 = k) by lia. subst k0.
        destruct (Z.ltb_spec k k'); trivial.
        destruct (Z.ltb_spec k' k); trivial. lia.
Qed.

Lemma find_update_other_contour {V} (s s' : float) (d : V) f (cc : list (float * V)) :
  is_nan s = false -> is_nan s' = false ->
  (forall k v, In (k, v) cc -> is_nan k = false) ->
  (s' =? s)%float = false ->
  StdMap.find PrimFloat.ltb s' (StdMap.update PrimFloat.ltb s d f cc)
  = StdMap.find PrimFloat.ltb s' cc.
Proof.
  intros Hs Hs' Hcc Hne. induction cc as [|[k0 v0] cc IH]; simpl.
  - destruct (s <? s')%float eqn:E1; trivial.
    destruct (s' <? s)%float eqn:E2; trivial.
    rewrite (DoubleFacts.not_ltb_eqb s' s Hs' Hs E2 E1) in Hne. discriminate.
  - assert (IH' := IH (fun k v H => Hcc k v (or_intror H))).
    assert (Hk0 : is_nan k0 = false) by exact (Hcc k0 v0 (or_introl eq_refl)).
    destruct (k0 <? s)%float eqn:E1; simpl.
    + now rewrite IH'.
    + destruct (s <? k0)%float eqn:E2; simpl.
      * destruct (s <? s')%float eqn:E3; trivial.
        destruct (s' <? s)%float eqn:E4.
        -- destruct (k0 <? s')%float eqn:E5.
           ++ rewrite (DoubleOrder.ltb_trans _ _ _ E5 E4) in E1. discriminate.
           ++ now rewrite (DoubleOrder.ltb_trans _ _ _ E4 E2).
        -- rewrite (DoubleFacts.not_ltb_eqb s' s Hs' Hs E4 E3) in Hne. discriminate.
      * destruct (k0 <? s')%float eqn:E3; trivial.
        destruct (s' <? k0)%float eqn:E4; trivial.
        pose proof (DoubleFacts.not_ltb_eqb k0 s Hk0 Hs E1 E2) as Q1.
        pose proof (DoubleFacts.not_ltb_eqb k0 s' Hk0 Hs' E3 E4) as Q2.
        rewrite <- (DoubleFacts.eqb_congr k0 s' s Q2), Q1 in Hne. discriminate.
Qed.

Lemma lookup_push_back m g s xy :
  lookup (push_back m g s xy) g s = lookup m g s ++ [xy].
Proof.
  unfold lookup, push_back.
  rewrite (StdMapOrder.find_update Z.ltb Z.ltb_irrefl).
  rewrite (StdMapOrder.find_update PrimFloat.ltb DoubleOrder.ltb_irrefl).
  now destruct (StdMap.find Z.ltb g m).
Qed.

Lemma lookup_push_back_other m g s xy g' s' :
  numeric_keys m -> is_nan s = false -> is_nan s' = false ->
  g' <> g \/ (s' =? s)%float = false ->
  lookup (push_back m g s xy) g' s' = lookup m g' s'.
Proof.
  intros Hm Hs Hs' Hne. unfold lookup, push_back.
  destruct (Z.eq_dec g' g) as [-> | Hg].
  - destruct Hne as [Hne | Hne]; [congruence|].
    rewrite (StdMapOrder.find_update Z.ltb Z.ltb_irrefl).
    destruct (StdMap.find Z.ltb g m) as [cc|] eqn:Eg.
    + rewrite find_update_other_contour; trivial.
      apply StdMapFacts.find_Some in Eg. destruct Eg as (g' & Hin & _).
      intros k v Hk. exact (Hm g' cc k v Hin Hk).
    + rewrite find_update_other_contour; trivial. intros k v [].
  - now rewrite find_update_other_param.
Qed.

(** [add] of a point that passes the bounding box test, in a locator that
    calls lead to: the point is appended to the list found under the
    active parameter and the contour value, every other list is found as
    before, the current table has one coordinate more, and the previous
    table, the configuration and the active parameter are as before. *)
Theorem add_stores l c x y l' :
  reachable l -> is_nan c = false -> inside l x y = true ->
  add c x y l = Return l' ->
  itsActiveParameter l <> badparameter /\
  lookup (itsCurrentCoordinates l') (itsActiveParameter l) c
  = lookup (itsCurrentCoordinates l) (itsActiveParameter l) c ++ [(x, y)] /\
  (forall g' c', is_nan c' = false ->
     g' <> itsActiveParameter l \/ (c' =? c)%float = false ->
     lookup (itsCurrentCoordinates l') g' c' = lookup (itsCurrentCoordinates l) g' c') /\
  size (itsCurrentCoordinates l') = S (size (itsCurrentCoordinates l)) /\
  itsPreviousCoordinates l' = itsPreviousCoordinates l /\
  configuration l' = configuration l /\
  itsActiveParameter l' = itsActiveParameter l.
Proof.
  intros Hl Hc Hin Hadd. unfold add in Hadd. rewrite Hin in Hadd. simpl in Hadd.
  destruct (itsActiveParameter l =? badparameter) eqn:Ea; [discriminate|].
  injection Hadd as <-. apply Z.eqb_neq in Ea.
  destruct (reachable_well_kept l Hl) as [Hnum _].
  split; trivial. split; [apply lookup_push_back|].
  split; [intros g' c' Hc' Hne; now apply lookup_push_back_other|].
  split; [|now destruct l].
  destruct (entries_push_back (itsCurrentCoordinates l) (itsActiveParameter l) c (x, y))
    as (s' & Hperm & _).
  unfold size. destruct l; simpl in *. now rewrite (Permutation_length Hperm).
Qed.

Lemma add_stores_witness :
  itsActiveParameter cascade <> badparameter /\
  lookup (itsCurrentCoordinates
            (set_coordinates cascade (itsPreviousCoordinates cascade)
               (push_back (itsCurrentCoordinates cascade) 1 1%float (7, 7))))
         (itsActiveParameter cascade) 1%float
  = lookup (itsCurrentCoordinates cascade) (itsActiveParameter cascade) 1%float
    ++ [(7, 7)].
Proof.
  pose proof (add_stores cascade 1%float 7 7 _ reachable_cascade eq_refl eq_refl eq_refl)
    as H.
  exact (conj (proj1 H) (proj1 (proj2 H))).
Defined.

(* ================================================================== *)
(** * Cleaning up the candidates *)

(** [removeCandidates] has the chosen point by reference to a node of the
    table it cleans up.  Whatever the reads of the destroyed node give, it
    only erases coordinates and leaves every container in place, emptied or
    not.  When the node is not erased by its own test, no destroyed node is
    read and exactly the coordinates that the test with the chosen point
    holds of are erased; when it is, the table gets smaller, and what else
    is erased after it is up to the reads.  Reads that find what the node
    held erase exactly the coordinates that the test with the chosen point
    holds of. *)
Theorem removeCandidates_reference stale l m node v g s :
  incl (entries (removeCandidates stale l m node v g s)) (entries m) /\
  containers (removeCandidates stale l m node v g s) = containers m /\
  (forall e, at_place m node = Some e ->
     if erase l v g s (fst (fst e)) (snd (fst e)) (snd e)
     then (size (removeCandidates stale l m node v g s) < size m)%nat
     else entries (removeCandidates stale l m node v g s)
          = filter (fun c : entry =>
                      negb (erase l v g s (fst (fst c)) (snd (fst c)) (snd c)))
                   (entries m)) /\
  ((forall q, stale q v = v) ->
   entries (removeCandidates stale l m node v g s)
   = filter (fun c : entry => negb (erase l v g s (fst (fst c)) (snd (fst c)) (snd c)))
            (entries m)).
Proof.
  destruct (removeCandidates_sub stale l m node v g s) as (H1 & _ & H3).
  split; trivial. split; trivial. split.
  - intros e He.
    destruct (erase l v g s (fst (fst e)) (snd (fst e)) (snd e)) eqn:E.
    + now apply (removeCandidates_smaller _ _ _ _ _ _ _ e).
    + rewrite (removeCandidates_alive _ _ _ _ _ _ _ e He E).
      unfold removed_by_value. apply entries_prune.
  - intros H. rewrite (removeCandidates_intact _ _ _ _ _ _ _ H).
    unfold removed_by_value. apply entries_prune.
Qed.

Lemma removeEmpties_id m : no_empties m -> removeEmpties m = m.
Proof.
  intros H. unfold removeEmpties.
  assert (E : map (fun pit : Z * ContourCoordinates =>
                     (fst pit,
                      filter (fun cit : float * Coordinates => negb (is_empty (snd cit)))
                             (snd pit))) m = m).
  { rewrite <- (map_id m) at 2. apply map_ext_in. intros [g cc] Hin. simpl. f_equal.
    apply forallb_filter_id. apply forallb_forall. intros [s c] Hc.
    pose proof (proj2 (H (g, cc) Hin) (s, c) Hc) as Hne. simpl in *.
    now destruct c. }
  rewrite E. apply forallb_filter_id. apply forallb_forall. intros [g cc] Hin.
  pose proof (proj1 (H (g, cc) Hin)) as Hne. simpl in *. now destruct cc.
Qed.

Lemma no_empties_entries m : no_empties m -> entries m = [] -> m = [].
Proof.
  intros H E. destruct m as [|[g cc] m]; trivial. exfalso.
  destruct (H (g, cc) (or_introl eq_refl)) as [Hcc Hc]. simpl in *.
  destruct cc as [|[s c] cc]; [congruence|].
  specialize (Hc (s, c) (or_introl eq_refl)). simpl in Hc.
  destruct c as [|xy c]; [congruence|]. discriminate E.
Qed.

(** [removeEmpties] leaves no empty container, removes no coordinate and
    changes nothing in a table without empty containers; the table it
    leaves is empty, which ends the loop of [chooseLabels], exactly when no
    coordinate was left. *)
Theorem removeEmpties_exact m :
  no_empties (removeEmpties m) /\
  entries (removeEmpties m) = entries m /\
  (no_empties m -> removeEmpties m = m) /\
  (removeEmpties m = [] <-> entries m = []).
Proof.
  split; [apply no_empties_removeEmpties|]. split; [apply entries_removeEmpties|].
  split; [apply removeEmpties_id|]. split.
  - intros E. now rewrite <- entries_removeEmpties, E.
  - intros E. apply no_empties_entries; [apply no_empties_removeEmpties|].
    now rewrite entries_removeEmpties.
Qed.

(* ================================================================== *)
(** * Every candidate is accounted for *)

Lemma push_back_key choices g s xy :
  numeric_keys choices -> is_nan s = false ->
  exists s', Permutation (entries (push_back choices g s xy)) ((g, s', xy) :: entries choices) /\
             (s' =? s)%float = true.
Proof.
  intros Hh Hs.
  destruct (entries_push_back choices g s xy) as (s' & Hperm & Hs').
  exists s'. split; trivial.
  destruct Hs' as [-> | (E1 & E2 & cc & c & Hcc & Hc)].
  - now apply DoubleFacts.eqb_refl.
  - apply DoubleFacts.not_ltb_eqb; trivial. exact (Hh g cc s' c Hcc Hc).
Qed.

Section Accounts.
Variable stale : nat -> reads.
Variable l : state.
Variable start : ParamCoordinates.

Lemma chosen_from_chooses :
  chooses stale l (fun candidates choices =>
                     (numeric_keys candidates /\ numeric_keys choices) /\
                     (forall e, In e (entries candidates) -> In e (entries start)) /\
                     chosen_from start choices).
Proof.
  intros param contours rest choices i value coords k [[Hkc Hkh] [Hsub Hfrom]] Hnth Hk.
  assert (Hv : is_nan value = false).
  { apply nth_error_In in Hnth. exact (Hkc param contours value coords (or_introl eq_refl) Hnth). }
  destruct (push_back_key choices param value (deref coords k) Hkh Hv)
    as (s' & Hperm & Es').
  split; [split|split].
  - now apply numeric_keys_removeCandidates.
  - now apply numeric_keys_push_back.
  - intros e He. apply Hsub.
    exact (proj1 (removeCandidates_sub _ _ _ _ _ _ _) e He).
  - intros g s xy Hin. apply (Permutation_in _ Hperm) in Hin.
    destruct Hin as [[= <- <- <-] | Hin]; [|now apply Hfrom].
    exists value. split; trivial.
    apply Hsub. apply (In_entries_nth _ _ _ i _ coords); trivial. now apply deref_In.
Qed.

Hypothesis stale_intact : reads_intact stale.

Lemma accounted_chooses :
  chooses stale l (fun candidates choices =>
                     separated l candidates choices /\
                     accounted l start candidates choices).
Proof.
  intros param contours rest choices i value coords k [Hsep Hacc] Hnth Hk.
  split;
    [now apply (separated_chooses stale stale_intact l param contours rest choices i
                  value coords)|].
  destruct Hsep as (Hkc & Hkh & _).
  assert (Hv : is_nan value = false).
  { apply nth_error_In in Hnth. exact (Hkc param contours value coords (or_introl eq_refl) Hnth). }
  destruct (push_back_key choices param value (deref coords k) Hkh Hv)
    as (s' & Hperm & Es').
  intros c Hc. destruct (Hacc c Hc) as [Hin | (e & He & Hclose)].
  - destruct (too_close l (param, value, deref coords k) c) eqn:E.
    + right. exists (param, s', deref coords k). split.
      * apply (Permutation_in _ (Permutation_sym Hperm)). now left.
      * now rewrite (too_close_key l param value s' _ c Es').
    + left. rewrite (removeCandidates_by_value stale stale_intact),
        entries_removed_by_value.
      apply filter_In. split; trivial. now rewrite E.
  - right. exists e. split; trivial.
    apply (Permutation_in _ (Permutation_sym Hperm)). now right.
Qed.

End Accounts.

(** What is chosen was a candidate of the same parameter and of a contour
    value [==] to the one it is stored under. *)
Lemma chooseLabels_chosen_from stale fuel l choices l' :
  numeric_keys (itsCurrentCoordinates l) ->
  chooseLabels stale fuel l = Return (choices, l') ->
  chosen_from (itsCurrentCoordinates l) choices.
Proof.
  intros Hnum H. apply chooseLabels_Return in H. destruct H as [H _].
  apply (chooseLabels_loop_invariant stale l _
           (chosen_from_chooses stale l (itsCurrentCoordinates l))) in H.
  - apply H.
  - intros candidates choices0 [[Hkc Hkh] [Hsub Hfrom]].
    split; [split; trivial; now apply numeric_keys_removeEmpties|]. split; trivial.
    intros e He. rewrite entries_removeEmpties in He. now apply Hsub.
  - split; [split; [trivial | apply numeric_keys_nil]|]. split; [trivial|].
    intros g s xy [].
Qed.

(** The destroyed node being read as it was, every candidate is too close
    to a chosen coordinate. *)
Lemma chooseLabels_accounted stale fuel l choices l' :
  reads_intact stale ->
  numeric_keys (itsCurrentCoordinates l) ->
  chooseLabels stale fuel l = Return (choices, l') ->
  forall c, In c (entries (itsCurrentCoordinates l)) ->
            exists e, In e (entries choices) /\ too_close l e c = true.
Proof.
  intros Hstale Hnum H. apply chooseLabels_Return in H. destruct H as [H _].
  apply (chooseLabels_loop_invariant stale l _
           (accounted_chooses stale l (itsCurrentCoordinates l) Hstale)) in H.
  - intros c Hc. destruct H as [_ H]. destruct (H c Hc) as [[] | He]. exact He.
  - intros candidates choices0 [Hsep Hacc]. split; [now apply separated_removeEmpties|].
    intros c Hc. rewrite entries_removeEmpties. now apply Hacc.
  - split; [|intros c Hc; now left].
    repeat split; trivial; [apply numeric_keys_nil | constructor | intros e c []].
Qed.

(** Each coordinate of the table that [chooseLabels] returns on a locator
    that calls lead to was a candidate of the same parameter and of a
    contour value [==] to the one it is stored under, whatever the reads of
    destroyed nodes give; and when they give what the nodes held, the table
    accounts for every candidate: each candidate is too close to a chosen
    coordinate (a chosen one to itself), so that none could be added. *)
Theorem chooseLabels_accounts stale fuel l choices l' :
  reachable l ->
  chooseLabels stale fuel l = Return (choices, l') ->
  chosen_from (itsCurrentCoordinates l) choices /\
  (reads_intact stale ->
   forall c, In c (entries (itsCurrentCoordinates l)) ->
             exists e, In e (entries choices) /\ too_close l e c = true).
Proof.
  intros Hl H. pose proof (proj1 (reachable_well_kept l Hl)) as Hnum. split.
  - now apply (chooseLabels_chosen_from stale fuel l choices l').
  - intros Hstale. now apply (chooseLabels_accounted stale fuel l choices l').
Qed.

Lemma chooseLabels_accounts_witness :
  chosen_from (itsCurrentCoordinates cascade)
              [(1, [(1%float, [(0, 0)]); (2%float, [(5, 5)])])] /\
  (forall c, In c (entries (itsCurrentCoordinates cascade)) ->
             exists e, In e (entries [(1, [(1%float, [(0, 0)]); (2%float, [(5, 5)])])]) /\
                       too_close cascade e c = true).
Proof.
  destruct (chooseLabels_accounts intact 1 cascade _ _ reachable_cascade eq_refl)
    as [H1 H2].
  exact (conj H1 (H2 (fun _ _ _ => eq_refl))).
Defined.

(* ================================================================== *)
(** * The tables of a locator that calls lead to *)

(** In both tables of a locator that calls lead to, the parameters and the
    contour values of each parameter are in strictly increasing order, and
    every list met by iteration is the list that [find] gives for its keys;
    it is not empty and its contour value is a number. *)
Theorem reachable_lookup l m :
  reachable l -> m = itsCurrentCoordinates l \/ m = itsPreviousCoordinates l ->
  sorted_table m /\
  forall g cc s c, In (g, cc) m -> In (s, c) cc ->
    lookup m g s = c /\ c <> [] /\ is_nan s = false.
Proof.
  intros Hl Hm.
  assert (Hw : well_stored m).
  { destruct (reachable_well_stored l Hl). now destruct Hm as [-> | ->]. }
  destruct Hw as (Hnum & Hne & Hsorted). split; trivial.
  intros g cc s c Hcc Hc. split; [|split].
  - unfold lookup. rewrite (find_In_param g cc m Hsorted Hcc).
    rewrite (find_contour_Some s s c cc (sorted_table_inner g cc m Hsorted Hcc) Hc); trivial.
    apply DoubleFacts.eqb_refl. exact (Hnum g cc s c Hcc Hc).
  - exact (proj2 (Hne (g, cc) Hcc) (s, c) Hc).
  - exact (Hnum g cc s c Hcc Hc).
Qed.

Lemma reachable_lookup_witness :
  sorted_table (itsCurrentCoordinates cascade) /\
  forall g cc s c, In (g, cc) (itsCurrentCoordinates cascade) -> In (s, c) cc ->
    lookup (itsCurrentCoordinates cascade) g s = c /\ c <> [] /\ is_nan s = false.
Proof.
  exact (reachable_lookup cascade _ reachable_cascade (or_introl eq_refl)).
Defined.

Lemma no_empties_stored m : no_empties m -> m <> [] -> exists xy, stored m xy.
Proof.
  intros H Hm. destruct (entries m) as [|[[g s] xy] es] eqn:E.
  - now apply no_empties_entries in E.
  - exists xy, g, s. rewrite E. now left.
Qed.

(** In a locator that calls lead to, [empty] returns true exactly when no
    coordinate is stored, in the current or in the previous table: no
    emptied container is ever left behind to make the locator look
    used. *)
Theorem reachable_empty l :
  reachable l -> (empty l = true <-> ~ has_coordinates l).
Proof.
  intros Hl. destruct (reachable_well_stored l Hl) as [(_ & Hc & _) (_ & Hp & _)].
  split.
  - intros E Hhas. apply has_coordinates_not_empty in Hhas. congruence.
  - intros Hno. apply empty_true.
    destruct (itsPreviousCoordinates l) as [|p ps] eqn:Ep.
    + destruct (itsCurrentCoordinates l) as [|c cs] eqn:Ec; [tauto|].
      exfalso. apply Hno.
      destruct (no_empties_stored _ Hc) as [xy Hxy]; [discriminate|].
      exists xy. left. now rewrite Ec.
    + exfalso. apply Hno.
      destruct (no_empties_stored _ Hp) as [xy Hxy]; [discriminate|].
      exists xy. right. now rewrite Ep.
Qed.

Lemma reachable_empty_witness : empty cascade = true <-> ~ has_coordinates cascade.
Proof. exact (reachable_empty cascade reachable_cascade). Defined.

(* ================================================================== *)
(** * Choosing again, and the box *)

Lemma too_close_set_coordinates l p c a b :
  too_close (set_coordinates l p c) a b = too_close l a b.
Proof. now destruct l. Qed.

(** Choosing again: [chooseLabels] called a second time, on the table the
    first call left, returns coordinates of that table only, each for its
    parameter and for a contour value [==] to the one it had; and when the
    reads of destroyed nodes give what the nodes held, in both calls, it
    returns every coordinate of that table. *)
Theorem chooseLabels_twice stale stale' fuel fuel' l choices l' choices' l'' :
  reachable l ->
  chooseLabels stale fuel l = Return (choices, l') ->
  chooseLabels stale' fuel' l' = Return (choices', l'') ->
  chosen_from choices choices' /\
  (reads_intact stale -> reads_intact stale' ->
   forall g s xy, In (g, s, xy) (entries choices) ->
     exists s', In (g, s', xy) (entries choices') /\ (s' =? s)%float = true).
Proof.
  intros Hl H1 H2.
  destruct (chooseLabels_Return _ _ _ _ _ H1) as [Hloop ->].
  destruct (reachable_well_kept l Hl) as [Hnum _].
  pose proof (chooseLabels_loop_numeric stale l fuel _ choices Hnum Hloop) as Hkeys.
  assert (Hcur : itsCurrentCoordinates
                   (set_coordinates l (itsPreviousCoordinates l) choices) = choices)
    by now destruct l.
  pose proof (chooseLabels_chosen_from stale' fuel' _ choices' l''
                (eq_ind_r numeric_keys Hkeys Hcur) H2) as Hfrom.
  rewrite Hcur in Hfrom. split; trivial.
  intros Hstale Hstale' g s xy Hc.
  destruct (chooseLabels_loop_separated stale Hstale l fuel _ choices Hnum Hloop)
    as [_ Hpairs].
  pose proof (chooseLabels_accounted stale' fuel' _ choices' l'' Hstale'
                (eq_ind_r numeric_keys Hkeys Hcur) H2) as Hacc.
  rewrite Hcur in Hacc.
  destruct (Hacc _ Hc) as ([[g2 s2] xy2] & He & Hclose).
  rewrite too_close_set_coordinates in Hclose.
  destruct (Hfrom g2 s2 xy2 He) as (s2' & He' & Es).
  rewrite (too_close_key l g2 s2' s2 xy2 _ Es) in Hclose.
  destruct (ForallOrdPairs_In Hpairs _ _ He' Hc) as [E | [E | E]].
  - injection E as -> -> ->. now exists s2.
  - congruence.
  - rewrite too_close_sym in E. congruence.
Qed.

Lemma chooseLabels_twice_witness :
  chosen_from [(1, [(1%float, [(0, 0)]); (2%float, [(5, 5)])])]
              [(1, [(1%float, [(0, 0)]); (2%float, [(5, 5)])])] /\
  (forall g s xy,
     In (g, s, xy) (entries [(1, [(1%float, [(0, 0)]); (2%float, [(5, 5)])])]) ->
     exists s', In (g, s', xy) (entries [(1, [(1%float, [(0, 0)]); (2%float, [(5, 5)])])]) /\
                (s' =? s)%float = true).
Proof.
  destruct (chooseLabels_twice intact intact 1 1 cascade _ _ _ _ reachable_cascade
              eq_refl eq_refl) as [H1 H2].
  exact (conj H1 (H2 (fun _ _ _ => eq_refl) (fun _ _ _ => eq_refl))).
Defined.

(** The bounding box of a locator that calls lead to is never empty: once
    a box is set, its left side is below its right side and its top below
    its bottom, whatever is called afterwards. *)
Theorem reachable_box_not_empty l :
  reachable l -> itHasBBox l = true ->
  itsBBoxX1 l < itsBBoxX2 l /\ itsBBoxY1 l < itsBBoxY2 l.
Proof.
  induction 1 as [|l c l' Hl IH Hwf Hexec]; [discriminate|].
  apply exec_Return in Hexec. destruct c.
  - subst. exact IH.
  - apply boundingBox_Return in Hexec. destruct Hexec as (_ & Hx & Hy & ->). now simpl.
  - unfold minDistanceToSameValue in Hexec.
    destruct (negb (empty l)); [discriminate|]. injection Hexec as <-. exact IH.
  - unfold minDistanceToDifferentValue in Hexec.
    destruct (negb (empty l)); [discriminate|]. injection Hexec as <-. exact IH.
  - unfold minDistanceToDifferentParameter in Hexec.
    destruct (negb (empty l)); [discriminate|]. injection Hexec as <-. exact IH.
  - unfold parameter in Hexec.
    destruct (theParameter =? badparameter); [discriminate|]. injection Hexec as <-.
    exact IH.
  - subst. exact IH.
  - apply add_Return in Hexec. destruct Hexec as [(_ & ->) | (_ & _ & ->)]; exact IH.
  - destruct Hexec as (choices & Hexec). apply chooseLabels_Return in Hexec.
    destruct Hexec as (_ & ->). exact IH.
Qed.

Lemma reachable_box_not_empty_witness :
  itsBBoxX1 border < itsBBoxX2 border /\ itsBBoxY1 border < itsBBoxY2 border.
Proof.
  refine (reachable_box_not_empty border _ eq_refl).
  exact (run_reachable border_calls _ _ reachable_new eq_refl eq_refl).
Defined.

(** No coordinate is ever stored under the parameter 0, the value that
    stands for no active parameter: [add] refuses it, and [chooseLabels]
    and [nextTime] only move what was stored. *)
Theorem reachable_parameters l :
  reachable l ->
  forall g s xy,
    In (g, s, xy) (entries (itsCurrentCoordinates l)) \/
    In (g, s, xy) (entries (itsPreviousCoordinates l)) ->
    g <> badparameter.
Proof.
  induction 1 as [|l c l' Hl IH Hwf Hexec]; [intros g s xy [[] | []]|].
  pose proof (reachable_well_kept l Hl) as [Hnum _].
  pose proof (setter_tables c l l' Hexec) as Hset.
  apply exec_Return in Hexec. destruct c;
    try (match type of Hset with _ /\ _ => destruct Hset as [-> ->]; exact IH end).
  - subst. intros g s xy [[] | []].
  - subst. simpl. intros g s xy [[] | H]. apply (IH g s xy). now left.
  - apply add_Return in Hexec. destruct Hexec as [(_ & ->) | (_ & Ha & ->)]; trivial.
    intros g s xy. replace (itsPreviousCoordinates _) with (itsPreviousCoordinates l)
      by now destruct l.
    replace (itsCurrentCoordinates _)
      with (push_back (itsCurrentCoordinates l) (itsActiveParameter l) theContour
              (theX, theY)) by now destruct l.
    intros [H | H]; [|apply (IH g s xy); now right].
    destruct (entries_push_back (itsCurrentCoordinates l) (itsActiveParameter l)
                theContour (theX, theY)) as (s' & Hperm & _).
    apply (Permutation_in _ Hperm) in H. destruct H as [[= <- _ _] | H]; trivial.
    apply (IH g s xy). now left.
  - destruct Hexec as (choices & Hexec).
    pose proof (chooseLabels_chosen_from _ _ _ _ _ Hnum Hexec) as Hfrom.
    apply chooseLabels_Return in Hexec. destruct Hexec as (_ & ->).
    intros g s xy. replace (itsPreviousCoordinates _) with (itsPreviousCoordinates l)
      by now destruct l.
    replace (itsCurrentCoordinates _) with choices by now destruct l.
    intros [H | H]; [|apply (IH g s xy); now right].
    destruct (Hfrom g s xy H) as (s' & Hin & _). apply (IH g s' xy). now left.
Qed.

Lemma reachable_parameters_witness :
  In (1, 5%float, (2, 2)) (entries (itsPreviousCoordinates temporal)) /\
  1 <> badparameter.
Proof.
  assert (H : In (1, 5%float, (2, 2)) (entries (itsPreviousCoordinates temporal)))
    by (left; reflexivity).
  exact (conj H (reachable_parameters temporal reachable_temporal 1 5%float (2, 2)
                   (or_intror H))).
Defined.

(* ================================================================== *)
(** * What the program is after *)

(** Pairwise separation of the result of [chooseLabels], as long as the
    reads of destroyed nodes give what the nodes held: for every locator
    that calls lead to, any two coordinates of the table that [chooseLabels]
    returns are apart, by the minimum distance to the same value when they
    have the same parameter and the same contour value (identical, or
    [==]), by the minimum distance to a different value when they have the
    same parameter and contour values that are not [==], and by the minimum
    distance to a different parameter when their parameters differ.
    [apart a b d] is the failure of the program's test [dist < d], so a
    distance equal to the minimum is apart. *)
Theorem chooseLabels_separation_intact stale l fuel choices l' :
  reads_intact stale ->
  reachable l ->
  chooseLabels stale fuel l = Return (choices, l') ->
  forall i j p1 c1 a p2 c2 b,
    i <> j ->
    nth_error (entries choices) i = Some (p1, c1, a) ->
    nth_error (entries choices) j = Some (p2, c2, b) ->
    (p1 = p2 -> c1 = c2 -> apart a b (itsMinDistanceToSameValue l)) /\
    (p1 = p2 -> (c1 =? c2)%float = true -> apart a b (itsMinDistanceToSameValue l)) /\
    (p1 = p2 -> (c1 =? c2)%float = false ->
     apart a b (itsMinDistanceToDifferentValue l)) /\
    (p1 <> p2 -> apart a b (itsMinDistanceToDifferentParameter l)).
Proof.
  intros Hstale Hl H i j p1 c1 a p2 c2 b Hij Hi Hj.
  destruct (chooseLabels_not_too_close stale l fuel choices l' Hstale
              (proj1 (reachable_well_kept l Hl)) H i j _ _ Hij Hi Hj)
    as (Hfar & Hc1 & _).
  destruct (too_close_cases _ _ _ _ _ _ _ Hfar) as (Hsame & Hvalue & Hparam).
  repeat split; trivial.
  intros Hp <-. apply Hsame; trivial. now apply DoubleFacts.eqb_refl.
Qed.

(** In the cascade scenario the two chosen coordinates (0,0) of contour 1
    and (5,5) of contour 2 are apart by the minimum distance to a different
    value. *)
Lemma chooseLabels_separation_intact_witness :
  apart (0, 0) (5, 5) (itsMinDistanceToDifferentValue cascade).
Proof.
  refine (proj1 (proj2 (proj2
    (chooseLabels_separation_intact intact cascade 1
       [(1, [(1%float, [(0, 0)]); (2%float, [(5, 5)])])] _
       (fun _ _ _ => eq_refl)
       (run_reachable cascade_calls _ _ reachable_new eq_refl eq_refl)
       eq_refl 0%nat 1%nat 1 1%float (0, 0) 1 2%float (5, 5) _ eq_refl eq_refl)))
    eq_refl eq_refl).
  discriminate.
Defined.
